(** * Terms & Conditions decoder: the rules engine and the highlight clearer

    A shallow embedding of [src/rules.ts] (pattern bank, span finder, snippet
    builder, overlap resolver, heatmap, severity and hero line) and of
    [clearHighlights] from [src/content.ts], followed by the properties the
    specification states about them.

    JavaScript strings are sequences of UTF-16 code units, numbers that the
    code only ever uses as integers are [Z], and the [RegExp] objects of the
    pattern bank are terms of a small regular-expression syntax run by a
    backtracking matcher that follows the ECMAScript matching rules. *)

From Stdlib Require Import List ZArith NArith Lia Bool String Ascii.
From Stdlib Require Import Sorting.Sorted.
Import ListNotations.
Open Scope Z_scope.

(* ===================================================================== *)
(** ** JavaScript strings *)
(* ===================================================================== *)

Module JSString.

(** A UTF-16 code unit. *)
Definition char := N.

Definition jsstring := list char.

(** An ASCII literal of the source as a sequence of code units. *)
Definition str (s : string) : jsstring :=
  map N_of_ascii (list_ascii_of_string s).

(** [s.length], of a string or of an array. *)
Definition len {A : Type} (s : list A) : Z := Z.of_nat (List.length s).

(** [s.slice(a, b)]: a negative index counts from the end of the string,
    both ends are clamped to the string. *)
Definition slice (s : jsstring) (a b : Z) : jsstring :=
  let l := len s in
  let from := if a <? 0 then Z.max (l + a) 0 else Z.min a l in
  let to := if b <? 0 then Z.max (l + b) 0 else Z.min b l in
  firstn (Z.to_nat (Z.max (to - from) 0)) (skipn (Z.to_nat from) s).

Definition between (lo hi c : N) : bool := ((lo <=? c) && (c <=? hi))%N.

(** WhiteSpace and LineTerminator code points: what [\s] matches and what
    [trim] strips. *)
Definition isWhiteSpace (c : char) : bool :=
  (between 9 13 c || (c =? 32) || (c =? 160) || (c =? 5760)
   || between 8192 8202 c || (c =? 8232) || (c =? 8233) || (c =? 8239)
   || (c =? 8287) || (c =? 12288) || (c =? 65279))%N.

Definition isDigit (c : char) : bool := between 48 57 c.
Definition isUpper (c : char) : bool := between 65 90 c.
Definition isLower (c : char) : bool := between 97 122 c.
Definition isLetter (c : char) : bool := isUpper c || isLower c.

(** The characters [\b] treats as word characters: [A-Za-z0-9_]. *)
Definition isWordChar (c : char) : bool :=
  (isLetter c || isDigit c || (c =? 95))%N.

Fixpoint dropWhile (p : char -> bool) (s : jsstring) : jsstring :=
  match s with
  | [] => []
  | c :: s' => if p c then dropWhile p s' else s
  end.

(** [s.trim()] *)
Definition trim (s : jsstring) : jsstring :=
  rev (dropWhile isWhiteSpace (rev (dropWhile isWhiteSpace s))).

Definition lowerChar (c : char) : char := if isUpper c then (c + 32)%N else c.

(** [s.toLowerCase()]. The code lower-cases only text captured by patterns
    whose letters are all ASCII (a cadence word, a recipient phrase), so the
    mapping is the ASCII one; other code units are left as they are. *)
Definition toLowerCase (s : jsstring) : jsstring := map lowerChar s.

(** [s.replace(/\s+/g, " ")]: every maximal run of white space becomes one
    space. *)
Fixpoint collapseSpaces (s : jsstring) : jsstring :=
  match s with
  | [] => []
  | c :: s' =>
      if isWhiteSpace c then
        match s' with
        | d :: _ => if isWhiteSpace d then collapseSpaces s' else 32%N :: collapseSpaces s'
        | [] => [32%N]
        end
      else c :: collapseSpaces s'
  end.

Fixpoint eqb (a b : jsstring) : bool :=
  match a, b with
  | [], [] => true
  | x :: a', y :: b' => (x =? y)%N && eqb a' b'
  | _, _ => false
  end.

(** Truthiness of a string value: the empty string is falsy. *)
Definition truthy (s : jsstring) : bool :=
  match s with [] => false | _ :: _ => true end.

(** [parts.join(sep)] *)
Fixpoint join (sep : jsstring) (parts : list jsstring) : jsstring :=
  match parts with
  | [] => []
  | [p] => p
  | p :: ps => p ++ sep ++ join sep ps
  end.

End JSString.
Import JSString.

(* ===================================================================== *)
(** ** Regular expressions *)
(* ===================================================================== *)

Module RegExp.

(** The part of the pattern syntax the source uses. Quantifiers other than
    [?] are only ever applied to a single character class ([\s+],
    [\d{1,4}], [[\s\S]{0,80}], ...), which is what [Rep] holds. *)
Inductive regex : Type :=
| Empty : regex
| Char : (char -> bool) -> regex
| Seq : regex -> regex -> regex
| Alt : regex -> regex -> regex
| Opt : regex -> regex
| Rep : (char -> bool) -> nat -> option nat -> regex
| WordBoundary : regex
| EndOfInput : regex
| Group : nat -> regex -> regex.

(** A position in the input: its index, the character before it and the
    characters from it on. *)
Record pos : Type := mkPos { idx : nat; prev : option char; rest : jsstring }.

(** Capture groups matched so far: group number, start and end index, the
    most recent first. *)
Definition captures := list (nat * (nat * nat)).

(** A matcher continuation; the result is the end index of the whole match
    with the captures. *)
Definition cont := pos -> captures -> option (nat * captures).

Definition isWordOpt (c : option char) : bool :=
  match c with Some ch => isWordChar ch | None => false end.

(** Greedy [p{min,max}] (RepeatMatcher): take one more character when that
    lets the rest of the pattern match, stop here otherwise, provided [min]
    repetitions have been made. *)
Fixpoint rep (p : char -> bool) (min : nat) (max : option nat)
    (i : nat) (pv : option char) (rs : jsstring) (c : captures) (k : cont)
    {struct rs} : option (nat * captures) :=
  let stop := match min with O => k (mkPos i pv rs) c | S _ => None end in
  match max with
  | Some O => k (mkPos i pv rs) c
  | _ =>
      match rs with
      | ch :: rs' =>
          if p ch then
            match rep p (Nat.pred min) (option_map Nat.pred max) (S i) (Some ch) rs' c k with
            | Some r => Some r
            | None => stop
            end
          else stop
      | [] => stop
      end
  end.

(** The backtracking matcher, in continuation-passing style: alternatives
    are tried left to right, [?] is greedy and does not accept an empty
    iteration, a group records where it matched. *)
Fixpoint rmatch (r : regex) (x : pos) (c : captures) (k : cont)
    {struct r} : option (nat * captures) :=
  match r with
  | Empty => k x c
  | Char p =>
      match rest x with
      | ch :: rs => if p ch then k (mkPos (S (idx x)) (Some ch) rs) c else None
      | [] => None
      end
  | Seq r1 r2 => rmatch r1 x c (fun y d => rmatch r2 y d k)
  | Alt r1 r2 =>
      match rmatch r1 x c k with
      | Some res => Some res
      | None => rmatch r2 x c k
      end
  | Opt r1 =>
      match rmatch r1 x c (fun y d => if (idx y =? idx x)%nat then None else k y d) with
      | Some res => Some res
      | None => k x c
      end
  | Rep p mn mx => rep p mn mx (idx x) (prev x) (rest x) c k
  | WordBoundary =>
      if xorb (isWordOpt (prev x)) (isWordOpt (hd_error (rest x)))
      then k x c else None
  | EndOfInput =>
      match rest x with
      | [] => k x c
      | _ :: _ => None
      end
  | Group n r1 => rmatch r1 x c (fun y d => k y ((n, (idx x, idx y)) :: d))
  end.

(** A successful match: [m.index], the index after the match, the groups. *)
Record rmatch_result : Type :=
  mkMatch { index : nat; mend : nat; groups : captures }.

(** Try the pattern at the current position, then at each later one: the
    leftmost match wins. *)
Fixpoint search (r : regex) (i : nat) (pv : option char) (rs : jsstring)
    {struct rs} : option rmatch_result :=
  match rmatch r (mkPos i pv rs) [] (fun y d => Some (idx y, d)) with
  | Some (e, d) => Some (mkMatch i e d)
  | None =>
      match rs with
      | [] => None
      | ch :: rs' => search r (S i) (Some ch) rs'
      end
  end.

Definition charBefore (text : jsstring) (i : nat) : option char :=
  match i with O => None | S j => nth_error text j end.

(** [r.exec(text)] of a global pattern whose [lastIndex] is [lastIndex]:
    the first match starting at or after it. *)
Definition exec (r : regex) (text : jsstring) (lastIndex : nat) : option rmatch_result :=
  if (List.length text <? lastIndex)%nat then None
  else search r lastIndex (charBefore text lastIndex) (skipn lastIndex text).

(** [m[0]] *)
Definition matched (text : jsstring) (m : rmatch_result) : jsstring :=
  firstn (mend m - index m) (skipn (index m) text).

Fixpoint lookupGroup (n : nat) (c : captures) : option (nat * nat) :=
  match c with
  | [] => None
  | (g, se) :: c' => if (g =? n)%nat then Some se else lookupGroup n c'
  end.

(** [m[n]], [undefined] when group [n] took no part in the match. *)
Definition group (text : jsstring) (m : rmatch_result) (n : nat) : option jsstring :=
  match lookupGroup n (groups m) with
  | Some (s, e) => Some (firstn (e - s) (skipn s text))
  | None => None
  end.

(** The loop [while ((m = r.exec(text))) ...] over a fresh global pattern:
    each successful [exec] moves [lastIndex] to the end of its match. The
    loop of the source has no bound; here it runs on fuel and [None] stands
    for a loop that does not end (a pattern that matches the empty string
    never moves [lastIndex] on). *)
Fixpoint execLoop (fuel : nat) (r : regex) (text : jsstring) (lastIndex : nat)
    : option (list rmatch_result) :=
  match fuel with
  | O => None
  | S fuel' =>
      match exec r text lastIndex with
      | None => Some []
      | Some m =>
          match execLoop fuel' r text (mend m) with
          | Some ms => Some (m :: ms)
          | None => None
          end
      end
  end.

Definition execAll (r : regex) (text : jsstring) : option (list rmatch_result) :=
  execLoop (S (List.length text)) r text 0.

(** [(text.match(r) || [])[0]] for a global pattern: the first match, if
    any. [String.prototype.match] steps over empty matches itself, so it
    always returns. *)
Definition firstMatch (r : regex) (text : jsstring) : option jsstring :=
  match exec r text 0 with
  | Some m => Some (matched text m)
  | None => None
  end.

(** *** Building patterns *)

(** A pattern character under the [i] flag. Two characters match when
    their canonical (upper-case) forms agree; a character outside ASCII is
    never canonicalised to an ASCII one, and every letter of the pattern
    bank is ASCII, so only the two ASCII cases of a letter match it. *)
Definition ci (c : char) : char -> bool :=
  fun ch => (lowerChar ch =? lowerChar c)%N.

(** A literal word of a pattern with the [i] flag. *)
Definition lit (s : string) : regex :=
  fold_right (fun c r => Seq (Char (ci c)) r) Empty (str s).

Definition seqs (rs : list regex) : regex := fold_right Seq Empty rs.

Fixpoint alts (rs : list regex) : regex :=
  match rs with
  | [] => Empty
  | [r] => r
  | r :: rs' => Alt r (alts rs')
  end.

Definition oneOf (s : string) : char -> bool :=
  fun ch => existsb (N.eqb ch) (str s).

Definition anyChar : char -> bool := fun _ => true.
Definition plus (p : char -> bool) : regex := Rep p 1 None.

(** The least number of characters a match of the pattern takes. *)
Fixpoint minLen (r : regex) : nat :=
  match r with
  | Empty => 0
  | Char _ => 1
  | Seq r1 r2 => minLen r1 + minLen r2
  | Alt r1 r2 => Nat.min (minLen r1) (minLen r2)
  | Opt _ => 0
  | Rep _ mn None => mn
  | Rep _ mn (Some mx) => Nat.min mn mx
  | WordBoundary => 0
  | EndOfInput => 0
  | Group _ r1 => minLen r1
  end.

End RegExp.
Import RegExp.

(* ===================================================================== *)
(** ** src/types.ts and src/rules.ts *)
(* ===================================================================== *)

Module Rules.

Inductive RiskType : Type :=
| auto_renewal | cancellation | arbitration | class_action | fees | data_sharing.

Inductive Severity : Type := Low | Medium | High.

Record Hit : Type := mkHit {
  type : RiskType;
  start : Z;
  end_ : Z;
  text : jsstring;
  snippet : jsstring
}.

(** The seven buckets of [Heatmap.counts]. *)
Record Counts : Type := mkCounts {
  third_party : Z;
  share : Z;
  sell : Z;
  affiliate : Z;
  partner : Z;
  advertising : Z;
  analytics : Z
}.

Record Recipient : Type := mkRecipient { phrase : jsstring; count : Z }.

Record Heatmap : Type := mkHeatmap {
  counts : Counts;
  level : Severity;
  topRecipients : list Recipient
}.

Record RulesResult : Type := mkRulesResult {
  hits : list Hit;
  severity : Severity;
  hero : option jsstring;
  heatmap : Heatmap
}.

Definition RiskType_eqb (a b : RiskType) : bool :=
  match a, b with
  | auto_renewal, auto_renewal | cancellation, cancellation
  | arbitration, arbitration | class_action, class_action
  | fees, fees | data_sharing, data_sharing => true
  | _, _ => false
  end.

(** Sequencing of computations that may fail to end. *)
Definition bind {A B : Type} (m : option A) (f : A -> option B) : option B :=
  match m with Some a => f a | None => None end.

Notation "x <- m ;; f" := (bind m (fun x => f))
  (at level 61, m at next level, right associativity).

(** *** Tunables *)

Definition SNIPPET_WINDOW : Z := 250.
Definition MAX_HIGHLIGHTS : Z := 50.

(** *** Regex bank *)

Definition dashOrSpace : char -> bool := fun c => (c =? 45)%N || isWhiteSpace c.
Definition phraseChar : char -> bool :=
  fun c => isLetter c || isWhiteSpace c || (c =? 45)%N.

Definition RE_AUTO_RENEW : regex :=
  Group 1 (Alt
    (seqs [lit "auto"; Opt (Char dashOrSpace); lit "renew"; Opt (lit "al")])
    (seqs [lit "automatically"; plus isWhiteSpace; lit "renew"; Opt (lit "s")])).

Definition RE_CANCELLATION : regex :=
  Alt (seqs [WordBoundary; lit "cancel"; Opt (lit "lation"); WordBoundary])
      (seqs [WordBoundary; lit "terminate"; WordBoundary]).

Definition RE_ARBITRATION : regex :=
  alts [seqs [WordBoundary; lit "arbitration"; WordBoundary];
        seqs [WordBoundary; lit "AAA"; WordBoundary];
        seqs [WordBoundary; lit "JAMS"; WordBoundary]].

Definition RE_CLASS_ACTION : regex :=
  seqs [WordBoundary; lit "class"; plus isWhiteSpace; lit "action"; WordBoundary;
        Rep anyChar 0 (Some 80%nat); WordBoundary;
        Group 1 (alts [lit "waiver";
                       Seq (lit "prohibit") (Opt (lit "ed"));
                       lit "release";
                       seqs [lit "not"; plus isWhiteSpace; lit "allowed"]]);
        WordBoundary].

Definition RE_FEES : regex :=
  alts [seqs [WordBoundary; lit "fee"; Opt (lit "s"); WordBoundary];
        seqs [WordBoundary; lit "charge"; Opt (Alt (lit "s") (lit "d")); WordBoundary];
        seqs [WordBoundary; lit "billing"; WordBoundary]].

(** [$], pound sign (U+00A3) and euro sign (U+20AC), an optional space, one
    to four digits, optionally a dot and two digits. *)
Definition RE_PRICE : regex :=
  seqs [Group 1 (alts [Char (ci 36%N); Char (ci 163%N); Char (ci 8364%N)]);
        Opt (Char isWhiteSpace);
        Rep isDigit 1 (Some 4%nat);
        Opt (seqs [Char (ci 46%N); Rep isDigit 2 (Some 2%nat)])].

Definition RE_CADENCE : regex :=
  seqs [WordBoundary;
        Group 1 (alts [lit "month"; Seq (lit "mo") (Opt (Char (ci 46%N)));
                       lit "monthly"; lit "year"; lit "yr";
                       Seq (lit "annual") (Opt (lit "ly"));
                       lit "week"; lit "wk"; lit "day"; lit "daily"]);
        WordBoundary].

Definition RE_THIRD_PARTY : regex :=
  seqs [WordBoundary; lit "third"; Opt (Char dashOrSpace); lit "party"; WordBoundary].

Definition RE_SHARE : regex :=
  seqs [WordBoundary; lit "share"; Opt (alts [lit "s"; lit "d"; lit "ing"]); WordBoundary].

Definition RE_SELL : regex :=
  seqs [WordBoundary; lit "sell"; Opt (alts [lit "s"; lit "ing"; lit "sold"]); WordBoundary].

Definition RE_AFFILIATE : regex :=
  seqs [WordBoundary; lit "affiliate"; Opt (lit "s"); WordBoundary].

Definition RE_PARTNER : regex :=
  seqs [WordBoundary; lit "partner"; Opt (lit "s"); WordBoundary].

Definition RE_ADVERTISING : regex :=
  seqs [WordBoundary; lit "advertis";
        Alt (lit "ing") (Seq (lit "er") (Opt (lit "s"))); WordBoundary].

Definition RE_ANALYTICS : regex :=
  seqs [WordBoundary; lit "analytic"; Alt (lit "s") (lit "al"); WordBoundary].

Definition RE_SHARE_WITH : regex :=
  seqs [WordBoundary; lit "share"; Opt (alts [lit "s"; lit "d"; lit "ing"]);
        plus isWhiteSpace; Alt (lit "with") (lit "to"); plus isWhiteSpace;
        Group 1 (Seq (Char isLetter) (Rep phraseChar 1 (Some 40%nat)))].

Definition RE_SELL_TO : regex :=
  seqs [WordBoundary; lit "sell"; Opt (alts [lit "s"; lit "ing"; lit "sold"]);
        plus isWhiteSpace; Alt (lit "to") (lit "with"); plus isWhiteSpace;
        Group 1 (Seq (Char isLetter) (Rep phraseChar 1 (Some 40%nat)))].

Definition RE_OUR_SOMETHING_PARTNERS : regex :=
  seqs [WordBoundary; lit "our"; plus isWhiteSpace;
        Group 1 (seqs [Char isLetter; Rep phraseChar 0 (Some 20%nat);
                       plus isWhiteSpace; lit "partners"]);
        WordBoundary].

(** [/[.!?](?:\s|$)/g] of [makeSnippet] (no [i] flag, no letters). *)
Definition sentenceEndings : regex :=
  Seq (Char (oneOf ".!?")) (Alt (Char isWhiteSpace) EndOfInput).

(** *** Small helpers *)

(** [while (r.exec(text)) n++] *)
Definition countMatches (regex : regex) (text : jsstring) : option Z :=
  ms <- execAll regex text ;;
  Some (len ms).

(** The [{ index, match }] records of every match, in order. *)
Definition findAll (regex : regex) (text : jsstring) : option (list (Z * jsstring)) :=
  ms <- execAll regex text ;;
  Some (map (fun m => (Z.of_nat (index m), matched text m)) ms).

(** The [for] loop of [makeSnippet]: the first pair of consecutive
    boundaries that has the hit between them. *)
Fixpoint findSentence (boundaries : list Z) (hitOffsetInRegion : Z) : option (Z * Z) :=
  match boundaries with
  | boundaryStart :: ((boundaryEnd :: _) as later) =>
      if (boundaryStart <=? hitOffsetInRegion) && (hitOffsetInRegion <? boundaryEnd)
      then Some (boundaryStart, boundaryEnd)
      else findSentence later hitOffsetInRegion
  | _ => None
  end.

Definition ellipsis : jsstring := [8230%N].

(** Lines 83-123 of [makeSnippet]: the sentence around the hit (or the
    fallback window when it is shorter than 30 characters), with
    [sentenceStart]. *)
Definition snippetSentence (text : jsstring) (start end_ window : Z)
    : option (jsstring * Z) :=
  let searchWindow := 500 in
  let searchStart := Z.max 0 (start - searchWindow) in
  let searchEnd := Z.min (len text) (end_ + searchWindow) in
  let region := slice text searchStart searchEnd in
  ms <- execAll sentenceEndings region ;;
  let boundaries :=
    [0] ++ map (fun m => Z.of_nat (index m) + 1) ms ++ [len region] in
  let hitOffsetInRegion := start - searchStart in
  let '(sentenceStart, sentenceEnd) :=
    match findSentence boundaries hitOffsetInRegion with
    | Some se => se
    | None => (0, len region)
    end in
  let sentence := trim (slice region sentenceStart sentenceEnd) in
  let sentence :=
    if len sentence <? 30 then
      let fallbackStart := Z.max 0 (start - window) in
      let fallbackEnd := Z.min (len text) (end_ + window) in
      trim (slice text fallbackStart fallbackEnd)
    else sentence in
  Some (sentence, sentenceStart).

(** Lines 125-136 of [makeSnippet]: the limit of 500 characters. The second
    test reads [sentence.length] after [sentence] has been cut (and
    prefixed), as the source does. *)
Definition snippetLimit (sentence : jsstring) (hitOffset : Z) : jsstring :=
  if len sentence >? 500 then
    let excerptStart := Z.max 0 (hitOffset - 250) in
    let excerptEnd := Z.min (len sentence) (hitOffset + 250) in
    let sentence := trim (slice sentence excerptStart excerptEnd) in
    let sentence := if excerptStart >? 0 then ellipsis ++ sentence else sentence in
    let sentence := if excerptEnd <? len sentence then sentence ++ ellipsis else sentence in
    sentence
  else sentence.

Definition makeSnippet (text : jsstring) (start end_ window : Z) : option jsstring :=
  let searchStart := Z.max 0 (start - 500) in
  ss <- snippetSentence text start end_ window ;;
  let '(sentence, sentenceStart) := ss in
  Some (snippetLimit sentence (start - searchStart - sentenceStart)).

(** [arr.sort(cmp)]: the sort is stable; an element goes before the first
    one of the already sorted rest that it does not compare greater than. *)
Fixpoint insertBy {A : Type} (cmp : A -> A -> Z) (x : A) (l : list A) : list A :=
  match l with
  | [] => [x]
  | y :: l' => if cmp x y <=? 0 then x :: l else y :: insertBy cmp x l'
  end.

Definition sortBy {A : Type} (cmp : A -> A -> Z) (l : list A) : list A :=
  fold_right (insertBy cmp) [] l.

(** [(a, b) => a.start - b.start || b.end - a.end] *)
Definition byStartThenLongest (a b : Hit) : Z :=
  if start a - start b =? 0 then end_ b - end_ a else start a - start b.

(** [out[out.length - 1]] *)
Definition lastOf (out : list Hit) : option Hit :=
  match out with
  | [] => None
  | h :: t => Some (last t h)
  end.

(** [h.start <= last.end && h.end >= last.start] *)
Definition overlaps (h last : Hit) : bool :=
  (start h <=? end_ last) && (end_ h >=? start last).

(** One turn of the loop of [dedupeOverlaps]. *)
Definition dedupeStep (out : list Hit) (h : Hit) : list Hit :=
  match lastOf out with
  | None => out ++ [h]
  | Some last =>
      if negb (overlaps h last) then out ++ [h]
      else
        let lastLen := end_ last - start last in
        let thisLen := end_ h - start h in
        if thisLen >? lastLen then removelast out ++ [h] else out
  end.

Definition dedupeOverlaps (hits : list Hit) : list Hit :=
  let sorted := sortBy byStartThenLongest hits in
  fold_left dedupeStep sorted [].

Record Nearby : Type := mkNearby { price : option jsstring; cadence : option jsstring }.

Definition truthyOpt (s : option jsstring) : bool :=
  match s with Some v => truthy v | None => false end.

(** Try to find a price and cadence near a given range. *)
Definition findPriceAndCadenceNearby (text : jsstring) (start end_ window : Z) : Nearby :=
  let a := Z.max 0 (start - window) in
  let b := Z.min (len text) (end_ + window) in
  let area := slice text a b in
  let price := firstMatch RE_PRICE area in
  let cadence := firstMatch RE_CADENCE area in
  {| price := if truthyOpt price then option_map trim price else None;
     cadence := if truthyOpt cadence
                then option_map (fun c => trim (toLowerCase c)) cadence else None |}.

Definition scoreToSeverity (score : Z) : Severity :=
  if score >=? 4 then High
  else if score >=? 2 then Medium
  else Low.

(** *** Heatmap and recipients *)

(** [Map<string, number>]: the entries in insertion order. *)
Definition TopMap := list (jsstring * Z).

Fixpoint mapGet (m : TopMap) (k : jsstring) : option Z :=
  match m with
  | [] => None
  | (k', v) :: m' => if JSString.eqb k' k then Some v else mapGet m' k
  end.

(** [m.set(k, v)]: an existing key keeps its place. *)
Fixpoint mapSet (m : TopMap) (k : jsstring) (v : Z) : TopMap :=
  match m with
  | [] => [(k, v)]
  | (k', v') :: m' =>
      if JSString.eqb k' k then (k', v) :: m' else (k', v') :: mapSet m' k v
  end.

Definition bump (topMap : TopMap) (phrase : option jsstring) : TopMap :=
  match phrase with
  | None => topMap
  | Some ph =>
      if negb (truthy ph) then topMap
      else
        let p := trim (collapseSpaces (toLowerCase ph)) in
        if negb (truthy p) then topMap
        else
          let old := match mapGet topMap p with
                     | Some n => if n =? 0 then 0 else n
                     | None => 0
                     end in
          mapSet topMap p (old + 1)
  end.

(** [while ((m = re.exec(text))) bump(m[1])] *)
Definition bumpAll (topMap : TopMap) (re : regex) (text : jsstring) : option TopMap :=
  ms <- execAll re text ;;
  Some (fold_left (fun tm m => bump tm (group text m 1)) ms topMap).

Definition levelOf (total : Z) : Severity :=
  if total >=? 15 then High else if total >=? 5 then Medium else Low.

Definition totalOf (c : Counts) : Z :=
  third_party c + share c + sell c + affiliate c + partner c
  + advertising c + analytics c.

Definition buildHeatmap (text : jsstring) : option Heatmap :=
  c1 <- countMatches RE_THIRD_PARTY text ;;
  c2 <- countMatches RE_SHARE text ;;
  c3 <- countMatches RE_SELL text ;;
  c4 <- countMatches RE_AFFILIATE text ;;
  c5 <- countMatches RE_PARTNER text ;;
  c6 <- countMatches RE_ADVERTISING text ;;
  c7 <- countMatches RE_ANALYTICS text ;;
  let counts := mkCounts c1 c2 c3 c4 c5 c6 c7 in
  let total := totalOf counts in
  let level := levelOf total in
  let topMap : TopMap := [] in
  topMap <- bumpAll topMap RE_SHARE_WITH text ;;
  topMap <- bumpAll topMap RE_SELL_TO text ;;
  topMap <- bumpAll topMap RE_OUR_SOMETHING_PARTNERS text ;;
  let topRecipients :=
    map (fun e => mkRecipient (fst e) (snd e))
        (firstn 5 (sortBy (fun a b => snd b - snd a) topMap)) in
  Some (mkHeatmap counts level topRecipients).

(** *** Severity and hero *)

Definition has (hits : list Hit) (t : RiskType) : bool :=
  existsb (fun h => RiskType_eqb (type h) t) hits.

Definition computeSeverity (hits : list Hit) (fullText : jsstring) : Severity :=
  let score := 0 in
  let auto := find (fun h => RiskType_eqb (type h) auto_renewal) hits in
  let score :=
    match auto with
    | Some auto =>
        let near := findPriceAndCadenceNearby fullText (start auto) (end_ auto) 160 in
        score + (if truthyOpt (price near) || truthyOpt (cadence near) then 3 else 2)
    | None => score
    end in
  let score := if has hits arbitration then score + 3 else score in
  let score := if has hits class_action then score + 2 else score in
  let score := if has hits cancellation then score + 1 else score in
  let score := if has hits fees then score + 1 else score in
  scoreToSeverity score.

(** The fixed hero lines; the first code units are the emoji of the source
    (U+1F4B0, U+1F504, U+26A0 U+FE0F) and U+2014 is the dash. *)
Definition heroFees : jsstring :=
  [55357%N; 56496%N] ++ str " Fees/charges apply - review billing terms carefully.".
Definition heroCancellation : jsstring :=
  [55357%N; 56580%N] ++ str " Cancellation restrictions found - check how to cancel.".
Definition heroAutoGeneric : jsstring :=
  [9888%N; 65039%N] ++ str " Auto-renewal detected. Review cancellation terms.".
Definition heroAutoPriced (part : jsstring) : jsstring :=
  str "Auto-renews " ++ (if truthy part then str "at " ++ part else [])
  ++ str " " ++ [8212%N] ++ str " set a cancel reminder.".

Definition optList (s : option jsstring) : list jsstring :=
  match s with Some v => if truthy v then [v] else [] | None => [] end.

Definition selectHero (hits : list Hit) (fullText : jsstring) : option jsstring :=
  if has hits fees then Some heroFees
  else if has hits cancellation then Some heroCancellation
  else
    match find (fun h => RiskType_eqb (type h) auto_renewal) hits with
    | Some auto =>
        let near := findPriceAndCadenceNearby fullText (start auto) (end_ auto) 160 in
        if truthyOpt (price near) || truthyOpt (cadence near) then
          let part := join (str "/") (optList (price near) ++ optList (cadence near)) in
          Some (heroAutoPriced part)
        else Some heroAutoGeneric
    | None => None
    end.

(** *** Main entry *)

(** [pushAll(type, regex)]: one hit per match, appended to [hits]. *)
Fixpoint pushEach (text : jsstring) (type : RiskType) (found : list (Z * jsstring))
    (hits : list Hit) : option (list Hit) :=
  match found with
  | [] => Some hits
  | (index, match_) :: found' =>
      let start := index in
      let end_ := index + len match_ in
      snippet <- makeSnippet text start end_ SNIPPET_WINDOW ;;
      pushEach text type found' (hits ++ [mkHit type start end_ match_ snippet])
  end.

Definition pushAll (text : jsstring) (hits : list Hit) (type : RiskType) (regex : regex)
    : option (list Hit) :=
  found <- findAll regex text ;;
  pushEach text type found hits.

(** The raw hits of the five detectors, in the order they are run. *)
Definition collectHits (text : jsstring) : option (list Hit) :=
  let hits : list Hit := [] in
  hits <- pushAll text hits auto_renewal RE_AUTO_RENEW ;;
  hits <- pushAll text hits arbitration RE_ARBITRATION ;;
  hits <- pushAll text hits class_action RE_CLASS_ACTION ;;
  hits <- pushAll text hits cancellation RE_CANCELLATION ;;
  pushAll text hits fees RE_FEES.

(** [dedupeOverlaps(hits)] capped at [MAX_HIGHLIGHTS]. *)
Definition dedupeAndCap (hits : list Hit) : list Hit :=
  let cleaned := dedupeOverlaps hits in
  if len cleaned >? MAX_HIGHLIGHTS
  then firstn (Z.to_nat MAX_HIGHLIGHTS) cleaned
  else cleaned.

Definition rulesScan (text : jsstring) : option RulesResult :=
  hits <- collectHits text ;;
  let cleaned := dedupeAndCap hits in
  heatmap <- buildHeatmap text ;;
  let severity := computeSeverity cleaned text in
  let hero := selectHero cleaned text in
  Some (mkRulesResult cleaned severity hero heatmap).

End Rules.
Import Rules.

(* ===================================================================== *)
(** ** src/content.ts: clearing the highlights *)
(* ===================================================================== *)

Module Content.

Definition MARK_ATTR : string := "data-tc".
Definition MARK_ATTR_VAL : string := "risk".

(** A DOM node: a text node, or an element with its identity (two
    elements are the same object when they carry the same number), its
    [tagName], its attributes and its [childNodes]. *)
#[warnings="-register-all"]
Inductive node : Type :=
| TextNode : jsstring -> node
| Element : nat -> string -> list (string * string) -> list node -> node.

(** The page: the child nodes of its root element. The root element of an
    HTML page is [html], never one of the marks, so every mark of the page
    has a parent. *)
Definition document := list node.

Fixpoint getAttribute (attributes : list (string * string)) (name : string) : option string :=
  match attributes with
  | [] => None
  | (n, v) :: rest => if String.eqb n name then Some v else getAttribute rest name
  end.

(** What the selector [mark[data-tc="risk"]] accepts. *)
Definition isOurMark (tagName : string) (attributes : list (string * string)) : bool :=
  String.eqb tagName "MARK" &&
  match getAttribute attributes MARK_ATTR with
  | Some v => String.eqb v MARK_ATTR_VAL
  | None => false
  end.

(** The marks below a node, itself included, in document order. *)
Fixpoint marksOf (n : node) : list nat :=
  match n with
  | TextNode _ => []
  | Element i t a cs => (if isOurMark t a then [i] else []) ++ flat_map marksOf cs
  end.

(** [document.querySelectorAll(`mark[data-tc="risk"]`)]: a static list. *)
Definition querySelectorAllMarks (d : document) : list nat := flat_map marksOf d.

(** The elements below a node, itself included, in document order. *)
Fixpoint elementsOf (n : node) : list nat :=
  match n with
  | TextNode _ => []
  | Element i _ _ cs => i :: flat_map elementsOf cs
  end.

Definition elements (d : document) : list nat := flat_map elementsOf d.

(** [mark.parentNode] is not null: the element is still in the page. *)
Definition hasParent (d : document) (mark : nat) : bool :=
  existsb (Nat.eqb mark) (elements d).

(** What a node becomes when element [mark] is unwrapped: the children of
    [mark] are moved before it, in order, and [mark] is removed. *)
Fixpoint unwrap (mark : nat) (n : node) : list node :=
  match n with
  | TextNode s => [TextNode s]
  | Element i t a cs =>
      if (i =? mark)%nat then cs
      else [Element i t a (flat_map (unwrap mark) cs)]
  end.

(** The body of [marks.forEach]: the page and the counter after it. *)
Definition clearStep (st : document * Z) (mark : nat) : document * Z :=
  let '(d, removed) := st in
  if negb (hasParent d mark) then (d, removed)
  else (flat_map (unwrap mark) d, removed + 1).

Definition clearHighlights (d : document) : document * Z :=
  let marks := querySelectorAllMarks d in
  fold_left clearStep marks (d, 0).

Fixpoint textContent (n : node) : jsstring :=
  match n with
  | TextNode s => s
  | Element _ _ _ cs => flat_map textContent cs
  end.

Definition pageText (d : document) : jsstring := flat_map textContent d.

End Content.
Import Content.

(* ===================================================================== *)
(** ** Vocabulary of the properties and of their proofs *)
(* ===================================================================== *)

(** Where a continuation is entered from a position [x] after at least
    [n] characters, inside the same input. *)
Definition reached (k : cont) (x : pos) (n : nat) (res : nat * captures) : Prop :=
  exists y d, k y d = Some res
    /\ (idx x + n <= idx y)%nat
    /\ (idx y + List.length (rest y) = idx x + List.length (rest x))%nat.

Definition goodMatch (r : regex) (text : jsstring) (from : nat) (m : rmatch_result) : Prop :=
  (from <= index m)%nat /\ (index m + minLen r <= mend m)%nat
  /\ (mend m <= List.length text)%nat.

(** A span as the span finder makes them: not empty. *)
Definition wellFormed (h : Hit) : Prop := start h < end_ h.

(** [a] ends before [b] starts, with at least one character between. *)
Definition apart (a b : Hit) : Prop := end_ a < start b.

Definition startsBefore (a b : Hit) : Prop := start a <= start b.

(** The accumulator [out] read from its end: the last accepted span is on
    top. *)
Definition stackStep (o : list Hit) (h : Hit) : list Hit :=
  match o with
  | [] => [h]
  | last :: o' =>
      if negb (overlaps h last) then h :: o
      else if end_ h - start h >? end_ last - start last then h :: o'
      else o
  end.

(** The invariant of the loop: every accepted span is well formed and
    starts after the one accepted before it has ended. *)
Fixpoint stackOk (o : list Hit) : Prop :=
  match o with
  | [] => True
  | h :: o' =>
      wellFormed h /\ (forall p, hd_error o' = Some p -> apart p h) /\ stackOk o'
  end.

(** A match as [findAll] reports it: inside the text and not empty. *)
Definition inText (text : jsstring) (im : Z * jsstring) : Prop :=
  0 <= fst im /\ 0 < len (snd im) /\ fst im + len (snd im) <= len text.

(** The detectors that the span finder runs. *)
Definition detected (t : RiskType) : Prop :=
  t = auto_renewal \/ t = arbitration \/ t = class_action
  \/ t = cancellation \/ t = fees.

(** The phrases handed to [bump], in the order of the calls: the matches
    of the three recipient patterns, one pattern after the other. *)
Definition captured (text : jsstring) : option (list (option jsstring)) :=
  a <- execAll RE_SHARE_WITH text ;;
  b <- execAll RE_SELL_TO text ;;
  c <- execAll RE_OUR_SOMETHING_PARTNERS text ;;
  Some (map (fun m => group text m 1) (a ++ b ++ c)).

(** The key that [bump] counts for a captured phrase, if it counts one. *)
Definition normalized (phrase : option jsstring) : list jsstring :=
  match phrase with
  | None => []
  | Some ph =>
      if negb (truthy ph) then []
      else
        let p := trim (collapseSpaces (toLowerCase ph)) in
        if negb (truthy p) then [] else [p]
  end.

(** The keys counted during a scan, in the order they are met. *)
Definition encountered (phrases : list (option jsstring)) : list jsstring :=
  flat_map normalized phrases.

(** [topMap.set(p, (topMap.get(p) || 0) + 1)] *)
Definition bumpKey (topMap : TopMap) (p : jsstring) : TopMap :=
  mapSet topMap p
    ((match mapGet topMap p with
      | Some n => if n =? 0 then 0 else n
      | None => 0
      end) + 1).

(** [a] is met for the first time before [b] is. *)
Definition firstBefore (ps : list jsstring) (a b : jsstring) : Prop :=
  exists l1 l2, ps = l1 ++ a :: l2 /\ ~ In a l1 /\ ~ In b l1 /\ a <> b.

(** The order that a stable sort by count, largest first, gives to entries
    that were in the order [Q]. *)
Definition rankedBy {A : Type} (Q : A -> A -> Prop) (a b : A * Z) : Prop :=
  snd b <= snd a /\ (snd a = snd b -> Q (fst a) (fst b)).

(** The order of [topRecipients]: by count, largest first; among equal
    counts, the phrase met first comes first. *)
Definition recipientOrder (ps : list jsstring) (a b : Recipient) : Prop :=
  count b <= count a /\ (count a = count b -> firstBefore ps (phrase a) (phrase b)).

(** Unwrapping [mark] takes it, and nothing else, out of the elements and
    out of the marks of the page, and leaves the text as it is. *)
Definition unwrapped (mark : nat) (n : node) : Prop :=
  NoDup (elementsOf n) ->
  flat_map elementsOf (unwrap mark n) = remove Nat.eq_dec mark (elementsOf n)
  /\ flat_map marksOf (unwrap mark n) = remove Nat.eq_dec mark (marksOf n).

(** What is left of [l] when the marks of [ms] have been taken out. *)
Definition withoutAll (ms l : list nat) : list nat :=
  fold_left (fun l m => remove Nat.eq_dec m l) ms l.

(** Low < Medium < High. *)
Definition severityRank (s : Severity) : Z :=
  match s with Low => 0 | Medium => 1 | High => 2 end.

(** The text of the auto-renewal scenario of the specification. *)
Definition scenarioText : jsstring :=
  str "This agreement automatically renews for $9.99/month unless cancelled.".

Definition noCounts : Counts := mkCounts 0 0 0 0 0 0 0.

(** Three spans, the last of which ends before it starts. *)
Definition malformedHits : list Hit :=
  [mkHit fees 0 10 [] []; mkHit cancellation 15 30 [] []; mkHit fees 20 5 [] []].

Definition overlappingHits : list Hit :=
  [mkHit cancellation 15 25 [] []; mkHit fees 10 20 [] []].

(** A paragraph with two marks, one holding a further element. *)
Definition markedPage : document :=
  [Element 1 "P" []
     [TextNode (str "We charge ");
      Element 2 "MARK" [("data-tc", "risk")] [TextNode (str "fees")];
      TextNode (str " and you may ");
      Element 3 "MARK" [("data-tc", "risk")]
        [Element 4 "B" [] [TextNode (str "cancel")]]]]%string.



From Stdlib Require Import Sorting.Permutation.

(* ===================================================================== *)
(** ** src/content.ts: applying the highlights *)
(* ===================================================================== *)

Module Highlight.

(** The cap of [content.ts] (its own constant). *)
Definition MAX_HIGHLIGHTS : Z := 50.

(** The page and the [stylesInstalled] flag of the content script. *)
Record page : Type := mkPage { dom : document; stylesInstalled : bool }.

(** The identity of a newly created element: one that no element of the
    page has. *)
Definition freshId (d : document) : nat := S (list_max (elements d)).

(** The text of the style sheet (the template literal of
    [installStylesOnce], line breaks included). *)
Definition styleText : jsstring :=
  [10%N] ++ str "    mark[" ++ str MARK_ATTR ++ str "=" ++ [34%N] ++ str MARK_ATTR_VAL
  ++ [34%N] ++ str "] {" ++ [10%N]
  ++ str "      background: #fff3cd;" ++ [10%N]
  ++ str "      color: inherit;" ++ [10%N]
  ++ str "      padding: 0 2px;" ++ [10%N]
  ++ str "      border-radius: 2px;" ++ [10%N]
  ++ str "      box-shadow: 0 0 0 1px rgba(0,0,0,0.04) inset;" ++ [10%N]
  ++ str "    }" ++ [10%N] ++ str "  ".

(** The [style] element is appended to the root element, once. *)
Definition installStylesOnce (p : page) : page :=
  if stylesInstalled p then p
  else
    let style := Element (freshId (dom p)) "STYLE"
                   [("id", "tc-decoder-highlight-style")]%string [TextNode styleText] in
    mkPage (dom p ++ [style]) true.

(** The elements from a node's parent up to the root element, nearest
    first: tag name and attributes of each. *)
Definition chain := list (string * list (string * string)).

(** The loop of [isInsideOurMark]: is one of these our mark? *)
Definition isInsideOurMark (c : chain) : bool :=
  existsb (fun el => isOurMark (fst el) (snd el)) c.

(** [acceptNode] of the tree walker, for a text node with data [nodeValue]
    whose parent chain is [c]. *)
Definition acceptNode (c : chain) (nodeValue : jsstring) : bool :=
  match c with
  | [] => false
  | (tag, _) :: _ =>
      if (String.eqb tag "SCRIPT" || String.eqb tag "STYLE" || String.eqb tag "NOSCRIPT")%bool
      then false
      else if isInsideOurMark c then false
      else if negb (truthy nodeValue) || negb (truthy (trim nodeValue)) then false
      else true
  end.

(** The text nodes the walker yields below a node, in document order. *)
Fixpoint textNodesOf (c : chain) (n : node) : list jsstring :=
  match n with
  | TextNode s => if acceptNode c s then [s] else []
  | Element _ t a cs => flat_map (textNodesOf ((t, a) :: c)) cs
  end.

(** [document.body]: the first child of the root element that is a [body]
    or a [frameset]. *)
Definition isBody (n : node) : bool :=
  match n with
  | Element _ t _ _ => String.eqb t "BODY" || String.eqb t "FRAMESET"
  | TextNode _ => false
  end.

(** The chain of a child of the root element. *)
Definition htmlChain : chain := [("HTML"%string, [])].

(** [textNodes()]: the walker starts at [document.body], or at the root
    element when the page has no body. *)
Definition textNodes (d : document) : list jsstring :=
  match find isBody d with
  | Some body => textNodesOf htmlChain body
  | None => flat_map (textNodesOf htmlChain) d
  end.

Fixpoint startsWith (needle s : jsstring) : bool :=
  match needle, s with
  | [], _ => true
  | x :: needle', y :: s' => (x =? y)%N && startsWith needle' s'
  | _ :: _, [] => false
  end.

Fixpoint indexOfFrom (needle s : jsstring) (i : nat) : option nat :=
  if startsWith needle s then Some i
  else
    match s with
    | [] => None
    | _ :: s' => indexOfFrom needle s' (S i)
    end.

(** [s.indexOf(needle)]; [None] stands for -1. *)
Definition indexOf (s needle : jsstring) : option nat := indexOfFrom needle s 0.

(** [h.snippet.replace(/^…|…$/g, '')]: a marker at the start and a marker
    at the end are taken off. *)
Definition stripEllipsis (s : jsstring) : jsstring :=
  let s := match s with
           | c :: s' => if (c =? 8230)%N then s' else s
           | [] => []
           end in
  match rev s with
  | c :: r => if (c =? 8230)%N then rev r else s
  | [] => []
  end.

(** How a call ends: with a value, or with an exception. *)
Inductive outcome (A : Type) : Type :=
| Returned : A -> outcome A
| Threw : outcome A.
Arguments Returned {A} _.
Arguments Threw {A}.

(** What a search below a node gives: nothing found ([None]), an
    exception, or the nodes that take the node's place. *)
Definition found := option (outcome (list node)).

(** The nodes [r] in place of a node, before the siblings [after]. *)
Definition inPlace (o : found) (k : list node -> list node) : found :=
  match o with
  | Some (Returned r) => Some (Returned (k r))
  | Some Threw => Some Threw
  | None => None
  end.

Section Lowercase.

(** [String.prototype.toLowerCase], whatever it does to the text of a
    page; the length of a string need not be kept. *)
Variable toLowerCase : jsstring -> jsstring.

(** The body of the loop of [findAndWrapOnce] at a text node the walker
    yields: [None] when the needle is not in it. Setting the end of the
    range past the end of the node throws; otherwise the node is split
    around the range and the range is put into a new [mark]. *)
Definition wrapText (needle : jsstring) (mark : nat) (text : jsstring) : found :=
  match indexOf (toLowerCase text) (toLowerCase needle) with
  | None => None
  | Some idx =>
      if (List.length text <? idx + List.length needle)%nat then Some Threw
      else
        Some (Returned
          [TextNode (firstn idx text);
           Element mark "MARK" [(MARK_ATTR, MARK_ATTR_VAL)]
             [TextNode (firstn (List.length needle) (skipn idx text))];
           TextNode (skipn (idx + List.length needle) text)])
  end.

(** The first of the nodes [cs], in order, below which [f] finds
    something. *)
Definition firstWrap (f : node -> found) : list node -> found :=
  fix go (cs : list node) : found :=
    match cs with
    | [] => None
    | c :: cs' =>
        match f c with
        | Some o => inPlace (Some o) (fun r => r ++ cs')
        | None => inPlace (go cs') (fun r => c :: r)
        end
    end.

(** The search of [findAndWrapOnce] below a node, in document order. *)
Fixpoint wrapNode (needle : jsstring) (mark : nat) (c : chain) (n : node) : found :=
  match n with
  | TextNode s => if acceptNode c s then wrapText needle mark s else None
  | Element i t a cs =>
      inPlace (firstWrap (wrapNode needle mark ((t, a) :: c)) cs)
              (fun cs' => [Element i t a cs'])
  end.

(** The search below [document.body], when the page has one. *)
Fixpoint wrapInBody (f : node -> found) (d : list node) : found :=
  match d with
  | [] => None
  | n :: d' =>
      if isBody n then inPlace (f n) (fun r => r ++ d')
      else inPlace (wrapInBody f d') (fun r => n :: r)
  end.

Definition findAndWrapOnce (needle : jsstring) (d : document) : outcome (bool * document) :=
  if negb (truthy needle) then Returned (false, d)
  else
    let mark := freshId d in
    let search :=
      match find isBody d with
      | Some _ => wrapInBody (wrapNode needle mark htmlChain) d
      | None => firstWrap (wrapNode needle mark htmlChain) d
      end in
    match search with
    | None => Returned (false, d)
    | Some Threw => Threw
    | Some (Returned d') => Returned (true, d')
    end.

(** The loop of [applyHighlights]; an exception leaves the page as the
    wraps made so far have left it. *)
Fixpoint applyLoop (hits : list Hit) (applied : Z) (d : document)
    : outcome Z * document :=
  match hits with
  | [] => (Returned applied, d)
  | h :: rest =>
      if applied >=? MAX_HIGHLIGHTS then (Returned applied, d)
      else
        let textToHighlight := trim (stripEllipsis (snippet h)) in
        match findAndWrapOnce textToHighlight d with
        | Threw => (Threw, d)
        | Returned (ok, d1) =>
            let second :=
              if negb ok && truthy (text h) then findAndWrapOnce (text h) d1
              else Returned (ok, d1) in
            match second with
            | Threw => (Threw, d1)
            | Returned (ok, d2) =>
                applyLoop rest (if ok then applied + 1 else applied) d2
            end
        end
  end.

Definition applyHighlights (hits : list Hit) (p : page) : outcome Z * page :=
  if len hits =? 0 then (Returned 0, p)
  else
    let p := installStylesOnce p in
    let '(r, d) := applyLoop hits 0 (dom p) in
    (r, mkPage d (stylesInstalled p)).

End Lowercase.

End Highlight.

(* ===================================================================== *)
(** ** Vocabulary of the further properties *)
(* ===================================================================== *)

(** The pattern is made of assertions only: matching it never moves on. *)
Fixpoint still (r : regex) : bool :=
  match r with
  | Empty | WordBoundary | EndOfInput => true
  | Seq r1 r2 => still r1 && still r2
  | Group _ r1 => still r1
  | _ => false
  end.

(** Every match of the pattern starts with a character that [P] accepts. *)
Fixpoint headed (P : char -> bool) (r : regex) : Prop :=
  match r with
  | Char p => forall ch, p ch = true -> P ch = true
  | Seq r1 r2 => headed P r1 \/ (still r1 = true /\ headed P r2)
  | Alt r1 r2 => headed P r1 /\ headed P r2
  | Rep p mn mx =>
      (0 < minLen (Rep p mn mx))%nat /\ forall ch, p ch = true -> P ch = true
  | Group _ r1 => headed P r1
  | Empty | Opt _ | WordBoundary | EndOfInput => False
  end.

(** [$], the pound sign and the euro sign. *)
Definition isCurrency (c : char) : bool :=
  ((c =? 36) || (c =? 163) || (c =? 8364))%N.

(** [a] occurs in [b], as a run of consecutive characters. *)
Definition infix (a b : jsstring) : Prop :=
  exists pre post, b = pre ++ a ++ post.

(** A match as [findAll] reports it, read against the text: it is the
    slice of the text at its index, it is not empty, and it starts with a
    character that [P] accepts. *)
Definition sliceOf (P : char -> bool) (text : jsstring) (im : Z * jsstring) : Prop :=
  0 <= fst im
  /\ 0 < len (snd im)
  /\ fst im + len (snd im) <= len text
  /\ snd im = slice text (fst im) (fst im + len (snd im))
  /\ exists c t, snd im = c :: t /\ P c = true.

(** What every span of a scan satisfies; the last two parts are about the
    texts that [applyHighlights] looks for in the page. *)
Definition validHit (fullText : jsstring) (h : Hit) : Prop :=
  0 <= start h < end_ h
  /\ end_ h <= len fullText
  /\ text h = slice fullText (start h) (end_ h)
  /\ len (text h) = end_ h - start h
  /\ snippet h <> []
  /\ len (snippet h) <= 501
  /\ infix (text h) fullText
  /\ infix (trim (Highlight.stripEllipsis (snippet h))) fullText.

(** A text with three fee mentions, for the examples. *)
Definition feeText : jsstring :=
  str "A fee applies. Fees are charged monthly; billing is annual.".

(** Four well-formed spans, two of which overlap. *)
Definition sampleHits : list Hit :=
  [mkHit fees 30 37 [] []; mkHit cancellation 0 6 [] [];
   mkHit fees 2 12 [] []; mkHit arbitration 50 61 [] []].

(** The last test of [acceptNode]: the text is not empty and not all
    white space. *)
Definition nonBlank (s : jsstring) : bool := truthy s && truthy (trim s).

(** No mark below [n] is inside another mark; [inside] tells whether [n]
    itself is inside one. *)
Fixpoint noNested (inside : bool) (n : node) : bool :=
  match n with
  | TextNode _ => true
  | Element _ t a cs =>
      negb (inside && isOurMark t a)
      && forallb (noNested (isOurMark t a || inside)) cs
  end.

Definition noNestedMarks (d : document) : bool := forallb (noNested false) d.

(** A page with a head and a body, for the examples. *)
Definition samplePage : document :=
  [Element 1 "HEAD" [] [Element 2 "TITLE" [] [TextNode (str "Terms")]];
   Element 3 "BODY" []
     [Element 4 "P" [] [TextNode (str "We charge Fees and fees. ")];
      Element 5 "SCRIPT" [] [TextNode (str "fees")]]]%string.

(** The needle does not occur in a text, whatever its case, as
    [findAndWrapOnce] looks for it with the lower-casing [lower]. *)
Definition absent (lower : jsstring -> jsstring) (needle s : jsstring) : Prop :=
  Highlight.indexOf (lower s) (lower needle) = None.

(** What a successful wrap below a node amounts to: the text is kept; the
    new mark is one more element and one more mark; marks stay outside
    each other; the node stays a body or not a body, and an element stays
    the same element; the walker yields what it did, with the first text
    that holds the needle replaced by what is left of it on either side of
    the mark. *)
Definition wrapEffect (lower : jsstring -> jsstring) (needle : jsstring) (mark : nat)
    (c : Highlight.chain) (n : node) (r : list node) : Prop :=
  flat_map textContent r = textContent n
  /\ Permutation (flat_map elementsOf r) (mark :: elementsOf n)
  /\ Permutation (flat_map marksOf r) (mark :: marksOf n)
  /\ (noNested (Highlight.isInsideOurMark c) n = true ->
      forallb (noNested (Highlight.isInsideOurMark c)) r = true)
  /\ forallb (fun x => Bool.eqb (Highlight.isBody x) (Highlight.isBody n)) r = true
  /\ (forall i t a cs, n = Element i t a cs -> exists cs', r = [Element i t a cs'])
  /\ exists pre s post before mid after,
       Highlight.textNodesOf c n = pre ++ s :: post
       /\ flat_map (Highlight.textNodesOf c) r
          = pre ++ filter nonBlank [before; after] ++ post
       /\ s = before ++ mid ++ after
       /\ List.length mid = List.length needle
       /\ Forall (absent lower needle) pre
       /\ Highlight.indexOf (lower s) (lower needle) = Some (List.length before).

(** The needle is found in the lower-cased text at an index from which it
    does not fit into the text itself: [range.setStart] or [range.setEnd]
    throws. *)
Definition overruns (lower : jsstring -> jsstring) (needle s : jsstring) : Prop :=
  exists idx,
    Highlight.indexOf (lower s) (lower needle) = Some idx
    /\ (List.length s < idx + List.length needle)%nat.

(** What one call of [findAndWrapOnce] does to the page. *)
Definition wrapOutcome (lower : jsstring -> jsstring) (needle : jsstring)
    (d : document) (o : Highlight.outcome (bool * document)) : Prop :=
  match o with
  | Highlight.Returned (false, d') =>
      d' = d /\ (needle = [] \/ Forall (absent lower needle) (Highlight.textNodes d))
  | Highlight.Returned (true, d') =>
      needle <> []
      /\ pageText d' = pageText d
      /\ Permutation (elements d') (Highlight.freshId d :: elements d)
      /\ Permutation (querySelectorAllMarks d') (Highlight.freshId d :: querySelectorAllMarks d)
      /\ (noNestedMarks d = true -> noNestedMarks d' = true)
      /\ exists pre s post before mid after,
           Highlight.textNodes d = pre ++ s :: post
           /\ Highlight.textNodes d' = pre ++ filter nonBlank [before; after] ++ post
           /\ s = before ++ mid ++ after
           /\ List.length mid = List.length needle
           /\ Forall (absent lower needle) pre
           /\ Highlight.indexOf (lower s) (lower needle) = Some (List.length before)
  | Highlight.Threw =>
      needle <> []
      /\ exists pre s post,
           Highlight.textNodes d = pre ++ s :: post
           /\ Forall (absent lower needle) pre
           /\ overruns lower needle s
  end.

(** Two spans to highlight in [samplePage]: the snippet of the first is in
    the page; that of the second is not, but its keyword is. *)
Definition pageHits : list Hit :=
  [mkHit fees 3 14 (str "Fees") (str "charge Fees");
   mkHit fees 19 23 (str "fees") (str "hidden fees")].

(** [samplePage] with the first [fees] of its paragraph in a mark. *)
Definition wrappedPage : document :=
  [Element 1 "HEAD" [] [Element 2 "TITLE" [] [TextNode (str "Terms")]];
   Element 3 "BODY" []
     [Element 4 "P" []
        [TextNode (str "We charge ");
         Element 6 "MARK" [(MARK_ATTR, MARK_ATTR_VAL)] [TextNode (str "Fees")];
         TextNode (str " and fees. ")];
      Element 5 "SCRIPT" [] [TextNode (str "fees")]]]%string.


(** JavaScript's lower-casing on ASCII text with the capital dotted I
    (U+0130), which becomes two code units: i and the combining dot
    above. *)
Definition lowerDotted (s : jsstring) : jsstring :=
  flat_map (fun c => if (c =? 304)%N then [105; 775]%N else [lowerChar c]) s.

(** A page whose text starts with the capital dotted I. *)
Definition dottedPage : document :=
  [Element 1 "BODY" [] [TextNode (304%N :: str " fee")]]%string.
(* ===================================================================== *)
(** ** Facts about strings *)
(* ===================================================================== *)

Section StringFacts.

Lemma len_nonneg {A : Type} (s : list A) : 0 <= len s.
Proof. unfold len. lia. Qed.

Lemma len_app {A : Type} (s t : list A) : len (s ++ t) = len s + len t.
Proof. unfold len. rewrite length_app. lia. Qed.

Lemma len_nil_iff {A : Type} (s : list A) : len s = 0 <-> s = [].
Proof.
  unfold len. destruct s as [|a s]; simpl; split; intro H;
    try reflexivity; try discriminate; lia.
Qed.

Lemma eqb_eq (a b : jsstring) : JSString.eqb a b = true <-> a = b.
Proof.
  revert b. induction a as [|x a IH]; intros [|y b]; simpl; split; intro H;
    try reflexivity; try discriminate.
  - apply andb_true_iff in H. destruct H as [H1 H2].
    apply N.eqb_eq in H1. apply IH in H2. now subst.
  - injection H as -> ->. rewrite N.eqb_refl. simpl. now apply IH.
Qed.

Lemma eqb_neq (a b : jsstring) : JSString.eqb a b = false <-> a <> b.
Proof.
  split; intro H.
  - intro E. apply eqb_eq in E. congruence.
  - destruct (JSString.eqb a b) eqn:E; [|reflexivity].
    apply eqb_eq in E. contradiction.
Qed.

Lemma slice_length_le (s : jsstring) (a b : Z) :
  0 <= a -> 0 <= b -> len (slice s a b) <= Z.max 0 (b - a).
Proof.
  intros Ha Hb. unfold slice, len.
  destruct (Z.ltb_spec a 0); [lia|]. destruct (Z.ltb_spec b 0); [lia|].
  rewrite length_firstn. lia.
Qed.

Lemma slice_length_le_len (s : jsstring) (a b : Z) : len (slice s a b) <= len s.
Proof.
  unfold slice, len. rewrite length_firstn, length_skipn. lia.
Qed.

(** Inside its bounds a slice holds the characters of the string. *)
Lemma slice_nth (s : jsstring) (a b i : Z) :
  0 <= a <= i -> i < b -> i < len s ->
  nth_error (slice s a b) (Z.to_nat (i - a)) = nth_error s (Z.to_nat i).
Proof.
  intros Ha Hb Hl. unfold slice. unfold len in *.
  destruct (Z.ltb_spec a 0); [lia|]. destruct (Z.ltb_spec b 0); [lia|].
  rewrite nth_error_firstn.
  destruct (Nat.ltb_spec (Z.to_nat (i - a))
    (Z.to_nat (Z.max (Z.min b (Z.of_nat (List.length s)) - Z.min a (Z.of_nat (List.length s))) 0)));
    [|lia].
  rewrite nth_error_skipn. f_equal. lia.
Qed.

Lemma dropWhile_length (p : char -> bool) (s : jsstring) :
  (List.length (dropWhile p s) <= List.length s)%nat.
Proof.
  induction s as [|c s IH]; simpl; [lia|].
  destruct (p c); simpl; lia.
Qed.

Lemma dropWhile_head (p : char -> bool) (s : jsstring) c t :
  dropWhile p s = c :: t -> p c = false.
Proof.
  induction s as [|x s IH]; simpl; [discriminate|].
  destruct (p x) eqn:E; [exact IH|]. intro H. injection H as -> _. exact E.
Qed.

Lemma dropWhile_exists (p : char -> bool) (s : jsstring) :
  existsb (fun c => negb (p c)) s = true -> dropWhile p s <> [].
Proof.
  induction s as [|x s IH]; simpl; [discriminate|].
  destruct (p x) eqn:E; simpl; [exact IH|]. discriminate.
Qed.

Lemma dropWhile_snoc (p : char -> bool) (s : jsstring) c :
  p c = false -> dropWhile p (s ++ [c]) = dropWhile p s ++ [c].
Proof.
  intro Hc. induction s as [|x s IH]; simpl.
  - now rewrite Hc.
  - destruct (p x); [exact IH|reflexivity].
Qed.

Lemma trim_length (s : jsstring) : len (trim s) <= len s.
Proof.
  unfold trim, len. rewrite length_rev.
  pose proof (dropWhile_length isWhiteSpace (rev (dropWhile isWhiteSpace s))).
  pose proof (dropWhile_length isWhiteSpace s).
  rewrite length_rev in *. lia.
Qed.

(** What [trim] leaves starts with the first character that is not white
    space. *)
Lemma trim_cons (s : jsstring) c t :
  dropWhile isWhiteSpace s = c :: t ->
  trim s = c :: rev (dropWhile isWhiteSpace (rev t)).
Proof.
  intro H. unfold trim. rewrite H. simpl.
  rewrite dropWhile_snoc by (eapply dropWhile_head; eauto).
  rewrite rev_app_distr. reflexivity.
Qed.

Lemma trim_head (s : jsstring) c t : trim s = c :: t -> isWhiteSpace c = false.
Proof.
  destruct (dropWhile isWhiteSpace s) as [|x d] eqn:E.
  - unfold trim. rewrite E. discriminate.
  - rewrite (trim_cons _ _ _ E). intro H. injection H as <- _.
    eapply dropWhile_head; eauto.
Qed.

Lemma trim_nonempty (s : jsstring) :
  existsb (fun c => negb (isWhiteSpace c)) s = true -> trim s <> [].
Proof.
  intro H. apply dropWhile_exists in H.
  destruct (dropWhile isWhiteSpace s) as [|x d] eqn:E; [contradiction|].
  rewrite (trim_cons _ _ _ E). discriminate.
Qed.

(** A slice that spans a character that is not white space is not trimmed
    away. *)
Lemma trim_slice_nonempty (s : jsstring) (a b i : Z) c :
  0 <= a <= i -> i < b -> i < len s ->
  nth_error s (Z.to_nat i) = Some c -> isWhiteSpace c = false ->
  trim (slice s a b) <> [].
Proof.
  intros Ha Hb Hl Hn Hc. apply trim_nonempty. apply existsb_exists.
  exists c. split; [|now rewrite Hc].
  apply nth_error_In with (n := Z.to_nat (i - a)).
  rewrite slice_nth by assumption. exact Hn.
Qed.

End StringFacts.

(* ===================================================================== *)
(** ** Facts about the matcher *)
(* ===================================================================== *)

Section MatcherFacts.

Lemma rep_reaches p rs : forall mn mx i pv c k res,
  rep p mn mx i pv rs c k = Some res ->
  reached k (mkPos i pv rs) (minLen (Rep p mn mx)) res.
Proof.
  induction rs as [|ch rs IH]; intros mn mx i pv c k res H.
  - simpl in H.
    assert (Hk : k (mkPos i pv []) c = Some res /\ minLen (Rep p mn mx) = 0%nat).
    { destruct mx as [[|m]|]; destruct mn; simpl in *;
        try discriminate; split; auto. }
    destruct Hk as [Hk Hm]. rewrite Hm.
    exists (mkPos i pv []), c. simpl. repeat split; auto; lia.
  - assert (Hstop : forall n, (match n with
                               | O => k (mkPos i pv (ch :: rs)) c
                               | S _ => None
                               end = Some res) ->
                      n = mn -> reached k (mkPos i pv (ch :: rs)) (minLen (Rep p mn mx)) res).
    { intros n Hn ->. destruct mn; [|discriminate].
      exists (mkPos i pv (ch :: rs)), c. simpl.
      destruct mx; simpl; repeat split; auto; lia. }
    simpl in H. destruct mx as [[|m]|].
    + exists (mkPos i pv (ch :: rs)), c. simpl.
      rewrite Nat.min_0_r. repeat split; auto; lia.
    + destruct (p ch); [|eapply Hstop; eauto].
      destruct (rep p (Nat.pred mn) (option_map Nat.pred (Some (S m))) (S i) (Some ch) rs c k)
        as [r|] eqn:E; [|eapply Hstop; eauto].
      injection H as ->. apply IH in E.
      destruct E as (y & d & Hk & H1 & H2). exists y, d. simpl in *.
      repeat split; auto; lia.
    + destruct (p ch); [|eapply Hstop; eauto].
      destruct (rep p (Nat.pred mn) (option_map Nat.pred None) (S i) (Some ch) rs c k)
        as [r|] eqn:E; [|eapply Hstop; eauto].
      injection H as ->. apply IH in E.
      destruct E as (y & d & Hk & H1 & H2). exists y, d. simpl in *.
      repeat split; auto; lia.
Qed.

(** Every successful run of the matcher enters its continuation at least
    [minLen r] characters further on. *)
Lemma rmatch_reaches r : forall x c k res,
  rmatch r x c k = Some res -> reached k x (minLen r) res.
Proof.
  induction r as [|p|r1 IH1 r2 IH2|r1 IH1 r2 IH2|r1 IH1|p mn mx| | |n r1 IH1];
    intros x c k res H; simpl in H.
  - exists x, c. simpl. repeat split; auto; lia.
  - destruct x as [i pv [|ch rs]]; simpl in *; [discriminate|].
    destruct (p ch); [|discriminate].
    exists (mkPos (S i) (Some ch) rs), c. simpl. repeat split; auto; lia.
  - apply IH1 in H. destruct H as (y & d & Hk & H1 & H2).
    apply IH2 in Hk. destruct Hk as (z & e & Hk & H3 & H4).
    exists z, e. simpl. repeat split; auto; lia.
  - destruct (rmatch r1 x c k) as [r|] eqn:E.
    + injection H as ->. apply IH1 in E. destruct E as (y & d & Hk & H1 & H2).
      exists y, d. simpl. repeat split; auto; lia.
    + apply IH2 in H. destruct H as (y & d & Hk & H1 & H2).
      exists y, d. simpl. repeat split; auto; lia.
  - destruct (rmatch r1 x c _) as [r|] eqn:E.
    + injection H as ->. apply IH1 in E. destruct E as (y & d & Hk & H1 & H2).
      destruct (idx y =? idx x)%nat; [discriminate|].
      exists y, d. simpl. repeat split; auto; lia.
    + exists x, c. simpl. repeat split; auto; lia.
  - apply rep_reaches in H. destruct x; exact H.
  - destruct (xorb _ _); [|discriminate].
    exists x, c. simpl. repeat split; auto; lia.
  - destruct (rest x) eqn:E; [|discriminate].
    exists x, c. simpl. repeat split; auto; lia.
  - apply IH1 in H. destruct H as (y & d & Hk & H1 & H2).
    exists y, (((n, (idx x, idx y)) :: d)). simpl. repeat split; auto.
Qed.

Lemma search_bounds r rs : forall i pv m,
  search r i pv rs = Some m ->
  (i <= index m)%nat /\ (index m + minLen r <= mend m)%nat
  /\ (mend m <= i + List.length rs)%nat.
Proof.
  induction rs as [|ch rs IH]; intros i pv m H; simpl in H.
  - destruct (rmatch r _ _ _) as [[e d]|] eqn:E; [|discriminate].
    injection H as <-. apply rmatch_reaches in E.
    destruct E as (y & d' & Hk & H1 & H2). injection Hk as <- _.
    simpl in *. lia.
  - destruct (rmatch r _ _ _) as [[e d]|] eqn:E.
    + injection H as <-. apply rmatch_reaches in E.
      destruct E as (y & d' & Hk & H1 & H2). injection Hk as <- _.
      simpl in *. lia.
    + apply IH in H. simpl. lia.
Qed.

Lemma exec_bounds r text lastIndex m :
  exec r text lastIndex = Some m -> goodMatch r text lastIndex m.
Proof.
  unfold exec, goodMatch.
  destruct (Nat.ltb_spec (List.length text) lastIndex) as [Hlt|Hge];
    [discriminate|].
  intro H. apply search_bounds in H. rewrite length_skipn in H. lia.
Qed.

(** The loop over the matches of a pattern that cannot match the empty
    string ends: every turn moves [lastIndex] on. *)
Lemma execLoop_ends r text : (0 < minLen r)%nat ->
  forall fuel lastIndex, (List.length text <= lastIndex + fuel)%nat ->
  exists ms, execLoop (S fuel) r text lastIndex = Some ms
             /\ Forall (goodMatch r text lastIndex) ms.
Proof.
  intro Hr. induction fuel as [|fuel IH]; intros li Hf.
  - simpl. destruct (exec r text li) as [m|] eqn:E; [|exists []; split; auto].
    apply exec_bounds in E. unfold goodMatch in E. lia.
  - cbn [execLoop].
    destruct (exec r text li) as [m|] eqn:E; [|exists []; split; auto].
    apply exec_bounds in E. pose proof E as (E1 & E2 & E3).
    destruct (IH (mend m)) as (ms & Hms & Hall); [lia|].
    exists (m :: ms). cbn [execLoop] in Hms. rewrite Hms. split; [reflexivity|].
    constructor; [assumption|].
    eapply Forall_impl; [|exact Hall].
    intros a (A1 & A2 & A3). unfold goodMatch. lia.
Qed.

Lemma execAll_ends r text : (0 < minLen r)%nat ->
  exists ms, execAll r text = Some ms /\ Forall (goodMatch r text 0) ms.
Proof.
  intro Hr. apply execLoop_ends; [assumption|lia].
Qed.

Lemma matched_length r text from m :
  goodMatch r text from m -> len (matched text m) = Z.of_nat (mend m - index m).
Proof.
  intros (H1 & H2 & H3). unfold matched, len.
  rewrite length_firstn, length_skipn. lia.
Qed.

End MatcherFacts.

(* ===================================================================== *)
(** ** The snippet builder *)
(* ===================================================================== *)

Section SnippetFacts.

Lemma findSentence_found bs hit a b :
  findSentence bs hit = Some (a, b) -> In a bs /\ a <= hit < b.
Proof.
  induction bs as [|b1 bs IH]; simpl; [discriminate|].
  destruct bs as [|b2 bs]; [discriminate|].
  destruct (Z.leb_spec b1 hit) as [L1|L1]; destruct (Z.ltb_spec hit b2) as [L2|L2];
    simpl.
  1: intro H; injection H as <- <-; split; [now left|lia].
  all: intro H; apply IH in H; destruct H as [H1 H2]; split; [now right|lia].
Qed.

(** The sentence stage always ends; the sentence it returns is trimmed,
    starts at or before the hit, and is not empty when the hit starts with
    a character that is not white space. *)
Lemma snippetSentence_spec text start end_ window :
  0 <= start < end_ -> end_ <= len text -> 0 <= window ->
  exists sentence sentenceStart,
    snippetSentence text start end_ window = Some (sentence, sentenceStart)
    /\ 0 <= start - Z.max 0 (start - 500) - sentenceStart
    /\ (exists u, sentence = trim u)
    /\ (forall c, nth_error text (Z.to_nat start) = Some c ->
                  isWhiteSpace c = false -> sentence <> []).
Proof.
  intros Hs He Hw. unfold snippetSentence.
  set (searchStart := Z.max 0 (start - 500)).
  set (region := slice text searchStart (Z.min (len text) (end_ + 500))).
  destruct (execAll_ends sentenceEndings region) as (ms & Hms & _);
    [simpl; lia|].
  rewrite Hms. cbn [bind].
  set (boundaries := [0] ++ map (fun m => Z.of_nat (index m) + 1) ms ++ [len region]).
  assert (Hb : Forall (fun b => 0 <= b) boundaries).
  { unfold boundaries. apply Forall_app. split; [constructor; [lia|constructor]|].
    apply Forall_app. split.
    - apply Forall_map. apply Forall_forall. intros; lia.
    - constructor; [apply len_nonneg|constructor]. }
  assert (Hreg : forall c, nth_error text (Z.to_nat start) = Some c ->
            nth_error region (Z.to_nat (start - searchStart)) = Some c
            /\ start - searchStart < len region).
  { intros c Hc.
    assert (E : nth_error region (Z.to_nat (start - searchStart)) = Some c).
    { unfold region. rewrite slice_nth; [exact Hc| | |]; unfold searchStart; lia. }
    split; [exact E|].
    assert (Z.to_nat (start - searchStart) < List.length region)%nat
      by (apply nth_error_Some; congruence).
    unfold len, searchStart in *. lia. }
  set (found := findSentence boundaries (start - searchStart)).
  assert (Hse : exists a b,
            match found with Some se => se | None => (0, len region) end = (a, b)
            /\ 0 <= a <= start - searchStart
            /\ (start - searchStart < len region -> start - searchStart < b)).
  { destruct found as [[a b]|] eqn:E.
    - exists a, b. apply findSentence_found in E. destruct E as [E1 E2].
      rewrite Forall_forall in Hb. apply Hb in E1. repeat split; lia.
    - exists 0, (len region). unfold searchStart. repeat split; lia. }
  destruct Hse as (a & b & -> & Ha & Hb').
  eexists _, a. split; [reflexivity|]. split; [lia|]. split.
  - destruct (_ <? 30); eexists; reflexivity.
  - intros c Hc Hws. destruct (Hreg c Hc) as [Hr1 Hr2].
    destruct (_ <? 30).
    + apply trim_slice_nonempty with (i := start) (c := c); auto; lia.
    + apply trim_slice_nonempty with (i := start - searchStart) (c := c); auto; lia.
Qed.

Lemma snippetLimit_short sentence hitOffset :
  len sentence <= 500 -> snippetLimit sentence hitOffset = sentence.
Proof.
  intro H. unfold snippetLimit. destruct (Z.gtb_spec (len sentence) 500); [lia|].
  reflexivity.
Qed.

(** Past 500 characters the snippet is the trimmed excerpt, with the marker
    in front when the excerpt does not start the sentence. The test for the
    marker at the end compares [excerptEnd] with the length of the excerpt
    itself, which is never larger, so no marker is ever appended. *)
Lemma snippetLimit_long sentence hitOffset :
  500 < len sentence -> 0 <= hitOffset ->
  snippetLimit sentence hitOffset =
    (if hitOffset - 250 >? 0 then ellipsis else [])
    ++ trim (slice sentence (Z.max 0 (hitOffset - 250))
                            (Z.min (len sentence) (hitOffset + 250))).
Proof.
  intros Hl Hh. unfold snippetLimit.
  destruct (Z.gtb_spec (len sentence) 500); [|lia].
  set (excerptStart := Z.max 0 (hitOffset - 250)).
  set (excerptEnd := Z.min (len sentence) (hitOffset + 250)).
  set (t := trim (slice sentence excerptStart excerptEnd)).
  assert (Ht : len t <= Z.max 0 (excerptEnd - excerptStart)).
  { unfold t. etransitivity; [apply trim_length|].
    apply slice_length_le; unfold excerptStart, excerptEnd; lia. }
  destruct (Z.gtb_spec excerptStart 0) as [Hpos|Hzero];
    destruct (Z.gtb_spec (hitOffset - 250) 0) as [Hpos'|Hzero'];
    try (unfold excerptStart in *; lia).
  - destruct (Z.ltb_spec excerptEnd (len (ellipsis ++ t))) as [Hlt|_]; [|reflexivity].
    rewrite len_app in Hlt. change (len ellipsis) with 1 in Hlt.
    clearbody t. unfold excerptStart, excerptEnd in *. lia.
  - destruct (Z.ltb_spec excerptEnd (len t)) as [Hlt|_]; [|reflexivity].
    clearbody t. unfold excerptStart, excerptEnd in *. lia.
Qed.

Lemma snippetLimit_length sentence hitOffset :
  0 <= hitOffset -> len (snippetLimit sentence hitOffset) <= 501.
Proof.
  intro Hh. destruct (Z.le_gt_cases (len sentence) 500) as [Hs|Hs].
  - rewrite snippetLimit_short by assumption. lia.
  - rewrite snippetLimit_long by lia. rewrite len_app.
    pose proof (trim_length (slice sentence (Z.max 0 (hitOffset - 250))
                                   (Z.min (len sentence) (hitOffset + 250)))) as Ht.
    pose proof (slice_length_le sentence (Z.max 0 (hitOffset - 250))
                  (Z.min (len sentence) (hitOffset + 250))) as Hsl.
    assert (len (if hitOffset - 250 >? 0 then ellipsis else []) <= 1)
      by (destruct (_ >? 0); unfold ellipsis, len; simpl; lia).
    lia.
Qed.

Lemma snippetLimit_nonempty u hitOffset :
  0 <= hitOffset -> trim u <> [] -> snippetLimit (trim u) hitOffset <> [].
Proof.
  intros Hh Hne. destruct (Z.le_gt_cases (len (trim u)) 500) as [Hs|Hs].
  - now rewrite snippetLimit_short.
  - rewrite snippetLimit_long by lia.
    destruct (Z.gtb_spec (hitOffset - 250) 0) as [Hpos|Hzero]; [discriminate|].
    simpl. destruct (trim u) as [|c t] eqn:E; [contradiction|].
    apply trim_slice_nonempty with (i := 0) (c := c).
    + lia.
    + lia.
    + lia.
    + reflexivity.
    + eapply trim_head; eauto.
Qed.

End SnippetFacts.

(* ===================================================================== *)
(** ** The overlap resolver *)
(* ===================================================================== *)

Section ResolverFacts.

Lemma insertBy_In {A : Type} (cmp : A -> A -> Z) x y l :
  In x (insertBy cmp y l) <-> x = y \/ In x l.
Proof.
  induction l as [|z l IH]; simpl.
  - intuition congruence.
  - destruct (cmp y z <=? 0); simpl; rewrite ?IH; intuition congruence.
Qed.

Lemma sortBy_In {A : Type} (cmp : A -> A -> Z) x l :
  In x (sortBy cmp l) <-> In x l.
Proof.
  induction l as [|y l IH]; simpl; [tauto|].
  rewrite insertBy_In, IH. intuition congruence.
Qed.

Lemma sortBy_length {A : Type} (cmp : A -> A -> Z) (l : list A) :
  List.length (sortBy cmp l) = List.length l.
Proof.
  induction l as [|y l IH]; simpl; [reflexivity|].
  rewrite <- IH. generalize (sortBy cmp l). intro s.
  induction s as [|z s IHs]; simpl; [reflexivity|].
  destruct (cmp y z <=? 0); simpl; congruence.
Qed.

Lemma insertBy_start_sorted x l :
  StronglySorted startsBefore l ->
  StronglySorted startsBefore (insertBy byStartThenLongest x l).
Proof.
  induction 1 as [|y l Hl IH Hy]; simpl.
  - repeat constructor.
  - destruct (Z.leb_spec (byStartThenLongest x y) 0) as [L|L];
      unfold byStartThenLongest in L;
      destruct (Z.eqb_spec (start x - start y) 0) as [E|E].
    1, 2: constructor; [constructor; assumption|];
      constructor; [unfold startsBefore; lia|];
      eapply Forall_impl; [|exact Hy]; unfold startsBefore; intros; lia.
    all: constructor; [exact IH|];
      apply Forall_forall; intros z Hz; apply insertBy_In in Hz;
      destruct Hz as [->|Hz]; [unfold startsBefore; lia|];
      rewrite Forall_forall in Hy; now apply Hy.
Qed.

Lemma sortBy_start_sorted l :
  StronglySorted startsBefore (sortBy byStartThenLongest l).
Proof.
  induction l as [|x l IH]; simpl; [constructor|].
  now apply insertBy_start_sorted.
Qed.

Lemma dedupeStep_rev out h : rev (dedupeStep out h) = stackStep (rev out) h.
Proof.
  destruct out as [|x l _] using rev_ind; [reflexivity|].
  unfold dedupeStep.
  assert (E : lastOf (l ++ [x]) = Some x).
  { destruct l; simpl; [reflexivity|]. f_equal. apply last_last. }
  rewrite E, rev_app_distr. simpl.
  destruct (negb (overlaps h x)).
  - now rewrite rev_app_distr, rev_app_distr.
  - destruct (_ >? _).
    + now rewrite removelast_last, rev_app_distr.
    + now rewrite rev_app_distr.
Qed.

Lemma fold_dedupeStep_rev l : forall out,
  rev (fold_left dedupeStep l out) = fold_left stackStep l (rev out).
Proof.
  induction l as [|h l IH]; intro out; simpl; [reflexivity|].
  now rewrite IH, dedupeStep_rev.
Qed.

Lemma dedupeOverlaps_rev hits :
  dedupeOverlaps hits
  = rev (fold_left stackStep (sortBy byStartThenLongest hits) []).
Proof.
  unfold dedupeOverlaps. rewrite <- (rev_involutive (fold_left dedupeStep _ _)).
  now rewrite fold_dedupeStep_rev.
Qed.

Lemma stackStep_ok o h :
  stackOk o -> wellFormed h ->
  (forall top, hd_error o = Some top -> startsBefore top h) ->
  stackOk (stackStep o h)
  /\ (forall top, hd_error (stackStep o h) = Some top ->
        top = h \/ hd_error o = Some top).
Proof.
  intros Ho Hh Htop. destruct o as [|last o']; simpl.
  - split; [repeat split; auto; discriminate|]. intros top E. left. congruence.
  - destruct Ho as (Hl & Hp & Ho'). specialize (Htop last eq_refl).
    unfold overlaps, wellFormed, apart, startsBefore in *.
    destruct (Z.leb_spec (start h) (end_ last)) as [L1|L1];
      destruct (Z.geb_spec (end_ h) (start last)) as [L2|L2]; simpl;
      try destruct (Z.gtb_spec (end_ h - start h) (end_ last - start last)) as [L3|L3];
      simpl.
    all: split; [|intros top E; injection E as <-; auto].
    all: repeat split; auto; unfold wellFormed, apart in *.
    all: try (intros p E; injection E as <-; lia).
    all: try (intros p E; specialize (Hp p E); lia).
Qed.

Lemma fold_stackStep_ok l : forall o,
  stackOk o -> Forall wellFormed l -> StronglySorted startsBefore l ->
  (forall top, hd_error o = Some top -> Forall (startsBefore top) l) ->
  stackOk (fold_left stackStep l o).
Proof.
  induction l as [|h l IH]; intros o Ho Hwf Hs Htop; simpl; [assumption|].
  inversion Hwf as [|? ? Hh Hwf']; subst.
  inversion Hs as [|? ? Hs' Hhl]; subst.
  destruct (stackStep_ok o h Ho Hh) as [Hok Hhd].
  { intros top E. specialize (Htop top E). now inversion Htop. }
  apply IH; auto.
  intros top E. destruct (Hhd top E) as [->|E']; [assumption|].
  specialize (Htop top E'). now inversion Htop.
Qed.

Lemma stackOk_below h o : stackOk (h :: o) -> Forall (fun a => apart a h) o.
Proof.
  revert h. induction o as [|p o IH]; intros h Hok; [constructor|].
  destruct Hok as (Hh & Hp & Hok'). specialize (Hp p eq_refl).
  constructor; [assumption|].
  specialize (IH p Hok'). destruct Hok' as (Hwp & _ & _).
  eapply Forall_impl; [|exact IH].
  unfold apart, wellFormed in *. intros; lia.
Qed.

Lemma StronglySorted_snoc {A : Type} (R : A -> A -> Prop) l x :
  StronglySorted R l -> Forall (fun a => R a x) l -> StronglySorted R (l ++ [x]).
Proof.
  induction 1 as [|y l Hl IH Hy]; intro Hx; simpl.
  - repeat constructor.
  - inversion Hx; subst. constructor; [now apply IH|].
    apply Forall_app. split; [assumption|]. now constructor.
Qed.

Lemma stackOk_rev o :
  stackOk o -> Forall wellFormed (rev o) /\ StronglySorted apart (rev o).
Proof.
  induction o as [|h o IH]; intro Hok; simpl; [split; constructor|].
  pose proof (stackOk_below h o Hok) as Hb.
  destruct Hok as (Hh & _ & Hok'). destruct (IH Hok') as [I1 I2]. split.
  - apply Forall_app. split; [assumption|]. now constructor.
  - apply StronglySorted_snoc; [assumption|].
    apply Forall_forall. intros a Ha. rewrite Forall_forall in Hb.
    apply Hb. now apply in_rev.
Qed.

(** On well-formed spans the resolver returns well-formed spans, each
    starting after the one before it has ended. *)
Lemma dedupeOverlaps_apart hits :
  Forall wellFormed hits ->
  Forall wellFormed (dedupeOverlaps hits)
  /\ StronglySorted apart (dedupeOverlaps hits).
Proof.
  intro Hwf. rewrite dedupeOverlaps_rev. apply stackOk_rev.
  apply fold_stackStep_ok.
  - exact I.
  - apply Forall_forall. intros h Hh. apply sortBy_In in Hh.
    rewrite Forall_forall in Hwf. now apply Hwf.
  - apply sortBy_start_sorted.
  - discriminate.
Qed.

Lemma stackStep_In o h x : In x (stackStep o h) -> x = h \/ In x o.
Proof.
  destruct o as [|last o']; simpl; [intuition|].
  destruct (negb _); [simpl; intuition|].
  destruct (_ >? _); simpl; intuition.
Qed.

Lemma fold_stackStep_In l : forall o x,
  In x (fold_left stackStep l o) -> In x l \/ In x o.
Proof.
  induction l as [|h l IH]; intros o x Hx; simpl in *; [now right|].
  apply IH in Hx. destruct Hx as [Hx|Hx]; [auto|].
  apply stackStep_In in Hx. destruct Hx as [->|Hx]; auto.
Qed.

(** The resolver only drops spans: it makes none up. *)
Lemma dedupeOverlaps_In hits x : In x (dedupeOverlaps hits) -> In x hits.
Proof.
  rewrite dedupeOverlaps_rev. intro Hx. apply in_rev in Hx.
  apply fold_stackStep_In in Hx. destruct Hx as [Hx|[]].
  now apply sortBy_In in Hx.
Qed.

Lemma firstn_In {A : Type} (n : nat) (l : list A) x : In x (firstn n l) -> In x l.
Proof.
  intro H. rewrite <- (firstn_skipn n l). apply in_or_app. now left.
Qed.

Lemma firstn_StronglySorted {A : Type} (R : A -> A -> Prop) (n : nat) (l : list A) :
  StronglySorted R l -> StronglySorted R (firstn n l).
Proof.
  revert l. induction n as [|n IH]; intros l Hl; simpl; [constructor|].
  destruct l as [|x l]; [constructor|].
  inversion Hl; subst. constructor; [now apply IH|].
  apply Forall_forall. intros y Hy. apply firstn_In in Hy.
  match goal with H : Forall _ l |- _ => rewrite Forall_forall in H; now apply H end.
Qed.

Lemma dedupeAndCap_In hits x : In x (dedupeAndCap hits) -> In x hits.
Proof.
  unfold dedupeAndCap. destruct (_ >? _); intro H.
  - apply firstn_In in H. now apply dedupeOverlaps_In.
  - now apply dedupeOverlaps_In.
Qed.

Lemma dedupeAndCap_length hits : len (dedupeAndCap hits) <= MAX_HIGHLIGHTS.
Proof.
  unfold dedupeAndCap. destruct (Z.gtb_spec (len (dedupeOverlaps hits)) MAX_HIGHLIGHTS).
  - unfold len. rewrite length_firstn. unfold MAX_HIGHLIGHTS. lia.
  - assumption.
Qed.

Lemma dedupeAndCap_apart hits :
  Forall wellFormed hits ->
  Forall wellFormed (dedupeAndCap hits) /\ StronglySorted apart (dedupeAndCap hits).
Proof.
  intro Hwf. destruct (dedupeOverlaps_apart hits Hwf) as [H1 H2].
  unfold dedupeAndCap. destruct (_ >? _); [|now split]. split.
  - apply Forall_forall. intros x Hx. apply firstn_In in Hx.
    rewrite Forall_forall in H1. now apply H1.
  - now apply firstn_StronglySorted.
Qed.

(** Spans that are apart are in strictly ascending order of [start]. *)
Lemma apart_ascending l :
  Forall wellFormed l -> StronglySorted apart l ->
  StronglySorted (fun a b => start a < start b) l.
Proof.
  intros Hwf Hs. induction Hs as [|x l Hl IH Hx]; [constructor|].
  inversion Hwf; subst. constructor; [now apply IH|].
  eapply Forall_impl; [|exact Hx]. unfold apart, wellFormed in *. intros; lia.
Qed.

End ResolverFacts.

(* ===================================================================== *)
(** ** The scan always returns *)
(* ===================================================================== *)

Section ScanFacts.

Ltac nonempty_pattern := apply Nat.ltb_lt; vm_compute; reflexivity.

Lemma makeSnippet_ends text start end_ window :
  0 <= start < end_ -> end_ <= len text -> 0 <= window ->
  exists s, makeSnippet text start end_ window = Some s.
Proof.
  intros Hs He Hw.
  destruct (snippetSentence_spec text start end_ window Hs He Hw)
    as (sentence & sentenceStart & E & _).
  unfold makeSnippet. rewrite E. cbn [bind]. eexists. reflexivity.
Qed.

Lemma findAll_ends r text : (0 < minLen r)%nat ->
  exists found, findAll r text = Some found /\ Forall (inText text) found.
Proof.
  intro Hr. destruct (execAll_ends r text Hr) as (ms & E & Hms).
  unfold findAll. rewrite E. cbn [bind]. eexists. split; [reflexivity|].
  apply Forall_map. eapply Forall_impl; [|exact Hms].
  intros m Hm. unfold inText. cbn [fst snd].
  rewrite (matched_length _ _ _ _ Hm). destruct Hm as (H1 & H2 & H3).
  unfold len. lia.
Qed.

Lemma countMatches_ends r text : (0 < minLen r)%nat ->
  exists n, countMatches r text = Some n /\ 0 <= n.
Proof.
  intro Hr. destruct (execAll_ends r text Hr) as (ms & E & _).
  unfold countMatches. rewrite E. cbn [bind]. eexists. split; [reflexivity|].
  apply len_nonneg.
Qed.

Lemma pushEach_ends text ty found : forall hits,
  Forall (inText text) found ->
  exists new, pushEach text ty found hits = Some (hits ++ new)
              /\ Forall (fun h => type h = ty /\ wellFormed h) new.
Proof.
  induction found as [|[i m] found IH]; intros hits Hf; cbn [pushEach].
  - exists []. rewrite app_nil_r. split; [reflexivity|constructor].
  - inversion Hf as [|? ? (H1 & H2 & H3) Hf']; subst. cbn [fst snd] in *.
    destruct (makeSnippet_ends text i (i + len m) SNIPPET_WINDOW) as [s Es];
      [lia|lia|unfold SNIPPET_WINDOW; lia|].
    rewrite Es. cbn [bind].
    destruct (IH (hits ++ [mkHit ty i (i + len m) m s]) Hf') as (new & En & Hn).
    exists (mkHit ty i (i + len m) m s :: new).
    rewrite En, <- app_assoc. split; [reflexivity|].
    constructor; [|assumption]. split; [reflexivity|].
    unfold wellFormed. cbn [start end_]. lia.
Qed.

Lemma pushAll_ends text hits ty r : (0 < minLen r)%nat ->
  exists new, pushAll text hits ty r = Some (hits ++ new)
              /\ Forall (fun h => type h = ty /\ wellFormed h) new.
Proof.
  intro Hr. destruct (findAll_ends r text Hr) as (found & E & Hf).
  unfold pushAll. rewrite E. cbn [bind]. now apply pushEach_ends.
Qed.

Lemma collectHits_ends text :
  exists raw, collectHits text = Some raw
              /\ Forall (fun h => detected (type h) /\ wellFormed h) raw.
Proof.
  unfold collectHits.
  destruct (pushAll_ends text [] auto_renewal RE_AUTO_RENEW) as (n1 & E1 & H1);
    [nonempty_pattern|].
  rewrite E1. cbn [bind].
  destruct (pushAll_ends text ([] ++ n1) arbitration RE_ARBITRATION) as (n2 & E2 & H2);
    [nonempty_pattern|].
  rewrite E2. cbn [bind].
  destruct (pushAll_ends text (([] ++ n1) ++ n2) class_action RE_CLASS_ACTION)
    as (n3 & E3 & H3); [nonempty_pattern|].
  rewrite E3. cbn [bind].
  destruct (pushAll_ends text ((([] ++ n1) ++ n2) ++ n3) cancellation RE_CANCELLATION)
    as (n4 & E4 & H4); [nonempty_pattern|].
  rewrite E4. cbn [bind].
  destruct (pushAll_ends text (((([] ++ n1) ++ n2) ++ n3) ++ n4) fees RE_FEES)
    as (n5 & E5 & H5); [nonempty_pattern|].
  rewrite E5. eexists. split; [reflexivity|].
  rewrite !Forall_app. repeat split; try constructor.
  all: match goal with
       | H : Forall _ ?n |- Forall _ ?n =>
           eapply Forall_impl; [|exact H]; intros h [Ht Hw]; split; [|exact Hw];
           unfold detected; rewrite Ht; tauto
       end.
Qed.

Lemma fold_left_mapped {A B C : Type} (f : A -> C -> A) (g : B -> C) (l : list B) :
  forall a, fold_left f (map g l) a = fold_left (fun a x => f a (g x)) l a.
Proof.
  induction l as [|x l IH]; intro a; simpl; [reflexivity|apply IH].
Qed.

Lemma bumpAll_ends topMap r text : (0 < minLen r)%nat ->
  exists ms, execAll r text = Some ms
    /\ bumpAll topMap r text
       = Some (fold_left (fun tm m => bump tm (group text m 1)) ms topMap).
Proof.
  intro Hr. destruct (execAll_ends r text Hr) as (ms & E & _).
  exists ms. unfold bumpAll. rewrite E. split; reflexivity.
Qed.

Lemma buildHeatmap_ends text :
  exists c phrases,
    captured text = Some phrases
    /\ buildHeatmap text =
       Some (mkHeatmap c (levelOf (totalOf c))
         (map (fun e => mkRecipient (fst e) (snd e))
            (firstn 5 (sortBy (fun a b => snd b - snd a)
               (fold_left bump phrases [])))))
    /\ 0 <= third_party c /\ 0 <= share c /\ 0 <= sell c /\ 0 <= affiliate c
    /\ 0 <= partner c /\ 0 <= advertising c /\ 0 <= analytics c.
Proof.
  unfold buildHeatmap, captured.
  destruct (countMatches_ends RE_THIRD_PARTY text) as (c1 & E1 & P1); [nonempty_pattern|].
  destruct (countMatches_ends RE_SHARE text) as (c2 & E2 & P2); [nonempty_pattern|].
  destruct (countMatches_ends RE_SELL text) as (c3 & E3 & P3); [nonempty_pattern|].
  destruct (countMatches_ends RE_AFFILIATE text) as (c4 & E4 & P4); [nonempty_pattern|].
  destruct (countMatches_ends RE_PARTNER text) as (c5 & E5 & P5); [nonempty_pattern|].
  destruct (countMatches_ends RE_ADVERTISING text) as (c6 & E6 & P6); [nonempty_pattern|].
  destruct (countMatches_ends RE_ANALYTICS text) as (c7 & E7 & P7); [nonempty_pattern|].
  rewrite E1, E2, E3, E4, E5, E6, E7. cbn [bind].
  destruct (bumpAll_ends [] RE_SHARE_WITH text) as (a & A1 & A2); [nonempty_pattern|].
  rewrite A1, A2. cbn [bind].
  destruct (bumpAll_ends (fold_left (fun tm m => bump tm (group text m 1)) a [])
              RE_SELL_TO text) as (b & B1 & B2); [nonempty_pattern|].
  rewrite B1, B2. cbn [bind].
  destruct (bumpAll_ends
              (fold_left (fun tm m => bump tm (group text m 1)) b
                 (fold_left (fun tm m => bump tm (group text m 1)) a []))
              RE_OUR_SOMETHING_PARTNERS text) as (c & C1 & C2); [nonempty_pattern|].
  rewrite C1, C2. cbn [bind].
  exists (mkCounts c1 c2 c3 c4 c5 c6 c7). eexists. split; [reflexivity|].
  split; [|cbn [third_party share sell affiliate partner advertising analytics];
            repeat split; assumption].
  do 5 f_equal.
  rewrite fold_left_mapped. now rewrite !fold_left_app.
Qed.

Lemma rulesScan_ends text :
  exists raw hm,
    collectHits text = Some raw
    /\ Forall (fun h => detected (type h) /\ wellFormed h) raw
    /\ buildHeatmap text = Some hm
    /\ rulesScan text =
       Some (mkRulesResult (dedupeAndCap raw)
               (computeSeverity (dedupeAndCap raw) text)
               (selectHero (dedupeAndCap raw) text) hm).
Proof.
  destruct (collectHits_ends text) as (raw & E & Hraw).
  destruct (buildHeatmap_ends text) as (c & ps & _ & Eh & _).
  exists raw. eexists. repeat split; [exact E|exact Hraw|exact Eh|].
  unfold rulesScan. rewrite E, Eh. reflexivity.
Qed.

End ScanFacts.

(* ===================================================================== *)
(** ** The heatmap: levels and recipients *)
(* ===================================================================== *)

Section HeatmapFacts.

Lemma bump_bumpKey topMap phrase :
  bump topMap phrase = fold_left bumpKey (normalized phrase) topMap.
Proof.
  unfold bump, normalized. destruct phrase as [ph|]; [|reflexivity].
  destruct (negb (truthy ph)); [reflexivity|].
  cbv zeta. destruct (negb (truthy _)); reflexivity.
Qed.

Lemma fold_bump_bumpKey phrases : forall topMap,
  fold_left bump phrases topMap = fold_left bumpKey (encountered phrases) topMap.
Proof.
  induction phrases as [|ph phrases IH]; intro topMap; simpl; [reflexivity|].
  unfold encountered in *. rewrite fold_left_app, <- bump_bumpKey. apply IH.
Qed.

Lemma mapSet_keys_old m k v :
  In k (map fst m) -> map fst (mapSet m k v) = map fst m.
Proof.
  induction m as [|[k' v'] m IH]; simpl; [tauto|].
  intros [->|H].
  - assert (E : JSString.eqb k k = true) by now apply eqb_eq.
    now rewrite E.
  - destruct (JSString.eqb k' k); simpl; [reflexivity|]. now rewrite IH.
Qed.

Lemma mapSet_keys_new m k v :
  ~ In k (map fst m) -> map fst (mapSet m k v) = map fst m ++ [k].
Proof.
  induction m as [|[k' v'] m IH]; simpl; [reflexivity|].
  intro H. destruct (JSString.eqb k' k) eqn:E.
  - apply eqb_eq in E. tauto.
  - simpl. rewrite IH by tauto. reflexivity.
Qed.

Lemma jsstring_eq_dec (a b : jsstring) : {a = b} + {a <> b}.
Proof. apply list_eq_dec. apply N.eq_dec. Qed.

Lemma first_occurrence (a : jsstring) ps :
  In a ps -> exists l1 l2, ps = l1 ++ a :: l2 /\ ~ In a l1.
Proof.
  induction ps as [|x ps IH]; [intros []|]. intro H.
  destruct (jsstring_eq_dec x a) as [->|Hne].
  - exists [], ps. split; [reflexivity|]. intros [].
  - destruct H as [H|H]; [contradiction|].
    destruct (IH H) as (l1 & l2 & -> & Hn).
    exists (x :: l1), l2. split; [reflexivity|]. intros [E|E]; auto.
Qed.

Lemma firstBefore_more ps p a b :
  firstBefore ps a b -> firstBefore (ps ++ [p]) a b.
Proof.
  intros (l1 & l2 & -> & H1 & H2 & H3).
  exists l1, (l2 ++ [p]). rewrite <- app_assoc. repeat split; assumption.
Qed.

(** The keys of the map are the phrases met so far, each once, in the
    order they were first met. *)
Lemma bumpKey_order ps :
  let topMap := fold_left bumpKey ps [] in
  (forall k, In k (map fst topMap) <-> In k ps)
  /\ StronglySorted (firstBefore ps) (map fst topMap).
Proof.
  induction ps as [|p ps [IH1 IH2]] using rev_ind; simpl.
  - split; [tauto|constructor].
  - rewrite fold_left_app. simpl. unfold bumpKey at 1 3.
    set (topMap := fold_left bumpKey ps []) in *.
    destruct (in_dec jsstring_eq_dec p (map fst topMap)) as [Hin|Hnin].
    + rewrite mapSet_keys_old by assumption. split.
      * intro k. rewrite IH1, in_app_iff. simpl.
        apply IH1 in Hin. intuition (subst; auto).
      * clear - IH2. induction IH2 as [|x l Hl IH Hx]; constructor; auto.
        eapply Forall_impl; [|exact Hx]. intros b. apply firstBefore_more.
    + rewrite mapSet_keys_new by assumption. split.
      * intro k. rewrite !in_app_iff, IH1. simpl. intuition.
      * apply StronglySorted_snoc.
        -- clear - IH2. induction IH2 as [|x l Hl IH Hx]; constructor; auto.
           eapply Forall_impl; [|exact Hx]. intros b. apply firstBefore_more.
        -- apply Forall_forall. intros a Ha.
           assert (Hne : a <> p) by (intros ->; contradiction).
           apply IH1 in Ha. destruct (first_occurrence a ps Ha) as (l1 & l2 & E & Hn).
           exists l1, (l2 ++ [p]). rewrite E, <- app_assoc.
           repeat split; auto.
           intro Hp. apply Hnin. apply IH1. rewrite E. apply in_or_app. now left.
Qed.

Lemma StronglySorted_map {A B : Type} (R : B -> B -> Prop) (f : A -> B) l :
  StronglySorted R (map f l) <-> StronglySorted (fun a b => R (f a) (f b)) l.
Proof.
  induction l as [|x l IH]; simpl; split; intro H; try constructor;
    inversion H; subst; try (now apply IH).
  - now apply Forall_map.
  - now apply Forall_map.
Qed.

Lemma insertBy_stable {A : Type} (Q : A -> A -> Prop) (x : A * Z) s :
  StronglySorted (rankedBy Q) s -> Forall (fun z => Q (fst x) (fst z)) s ->
  StronglySorted (rankedBy Q) (insertBy (fun a b => snd b - snd a) x s).
Proof.
  induction 1 as [|y s Hs IH Hy]; intro Hx; simpl.
  - repeat constructor.
  - inversion Hx as [|? ? Hxy Hxs]; subst.
    destruct (Z.leb_spec (snd y - snd x) 0) as [L|L].
    + constructor; [now constructor|].
      constructor; [split; [lia|intros _; assumption]|].
      rewrite Forall_forall in *. intros z Hz.
      destruct (Hy z Hz) as [Hyz _]. split; [lia|]. intros _. now apply Hxs.
    + constructor; [now apply IH|].
      apply Forall_forall. intros z Hz. apply insertBy_In in Hz.
      destruct Hz as [->|Hz]; [split; lia|].
      rewrite Forall_forall in Hy. now apply Hy.
Qed.

Lemma sortBy_stable {A : Type} (Q : A -> A -> Prop) (l : list (A * Z)) :
  StronglySorted (fun a b => Q (fst a) (fst b)) l ->
  StronglySorted (rankedBy Q) (sortBy (fun a b => snd b - snd a) l).
Proof.
  induction 1 as [|x l Hl IH Hx]; simpl; [constructor|].
  apply insertBy_stable; [assumption|].
  apply Forall_forall. intros z Hz. apply sortBy_In in Hz.
  rewrite Forall_forall in Hx. now apply Hx.
Qed.

Lemma topRecipients_order phrases :
  let top := map (fun e => mkRecipient (fst e) (snd e))
               (firstn 5 (sortBy (fun a b => snd b - snd a)
                  (fold_left bump phrases []))) in
  len top <= 5 /\ StronglySorted (recipientOrder (encountered phrases)) top.
Proof.
  cbv zeta. split.
  - unfold len. rewrite length_map, length_firstn. lia.
  - apply StronglySorted_map. apply firstn_StronglySorted.
    apply (sortBy_stable (firstBefore (encountered phrases))).
    apply StronglySorted_map. rewrite fold_bump_bumpKey.
    apply (bumpKey_order (encountered phrases)).
Qed.

Lemma levelOf_spec total :
  (levelOf total = High <-> 15 <= total)
  /\ (levelOf total = Medium <-> 5 <= total < 15)
  /\ (levelOf total = Low <-> total < 5).
Proof.
  unfold levelOf.
  destruct (Z.geb_spec total 15); destruct (Z.geb_spec total 5);
    repeat split; intros; try discriminate; try lia; try reflexivity.
Qed.

End HeatmapFacts.

(* ===================================================================== *)
(** ** Clearing the highlights *)
(* ===================================================================== *)

Section ClearFacts.

Lemma node_induction (P : node -> Prop) :
  (forall s, P (TextNode s)) ->
  (forall i t a cs, Forall P cs -> P (Element i t a cs)) ->
  forall n, P n.
Proof.
  intros Ht He. fix IH 1. intros [s|i t a cs]; [apply Ht|].
  apply He. induction cs as [|c cs IHcs]; constructor; [apply IH|exact IHcs].
Qed.

Local Abbreviation without m l := (remove Nat.eq_dec m l).

Lemma NoDup_app_disjoint {A : Type} (l1 l2 : list A) :
  NoDup (l1 ++ l2) -> forall a, In a l1 -> ~ In a l2.
Proof.
  induction l1 as [|x l1 IH]; simpl; intros H a; [tauto|].
  inversion H; subst. intros [->|Ha] Hb.
  - match goal with Hn : ~ In _ _ |- _ => apply Hn end. apply in_or_app. now right.
  - now apply (IH ltac:(assumption) a).
Qed.

Lemma NoDup_without (m : nat) l : NoDup l -> NoDup (without m l).
Proof.
  induction 1 as [|x l Hx Hl IH]; simpl; [constructor|].
  destruct (Nat.eq_dec m x); [assumption|].
  constructor; [|assumption]. intro H. apply in_remove in H. tauto.
Qed.

Lemma marksOf_elementsOf n : forall x, In x (marksOf n) -> In x (elementsOf n).
Proof.
  induction n as [s|i t a cs IH] using node_induction; intros x; simpl; [tauto|].
  rewrite in_app_iff. intros [H|H].
  - destruct (isOurMark t a); [|contradiction]. destruct H as [->|[]]. now left.
  - right. rewrite in_flat_map in *. destruct H as (c & Hc & Hx).
    exists c. split; [assumption|]. rewrite Forall_forall in IH. now apply IH.
Qed.

Lemma marks_elements d x : In x (querySelectorAllMarks d) -> In x (elements d).
Proof.
  unfold querySelectorAllMarks, elements. rewrite !in_flat_map.
  intros (c & Hc & Hx). exists c. split; [assumption|]. now apply marksOf_elementsOf.
Qed.

Lemma marks_NoDup_list cs :
  Forall (fun n => NoDup (elementsOf n) -> NoDup (marksOf n)) cs ->
  NoDup (flat_map elementsOf cs) -> NoDup (flat_map marksOf cs).
Proof.
  induction 1 as [|c cs Hc Hcs IH]; simpl; intro Hn; [constructor|].
  apply NoDup_app.
  - apply Hc. eapply NoDup_app_remove_r; eauto.
  - apply IH. eapply NoDup_app_remove_l; eauto.
  - intros x Hx Hy. apply marksOf_elementsOf in Hx. apply marks_elements in Hy.
    exact (NoDup_app_disjoint _ _ Hn x Hx Hy).
Qed.

Lemma marksOf_NoDup n : NoDup (elementsOf n) -> NoDup (marksOf n).
Proof.
  induction n as [s|i t a cs IH] using node_induction; simpl; intro Hn;
    [constructor|].
  inversion Hn as [|? ? Hi Hcs]; subst.
  pose proof (marks_NoDup_list cs IH Hcs) as Hm.
  destruct (isOurMark t a); simpl; [|assumption].
  constructor; [|assumption]. intro Hx. apply Hi. now apply marks_elements.
Qed.

Lemma marks_NoDup d : NoDup (elements d) -> NoDup (querySelectorAllMarks d).
Proof.
  apply marks_NoDup_list. apply Forall_forall. intros n _. apply marksOf_NoDup.
Qed.

Lemma unwrap_list mark cs :
  Forall (unwrapped mark) cs -> NoDup (flat_map elementsOf cs) ->
  flat_map elementsOf (flat_map (unwrap mark) cs) = without mark (flat_map elementsOf cs)
  /\ flat_map marksOf (flat_map (unwrap mark) cs) = without mark (flat_map marksOf cs).
Proof.
  induction 1 as [|c cs Hc Hcs IH]; simpl; intro Hn; [split; reflexivity|].
  rewrite !flat_map_app, !remove_app.
  destruct (Hc (NoDup_app_remove_r _ _ Hn)) as [-> ->].
  destruct (IH (NoDup_app_remove_l _ _ Hn)) as [-> ->].
  split; reflexivity.
Qed.

Lemma unwrap_node mark n : unwrapped mark n.
Proof.
  induction n as [s|i t a cs IH] using node_induction; unfold unwrapped; simpl.
  - intros _. split; reflexivity.
  - intro Hn. inversion Hn as [|? ? Hi Hcs]; subst.
    destruct (Nat.eqb_spec i mark) as [->|Hne].
    + destruct (Nat.eq_dec mark mark) as [_|]; [|contradiction].
      rewrite remove_app.
      assert (Hm : ~ In mark (flat_map marksOf cs))
        by (intro Hx; apply Hi; now apply marks_elements).
      rewrite (notin_remove _ _ _ Hi), (notin_remove _ _ _ Hm).
      split; [reflexivity|].
      destruct (isOurMark t a); simpl; [|reflexivity].
      destruct (Nat.eq_dec mark mark); [reflexivity|contradiction].
    + destruct (Nat.eq_dec mark i) as [E|_]; [congruence|].
      destruct (unwrap_list mark cs IH Hcs) as [E1 E2].
      simpl. rewrite !app_nil_r, E1, E2, remove_app. split; [reflexivity|].
      f_equal. destruct (isOurMark t a); simpl; [|reflexivity].
      destruct (Nat.eq_dec mark i); [congruence|reflexivity].
Qed.

Lemma unwrap_page mark d :
  NoDup (elements d) ->
  elements (flat_map (unwrap mark) d) = without mark (elements d)
  /\ querySelectorAllMarks (flat_map (unwrap mark) d)
     = without mark (querySelectorAllMarks d).
Proof.
  apply unwrap_list. apply Forall_forall. intros n _. apply unwrap_node.
Qed.

Lemma unwrap_text mark n : flat_map textContent (unwrap mark n) = textContent n.
Proof.
  induction n as [s|i t a cs IH] using node_induction; simpl.
  - apply app_nil_r.
  - destruct (i =? mark)%nat; [reflexivity|]. simpl. rewrite app_nil_r.
    induction IH as [|c cs Hc Hcs IHcs]; simpl; [reflexivity|].
    now rewrite flat_map_app, Hc, IHcs.
Qed.

Lemma unwrap_pageText mark d : pageText (flat_map (unwrap mark) d) = pageText d.
Proof.
  unfold pageText. induction d as [|n d IH]; simpl; [reflexivity|].
  now rewrite flat_map_app, unwrap_text, IH.
Qed.

Lemma hasParent_In d mark : In mark (elements d) -> hasParent d mark = true.
Proof.
  intro H. unfold hasParent. apply existsb_exists. exists mark.
  split; [assumption|apply Nat.eqb_refl].
Qed.

Lemma withoutAll_In ms : forall l x, In x (withoutAll ms l) -> In x l /\ ~ In x ms.
Proof.
  induction ms as [|m ms IH]; intros l x; simpl; [tauto|].
  intro H. apply IH in H. destruct H as [H1 H2]. apply in_remove in H1.
  split; [tauto|]. intros [->|Hx]; tauto.
Qed.

Lemma withoutAll_self l : withoutAll l l = [].
Proof.
  destruct (withoutAll l l) as [|x r] eqn:E; [reflexivity|].
  assert (H : In x (withoutAll l l)) by (rewrite E; now left).
  apply withoutAll_In in H. tauto.
Qed.

(** The loop of [clearHighlights] over marks that are all in the page:
    every one is unwrapped and counted. *)
Lemma clear_loop ms : forall d removed,
  NoDup (elements d) -> NoDup ms -> (forall m, In m ms -> In m (elements d)) ->
  exists d',
    fold_left clearStep ms (d, removed) = (d', removed + len ms)
    /\ querySelectorAllMarks d' = withoutAll ms (querySelectorAllMarks d)
    /\ pageText d' = pageText d.
Proof.
  induction ms as [|m ms IH]; intros d removed Hd Hms Hin; simpl.
  - exists d. unfold len. simpl. rewrite Z.add_0_r. repeat split.
  - inversion Hms as [|? ? Hm Hms']; subst.
    rewrite (hasParent_In d m) by (apply Hin; now left). simpl.
    destruct (unwrap_page m d Hd) as [E1 E2].
    destruct (IH (flat_map (unwrap m) d) (removed + 1)) as (d' & F1 & F2 & F3).
    + rewrite E1. now apply NoDup_without.
    + assumption.
    + intros x Hx. rewrite E1. apply in_in_remove.
      * intros ->. contradiction.
      * apply Hin. now right.
    + exists d'. unfold document in *. rewrite F1, F2, F3, E2, unwrap_pageText.
      repeat split. f_equal. unfold len. simpl List.length. lia.
Qed.

End ClearFacts.

(* ===================================================================== *)
(** ** Severity *)
(* ===================================================================== *)

Section SeverityFacts.

Lemma scoreToSeverity_monotone s s' :
  s <= s' -> severityRank (scoreToSeverity s) <= severityRank (scoreToSeverity s').
Proof.
  intro H. unfold scoreToSeverity.
  destruct (Z.geb_spec s 4); destruct (Z.geb_spec s' 4);
    destruct (Z.geb_spec s 2); destruct (Z.geb_spec s' 2); simpl; lia.
Qed.

Lemma has_insert l1 h l2 t :
  has (l1 ++ h :: l2) t = RiskType_eqb (type h) t || has (l1 ++ l2) t.
Proof.
  unfold has. rewrite !existsb_app. simpl.
  destruct (existsb _ l1); destruct (RiskType_eqb (type h) t); reflexivity.
Qed.

Lemma find_insert (f : Hit -> bool) l1 h l2 :
  f h = false -> find f (l1 ++ h :: l2) = find f (l1 ++ l2).
Proof.
  intro Hf. induction l1 as [|x l1 IH]; simpl.
  - now rewrite Hf.
  - destruct (f x); [reflexivity|exact IH].
Qed.

End SeverityFacts.

(* ===================================================================== *)
(** ** The properties of the specification *)
(* ===================================================================== *)

(** C1. For every text the scan returns, and the spans it returns (the
    resolver's output, capped) are in ascending order of [start], no two of
    them overlap (a span ends at or before the start of every later one,
    and the resolver's own overlap test is false for them), and there are at
    most [MAX_HIGHLIGHTS] = 50 of them. *)
Theorem rulesScan_spans_sorted_disjoint_capped (text : jsstring) :
  exists r,
    rulesScan text = Some r
    /\ StronglySorted (fun a b => start a < start b) (hits r)
    /\ StronglySorted (fun a b => end_ a <= start b /\ overlaps b a = false) (hits r)
    /\ len (hits r) <= MAX_HIGHLIGHTS
    /\ MAX_HIGHLIGHTS = 50.
Proof.
  destruct (rulesScan_ends text) as (raw & hm & _ & Hraw & _ & E).
  eexists. split; [exact E|]. cbn [hits].
  assert (Hwf : Forall wellFormed raw)
    by (eapply Forall_impl; [|exact Hraw]; intros h [_ H]; exact H).
  destruct (dedupeAndCap_apart raw Hwf) as [H1 H2].
  split; [now apply apart_ascending|].
  split; [|split; [apply dedupeAndCap_length|reflexivity]].
  clear - H2. induction H2 as [|x l Hl IH Hx]; constructor; [assumption|].
  eapply Forall_impl; [|exact Hx]. unfold apart, overlaps. intros b Hb.
  split; [lia|]. destruct (Z.leb_spec (start b) (end_ x)); [lia|reflexivity].
Qed.

(** C2, as the specification states it, fails: on the scenario text the
    scan finds no cancellation span (the cancellation pattern wants a word
    boundary right after [cancel] or [cancellation], and [cancelled] has
    none there), so the severity is not High and the hero line is not the
    cancellation warning. *)
Lemma scenario_has_no_cancellation_span :
  exists r,
    rulesScan scenarioText = Some r
    /\ has (hits r) cancellation = false
    /\ severity r <> High
    /\ hero r <> Some heroCancellation.
Proof.
  eexists. split; [vm_compute; reflexivity|].
  cbn [hits severity hero]. split; [reflexivity|].
  split; intro H; vm_compute in H; discriminate H.
Qed.

(** C2, amended. On the scenario text the scan yields exactly one span, of
    type [auto_renewal], for "automatically renews" at [15, 35), with the
    whole sentence as its snippet; the cancellation pattern matches
    nothing; the score is 3 (auto-renewal with a price and a cadence
    nearby), so the severity is Medium; the hero line is the auto-renewal
    line with the price and cadence found, "$9.99/month". *)
Theorem scenario_scan_result :
  rulesScan scenarioText =
    Some {| hits := [mkHit auto_renewal 15 35 (str "automatically renews") scenarioText];
            severity := Medium;
            hero := Some (heroAutoPriced (str "$9.99/month"));
            heatmap := mkHeatmap noCounts Low [] |}
  /\ findAll RE_CANCELLATION scenarioText = Some []
  /\ findPriceAndCadenceNearby scenarioText 15 35 160
     = mkNearby (Some (str "$9.99")) (Some (str "month")).
Proof.
  repeat split; vm_compute; reflexivity.
Qed.

(** C3. The resolver applied to the two overlapping spans [10, 20) of type
    [fees] and [15, 25) of type [cancellation], both of length 10 and given
    in either order, returns exactly the span [10, 20): it sorts first, and
    the other one is not strictly longer. *)
Theorem dedupeOverlaps_tie_keeps_first (t1 s1 t2 s2 : jsstring) :
  let a := mkHit fees 10 20 t1 s1 in
  let b := mkHit cancellation 15 25 t2 s2 in
  overlaps b a = true
  /\ end_ a - start a = end_ b - start b
  /\ sortBy byStartThenLongest [b; a] = [a; b]
  /\ dedupeOverlaps [a; b] = [a]
  /\ dedupeOverlaps [b; a] = [a]
  /\ dedupeAndCap [a; b] = [a]
  /\ dedupeAndCap [b; a] = [a].
Proof.
  cbv zeta. repeat split; reflexivity.
Qed.


(** What the source does at the end of a cut sentence: 600 letters with
    the hit at their start are cut to the first 250, and no marker follows
    them. *)
Lemma makeSnippet_cut_at_the_end :
  makeSnippet (repeat 97%N 600) 0 1 SNIPPET_WINDOW = Some (repeat 97%N 250).
Proof. vm_compute. reflexivity. Qed.



(** C5. The scan of the empty text returns (it does not fail): no spans,
    severity Low, no hero line, every bucket of the heatmap at 0, level
    Low, no recipients. *)
Theorem rulesScan_empty_text :
  rulesScan [] =
    Some {| hits := [];
            severity := Low;
            hero := None;
            heatmap := {| counts := mkCounts 0 0 0 0 0 0 0;
                          level := Low;
                          topRecipients := [] |} |}.
Proof. vm_compute. reflexivity. Qed.

(** C6, as the specification states it, fails: the resolver does not
    reject a span whose end is not after its start. Given alone it is
    returned; given with others it can stay in the output next to a span
    that it overlaps. *)
Lemma dedupeOverlaps_keeps_malformed_span :
  let bad := mkHit fees 20 5 [] [] in
  end_ bad <= start bad
  /\ In bad (dedupeOverlaps [bad])
  /\ dedupeOverlaps malformedHits = malformedHits
  /\ ~ StronglySorted (fun a b => end_ a <= start b) (dedupeOverlaps malformedHits).
Proof.
  cbv zeta. split; [simpl; lia|]. split; [now left|]. split; [reflexivity|].
  intro H. change (dedupeOverlaps malformedHits) with malformedHits in H.
  unfold malformedHits in H.
  apply StronglySorted_inv in H. destruct H as [H _].
  apply StronglySorted_inv in H. destruct H as [_ H].
  apply Forall_inv in H. simpl in H. lia.
Qed.

(** C6, amended. The resolver checks nothing about its input: a single
    span is returned whatever its ends are. The spans it returns are among
    those it was given, and when every span it is given ends after it
    starts, the spans it returns do too and no two of them overlap. *)
Theorem dedupeOverlaps_on_wellformed (hits : list Hit) :
  (forall h, dedupeOverlaps [h] = [h])
  /\ (forall h, In h (dedupeOverlaps hits) -> In h hits)
  /\ (Forall (fun h => start h < end_ h) hits ->
      Forall (fun h => start h < end_ h) (dedupeOverlaps hits)
      /\ StronglySorted (fun a b => end_ a <= start b /\ overlaps b a = false)
           (dedupeOverlaps hits)).
Proof.
  split; [reflexivity|]. split; [intro h; apply dedupeOverlaps_In|].
  intro Hwf. destruct (dedupeOverlaps_apart hits Hwf) as [H1 H2].
  split; [exact H1|].
  clear - H2. induction H2 as [|x l Hl IH Hx]; constructor; [assumption|].
  eapply Forall_impl; [|exact Hx]. unfold apart, overlaps. intros b Hb.
  split; [lia|]. destruct (Z.leb_spec (start b) (end_ x)); [lia|reflexivity].
Qed.

Lemma dedupeOverlaps_on_wellformed_witness :
  Forall (fun h => start h < end_ h) overlappingHits
  /\ Forall (fun h => start h < end_ h) (dedupeOverlaps overlappingHits)
  /\ StronglySorted (fun a b => end_ a <= start b /\ overlaps b a = false)
       (dedupeOverlaps overlappingHits).
Proof.
  assert (H : Forall (fun h => start h < end_ h) overlappingHits)
    by (repeat constructor).
  split; [exact H|].
  exact (proj2 (proj2 (dedupeOverlaps_on_wellformed overlappingHits)) H).
Defined.

(** C7. For every text the heatmap is built, its level is High exactly
    when the seven counts add up to 15 or more, Medium exactly when they add
    up to at least 5 and less than 15, and Low otherwise; [topRecipients]
    has at most 5 entries, in descending order of count, and of two entries
    with the same count the one whose phrase was met first comes first. *)
Theorem buildHeatmap_level_and_recipients (text : jsstring) :
  exists hm phrases,
    buildHeatmap text = Some hm
    /\ captured text = Some phrases
    /\ (level hm = High <-> 15 <= totalOf (counts hm))
    /\ (level hm = Medium <-> 5 <= totalOf (counts hm) < 15)
    /\ (level hm = Low <-> totalOf (counts hm) < 5)
    /\ len (topRecipients hm) <= 5
    /\ StronglySorted
         (fun a b => count b <= count a
                     /\ (count a = count b ->
                         firstBefore (encountered phrases) (phrase a) (phrase b)))
         (topRecipients hm).
Proof.
  destruct (buildHeatmap_ends text) as (c & phrases & Ec & Eh & _).
  eexists. exists phrases. split; [exact Eh|]. split; [exact Ec|].
  cbn [level counts topRecipients].
  destruct (levelOf_spec (totalOf c)) as (L1 & L2 & L3).
  destruct (topRecipients_order phrases) as [T1 T2].
  repeat split; try apply L1; try apply L2; try apply L3; try assumption.
  all: try (intro H; apply L2 in H; lia).
Qed.

(** C8. Putting a span of type [arbitration], anywhere, into a list of
    spans that has none never lowers the severity that [computeSeverity]
    gives, whatever the text. *)
Theorem computeSeverity_arbitration_monotone
    (fullText : jsstring) (before after : list Hit) (h : Hit) :
  type h = arbitration ->
  has (before ++ after) arbitration = false ->
  severityRank (computeSeverity (before ++ after) fullText)
  <= severityRank (computeSeverity (before ++ h :: after) fullText).
Proof.
  intros Ht Hnone. unfold computeSeverity.
  rewrite (find_insert _ before h after) by (now rewrite Ht).
  rewrite !has_insert, Ht, Hnone. cbn [RiskType_eqb orb].
  destruct (find _ (before ++ after)) as [auto|];
    destruct (has (before ++ after) class_action);
    destruct (has (before ++ after) cancellation);
    destruct (has (before ++ after) fees);
    apply scoreToSeverity_monotone; lia.
Qed.

Lemma computeSeverity_arbitration_monotone_witness :
  let cancel := mkHit cancellation 4 10 (str "cancel") [] in
  let arb := mkHit arbitration 20 31 (str "arbitration") [] in
  type arb = arbitration
  /\ has ([cancel] ++ []) arbitration = false
  /\ severityRank (computeSeverity ([cancel] ++ []) [])
     <= severityRank (computeSeverity ([cancel] ++ arb :: []) []).
Proof.
  cbv zeta. split; [reflexivity|]. split; [reflexivity|].
  apply computeSeverity_arbitration_monotone; reflexivity.
Defined.

(** C9. Clearing a page that has no mark returns 0 and leaves the page as
    it is. On a page whose elements are distinct objects, clearing unwraps
    every mark: it returns the number of marks there were, leaves no mark
    and keeps the text of the page; so clearing again right after changes
    nothing and returns 0. *)
Theorem clearHighlights_idempotent (d : document) :
  (querySelectorAllMarks d = [] -> clearHighlights d = (d, 0))
  /\ (NoDup (elements d) ->
      exists d',
        clearHighlights d = (d', len (querySelectorAllMarks d))
        /\ querySelectorAllMarks d' = []
        /\ pageText d' = pageText d
        /\ clearHighlights d' = (d', 0)).
Proof.
  split.
  - intro E. unfold clearHighlights. rewrite E. reflexivity.
  - intro Hd.
    destruct (clear_loop (querySelectorAllMarks d) d 0 Hd (marks_NoDup d Hd)
                (marks_elements d)) as (d' & E1 & E2 & E3).
    exists d'. rewrite withoutAll_self in E2.
    split; [exact E1|]. split; [exact E2|]. split; [exact E3|].
    unfold clearHighlights. rewrite E2. reflexivity.
Qed.

Lemma clearHighlights_idempotent_witness :
  NoDup (elements markedPage)
  /\ exists d',
       clearHighlights markedPage = (d', len (querySelectorAllMarks markedPage))
       /\ querySelectorAllMarks d' = []
       /\ pageText d' = pageText markedPage
       /\ clearHighlights d' = (d', 0).
Proof.
  assert (H : NoDup (elements markedPage)).
  { repeat constructor; simpl; intuition discriminate. }
  split; [exact H|]. exact (proj2 (clearHighlights_idempotent markedPage) H).
Defined.

(** C10. For every text, no span of the scan result has type
    [data_sharing]: every span comes from one of the five detectors that the
    span finder runs. *)
Theorem rulesScan_never_data_sharing (text : jsstring) :
  exists r,
    rulesScan text = Some r
    /\ Forall (fun h => type h <> data_sharing
                        /\ (type h = auto_renewal \/ type h = arbitration
                            \/ type h = class_action \/ type h = cancellation
                            \/ type h = fees))
         (hits r).
Proof.
  destruct (rulesScan_ends text) as (raw & hm & _ & Hraw & _ & E).
  eexists. split; [exact E|]. cbn [hits].
  apply Forall_forall. intros h Hh. apply dedupeAndCap_In in Hh.
  rewrite Forall_forall in Hraw. destruct (Hraw h Hh) as [Hd _].
  split; [|exact Hd].
  unfold detected in Hd. intuition congruence.
Qed.

(* ===================================================================== *)
(** ** Further properties of the matcher *)
(* ===================================================================== *)

Section MatcherHeads.

Lemma still_stays r : still r = true ->
  forall x c k res, rmatch r x c k = Some res -> exists d, k x d = Some res.
Proof.
  induction r as [|p|r1 IH1 r2 IH2|r1 IH1 r2 IH2|r1 IH1|p mn mx| | |n r1 IH1];
    simpl; intros Hs x c k res H; try discriminate.
  - eauto.
  - apply andb_true_iff in Hs. destruct Hs as [S1 S2].
    destruct (IH1 S1 _ _ _ _ H) as [d Hd]. exact (IH2 S2 _ _ _ _ Hd).
  - destruct (xorb _ _); [eauto|discriminate].
  - destruct (rest x); [eauto|discriminate].
  - destruct (IH1 Hs _ _ _ _ H) as [d Hd]. eauto.
Qed.

(** A pattern headed by [P] only matches where the next character is one
    that [P] accepts. *)
Lemma headed_rmatch P r : headed P r ->
  forall x c k res, rmatch r x c k = Some res ->
  exists ch rs, rest x = ch :: rs /\ P ch = true.
Proof.
  induction r as [|p|r1 IH1 r2 IH2|r1 IH1 r2 IH2|r1 IH1|p mn mx| | |n r1 IH1];
    simpl; intros Hh x c k res H; try contradiction.
  - destruct (rest x) as [|ch rs]; [discriminate|].
    destruct (p ch) eqn:E; [|discriminate]. eauto.
  - destruct Hh as [Hh|[Hs Hh]].
    + exact (IH1 Hh _ _ _ _ H).
    + destruct (still_stays r1 Hs _ _ _ _ H) as [d Hd]. exact (IH2 Hh _ _ _ _ Hd).
  - destruct Hh as [H1 H2]. destruct (rmatch r1 x c k) eqn:E.
    + exact (IH1 H1 _ _ _ _ E).
    + exact (IH2 H2 _ _ _ _ H).
  - destruct Hh as [Hm Hp].
    destruct (rest x) as [|ch rs] eqn:Er.
    + exfalso. simpl in H. destruct mx as [[|m]|]; destruct mn; simpl in *;
        try lia; try discriminate.
    + exists ch, rs. split; [reflexivity|]. apply Hp.
      simpl in H. destruct mx as [[|m]|]; destruct mn; simpl in Hm; try lia;
        destruct (p ch); try reflexivity; discriminate.
  - exact (IH1 Hh _ _ _ _ H).
Qed.

Lemma headed_search P r rs : headed P r -> forall i pv m,
  search r i pv rs = Some m ->
  exists ch, nth_error rs (index m - i) = Some ch /\ P ch = true.
Proof.
  intro Hh. induction rs as [|c0 rs IH]; intros i pv m H; simpl in H.
  - destruct (rmatch r _ _ _) as [[e d]|] eqn:E; [|discriminate].
    destruct (headed_rmatch P r Hh _ _ _ _ E) as (ch & rs' & Er & _).
    discriminate.
  - destruct (rmatch r _ _ _) as [[e d]|] eqn:E.
    + injection H as <-. simpl.
      destruct (headed_rmatch P r Hh _ _ _ _ E) as (ch & rs' & Er & Hp).
      simpl in Er. injection Er as <- <-. rewrite Nat.sub_diag.
      exists c0. split; [reflexivity|assumption].
    + pose proof (search_bounds _ _ _ _ _ H) as (B & _).
      destruct (IH _ _ _ H) as (ch & Hn & Hp).
      exists ch. split; [|assumption].
      replace (index m - i)%nat with (S (index m - S i)) by lia. exact Hn.
Qed.

Lemma headed_exec P r text lastIndex m : headed P r ->
  exec r text lastIndex = Some m ->
  exists ch, nth_error text (index m) = Some ch /\ P ch = true.
Proof.
  intros Hh H. pose proof (exec_bounds _ _ _ _ H) as (B & _).
  unfold exec in H. destruct (_ <? _)%nat; [discriminate|].
  destruct (headed_search P r _ Hh _ _ _ H) as (ch & Hn & Hp).
  exists ch. split; [|assumption].
  rewrite nth_error_skipn in Hn. rewrite <- Hn. f_equal. lia.
Qed.

Lemma headed_execLoop P r text : headed P r -> forall fuel lastIndex ms,
  execLoop fuel r text lastIndex = Some ms ->
  Forall (fun m => exists ch, nth_error text (index m) = Some ch /\ P ch = true) ms.
Proof.
  intro Hh. induction fuel as [|fuel IH]; intros li ms H; simpl in H;
    [discriminate|].
  destruct (exec r text li) as [m|] eqn:E; [|injection H as <-; constructor].
  destruct (execLoop fuel r text (mend m)) as [ms'|] eqn:E'; [|discriminate].
  injection H as <-. constructor; [eapply headed_exec; eauto|eapply IH; eauto].
Qed.

(** The matches of one loop come one after the other: each starts at or
    after the end of the one before. *)
Lemma execLoop_ordered r text : forall fuel lastIndex ms,
  execLoop fuel r text lastIndex = Some ms ->
  Forall (goodMatch r text lastIndex) ms
  /\ StronglySorted (fun a b => (mend a <= index b)%nat) ms.
Proof.
  induction fuel as [|fuel IH]; intros li ms H; simpl in H; [discriminate|].
  destruct (exec r text li) as [m|] eqn:E;
    [|injection H as <-; split; constructor].
  destruct (execLoop fuel r text (mend m)) as [ms'|] eqn:E'; [|discriminate].
  injection H as <-. apply exec_bounds in E. pose proof E as (E1 & E2 & E3).
  destruct (IH _ _ E') as [I1 I2]. split.
  - constructor; [assumption|]. eapply Forall_impl; [|exact I1].
    intros a (A1 & A2 & A3). unfold goodMatch. lia.
  - constructor; [assumption|]. eapply Forall_impl; [|exact I1].
    intros a (A1 & _). exact A1.
Qed.

Lemma slice_nat (s : jsstring) (a b : nat) :
  (a <= b)%nat -> (b <= List.length s)%nat ->
  slice s (Z.of_nat a) (Z.of_nat b) = firstn (b - a) (skipn a s).
Proof.
  intros Hab Hb. unfold slice, len.
  destruct (Z.ltb_spec (Z.of_nat a) 0); [lia|].
  destruct (Z.ltb_spec (Z.of_nat b) 0); [lia|].
  f_equal; [lia|f_equal; lia].
Qed.

Lemma ci_letter c ch : isLetter c = true -> ci c ch = true -> isLetter ch = true.
Proof.
  unfold ci, isLetter, lowerChar, isUpper, isLower, between.
  intros Hc H. apply N.eqb_eq in H.
  repeat match goal with
         | H : context [(?a <=? ?b)%N] |- _ => destruct (N.leb_spec a b)
         | |- context [(?a <=? ?b)%N] => destruct (N.leb_spec a b)
         end; simpl in *; try reflexivity; try discriminate; lia.
Qed.

Lemma ci_exact c ch : isLetter c = false -> ci c ch = true -> ch = c.
Proof.
  unfold ci, isLetter, lowerChar, isUpper, isLower, between.
  intros Hc H. apply N.eqb_eq in H.
  repeat match goal with
         | H : context [(?a <=? ?b)%N] |- _ => destruct (N.leb_spec a b)
         | |- context [(?a <=? ?b)%N] => destruct (N.leb_spec a b)
         end; simpl in *; try discriminate; lia.
Qed.

Lemma letter_range c : isLetter c = true -> (65 <= c <= 90 \/ 97 <= c <= 122)%N.
Proof.
  unfold isLetter, isUpper, isLower, between. intro H.
  apply orb_true_iff in H. destruct H as [H|H]; apply andb_true_iff in H;
    destruct H as [H1 H2]; apply N.leb_le in H1, H2; lia.
Qed.

Lemma far_from_space c : (33 <= c <= 159)%N -> isWhiteSpace c = false.
Proof.
  intro H. unfold isWhiteSpace, between.
  rewrite (proj2 (N.leb_gt c 13)) by lia.
  rewrite (proj2 (N.leb_gt 8192 c)) by lia.
  rewrite !(proj2 (N.eqb_neq c _)) by lia.
  rewrite andb_false_r. reflexivity.
Qed.

Lemma letter_not_space c : isLetter c = true -> isWhiteSpace c = false.
Proof.
  intro H. apply letter_range in H. apply far_from_space. lia.
Qed.

Lemma currency_not_space c : isCurrency c = true -> isWhiteSpace c = false.
Proof.
  unfold isCurrency. intro H.
  repeat (apply orb_true_iff in H; destruct H as [H|H]);
    apply N.eqb_eq in H; subst; reflexivity.
Qed.

End MatcherHeads.

(* ===================================================================== *)
(** ** Substrings *)
(* ===================================================================== *)

Section InfixFacts.

Lemma infix_refl s : infix s s.
Proof. exists [], []. now rewrite app_nil_r. Qed.

Lemma infix_trans a b c : infix a b -> infix b c -> infix a c.
Proof.
  intros (p1 & q1 & ->) (p2 & q2 & ->).
  exists (p2 ++ p1), (q1 ++ q2). now rewrite <- !app_assoc.
Qed.

Lemma infix_firstn n s : infix (firstn n s) s.
Proof. exists [], (skipn n s). simpl. now rewrite firstn_skipn. Qed.

Lemma infix_skipn n s : infix (skipn n s) s.
Proof. exists (firstn n s), []. now rewrite app_nil_r, firstn_skipn. Qed.

Lemma infix_slice s a b : infix (slice s a b) s.
Proof.
  unfold slice. eapply infix_trans; [apply infix_firstn|apply infix_skipn].
Qed.

Lemma infix_dropWhile p s : infix (dropWhile p s) s.
Proof.
  induction s as [|c s IH]; simpl; [apply infix_refl|].
  destruct (p c); [|apply infix_refl].
  destruct IH as (pre & post & E). exists (c :: pre), post. simpl. now rewrite <- E.
Qed.

Lemma infix_rev a b : infix a b -> infix (rev a) (rev b).
Proof.
  intros (pre & post & ->). exists (rev post), (rev pre).
  now rewrite !rev_app_distr, <- app_assoc.
Qed.

Lemma infix_trim s : infix (trim s) s.
Proof.
  unfold trim. eapply infix_trans; [|apply (infix_dropWhile isWhiteSpace s)].
  rewrite <- (rev_involutive (dropWhile isWhiteSpace s)) at 2.
  apply infix_rev. apply infix_dropWhile.
Qed.

Lemma infix_length a b : infix a b -> len a <= len b.
Proof.
  intros (pre & post & ->). rewrite !len_app.
  pose proof (len_nonneg pre). pose proof (len_nonneg post). lia.
Qed.

Lemma trim_keeps_head c t : isWhiteSpace c = false -> exists t', trim (c :: t) = c :: t'.
Proof.
  intro Hc. eexists. apply trim_cons. simpl. now rewrite Hc.
Qed.

Lemma stripTrail_infix s :
  infix (match rev s with
         | c :: r => if (c =? 8230)%N then rev r else s
         | [] => []
         end) s.
Proof.
  destruct (rev s) as [|c r] eqn:E.
  - exists [], s. reflexivity.
  - destruct (c =? 8230)%N; [|apply infix_refl].
    exists [], [c]. simpl. rewrite <- (rev_involutive s), E. reflexivity.
Qed.

Lemma stripEllipsis_infix s : infix (Highlight.stripEllipsis s) s.
Proof.
  unfold Highlight.stripEllipsis. destruct s as [|c s]; [apply infix_refl|].
  destruct (c =? 8230)%N; [|apply stripTrail_infix].
  eapply infix_trans; [apply stripTrail_infix|].
  exists [c], []. simpl. now rewrite app_nil_r.
Qed.

Lemma stripEllipsis_marked core : infix (Highlight.stripEllipsis (ellipsis ++ core)) core.
Proof. unfold Highlight.stripEllipsis, ellipsis. simpl. apply stripTrail_infix. Qed.

Lemma snippetSentence_infix text start end_ window sentence sentenceStart :
  snippetSentence text start end_ window = Some (sentence, sentenceStart) ->
  infix sentence text.
Proof.
  unfold snippetSentence.
  destruct (execAll sentenceEndings _) as [ms|]; [|discriminate]. cbn [bind].
  destruct (match findSentence _ _ with Some se => se | None => _ end) as [a b].
  destruct (_ <? 30); intro H; injection H as <- _.
  - eapply infix_trans; [apply infix_trim|apply infix_slice].
  - eapply infix_trans; [apply infix_trim|].
    eapply infix_trans; apply infix_slice.
Qed.

Lemma snippetLimit_needle sentence hitOffset :
  0 <= hitOffset ->
  infix (trim (Highlight.stripEllipsis (snippetLimit sentence hitOffset))) sentence.
Proof.
  intro Hh. eapply infix_trans; [apply infix_trim|].
  destruct (Z.le_gt_cases (len sentence) 500) as [Hs|Hs].
  - rewrite snippetLimit_short by assumption. apply stripEllipsis_infix.
  - rewrite snippetLimit_long by lia.
    destruct (hitOffset - 250 >? 0).
    + eapply infix_trans; [apply stripEllipsis_marked|].
      eapply infix_trans; [apply infix_trim|apply infix_slice].
    + simpl app. eapply infix_trans; [apply stripEllipsis_infix|].
      eapply infix_trans; [apply infix_trim|apply infix_slice].
Qed.

End InfixFacts.

(* ===================================================================== *)
(** ** Further properties of the span finder *)
(* ===================================================================== *)

Section FinderFacts.

Ltac solve_headed :=
  lazymatch goal with
  | |- _ /\ _ => split; solve_headed
  | |- _ \/ _ => first [left; solve_headed | right; solve_headed]
  | |- forall ch, ci _ ch = true -> isLetter ch = true =>
      let ch := fresh "ch" in intro ch; apply ci_letter; reflexivity
  | |- forall ch, ci _ ch = true -> isCurrency ch = true =>
      let ch := fresh "ch" in let H := fresh "H" in
      intros ch H; apply ci_exact in H; [subst; reflexivity|reflexivity]
  | |- _ = _ => reflexivity
  end.

Ltac headed_pattern :=
  cbv -[ci isLetter isCurrency isWhiteSpace dashOrSpace phraseChar isDigit anyChar];
  solve_headed.

Lemma RE_AUTO_RENEW_headed : headed isLetter RE_AUTO_RENEW.
Proof. headed_pattern. Qed.

Lemma RE_ARBITRATION_headed : headed isLetter RE_ARBITRATION.
Proof. headed_pattern. Qed.

Lemma RE_CLASS_ACTION_headed : headed isLetter RE_CLASS_ACTION.
Proof. headed_pattern. Qed.

Lemma RE_CANCELLATION_headed : headed isLetter RE_CANCELLATION.
Proof. headed_pattern. Qed.

Lemma RE_FEES_headed : headed isLetter RE_FEES.
Proof. headed_pattern. Qed.

Lemma RE_PRICE_headed : headed isCurrency RE_PRICE.
Proof. headed_pattern. Qed.

Lemma RE_CADENCE_headed : headed isLetter RE_CADENCE.
Proof. headed_pattern. Qed.

Lemma skipn_nth (s : jsstring) : forall i ch,
  nth_error s i = Some ch -> skipn i s = ch :: skipn (S i) s.
Proof.
  induction s as [|x s IH]; intros [|i] ch H; simpl in *; try discriminate.
  - now injection H as ->.
  - now apply IH.
Qed.

Lemma matched_head r text from m ch :
  (0 < minLen r)%nat -> goodMatch r text from m ->
  nth_error text (index m) = Some ch ->
  exists t, matched text m = ch :: t.
Proof.
  intros Hr (H1 & H2 & H3) Hn. unfold matched.
  rewrite (skipn_nth _ _ _ Hn).
  destruct (mend m - index m)%nat as [|n] eqn:E; [lia|].
  simpl. eauto.
Qed.

Lemma matched_slice r text from m :
  goodMatch r text from m ->
  matched text m
  = slice text (Z.of_nat (index m)) (Z.of_nat (index m) + len (matched text m)).
Proof.
  intro Hm. rewrite (matched_length _ _ _ _ Hm). pose proof Hm as (H1 & H2 & H3).
  replace (Z.of_nat (index m) + Z.of_nat (mend m - index m)) with (Z.of_nat (mend m))
    by lia.
  rewrite slice_nat by lia. reflexivity.
Qed.

Lemma execAll_sliceOf P r text :
  (0 < minLen r)%nat -> headed P r ->
  exists ms,
    execAll r text = Some ms
    /\ Forall (fun m => sliceOf P text (Z.of_nat (index m), matched text m)) ms.
Proof.
  intros Hr Hh. destruct (execAll_ends r text Hr) as (ms & E & Hms).
  exists ms. split; [exact E|].
  pose proof (headed_execLoop P r text Hh _ _ _ E) as Hhd.
  rewrite Forall_forall in *. intros m Hin.
  specialize (Hms m Hin). destruct (Hhd m Hin) as (ch & Hn & Hp).
  unfold sliceOf. cbn [fst snd].
  rewrite <- (matched_slice _ _ _ _ Hms).
  pose proof (matched_length _ _ _ _ Hms) as Hl.
  destruct (matched_head _ _ _ _ _ Hr Hms Hn) as [t Ht].
  destruct Hms as (H1 & H2 & H3).
  repeat split; try (unfold len in *; lia). eauto.
Qed.

Lemma execLoop_packed r text : forall fuel lastIndex ms,
  execLoop fuel r text lastIndex = Some ms ->
  (lastIndex + List.length ms * minLen r <= Nat.max lastIndex (List.length text))%nat.
Proof.
  induction fuel as [|fuel IH]; intros li ms H; simpl in H; [discriminate|].
  destruct (exec r text li) as [m|] eqn:E; [|injection H as <-; simpl; lia].
  destruct (execLoop fuel r text (mend m)) as [ms'|] eqn:E'; [|discriminate].
  injection H as <-. apply exec_bounds in E. destruct E as (E1 & E2 & E3).
  specialize (IH _ _ E'). simpl. lia.
Qed.

Lemma makeSnippet_facts text start end_ :
  0 <= start < end_ -> end_ <= len text ->
  exists out,
    makeSnippet text start end_ SNIPPET_WINDOW = Some out
    /\ len out <= 501
    /\ infix (trim (Highlight.stripEllipsis out)) text
    /\ (forall c, nth_error text (Z.to_nat start) = Some c ->
                  isWhiteSpace c = false -> out <> []).
Proof.
  intros Hs He.
  destruct (snippetSentence_spec text start end_ SNIPPET_WINDOW Hs He)
    as (sentence & sentenceStart & E & Hh & (u & Hu) & Hne);
    [unfold SNIPPET_WINDOW; lia|].
  eexists. split; [unfold makeSnippet; rewrite E; reflexivity|].
  split; [now apply snippetLimit_length|].
  split; [eapply infix_trans;
          [now apply snippetLimit_needle|eapply snippetSentence_infix; eauto]|].
  intros c Hc Hw. rewrite Hu. apply snippetLimit_nonempty; [assumption|].
  rewrite <- Hu. eapply Hne; eauto.
Qed.

Lemma pushEach_valid P text ty found :
  (forall c, P c = true -> isWhiteSpace c = false) ->
  forall hits,
  Forall (sliceOf P text) found -> Forall (validHit text) hits ->
  exists hits', pushEach text ty found hits = Some hits'
                /\ Forall (validHit text) hits'.
Proof.
  intro HP. induction found as [|[i m] found IH]; intros hits Hf Hv; cbn [pushEach].
  - eauto.
  - inversion Hf as [|? ? (H1 & H2 & H3 & H4 & (c & t & Hc & Hpc)) Hf']; subst.
    cbn [fst snd] in *.
    destruct (makeSnippet_facts text i (i + len m)) as (s & Es & Hl & Hinf & Hne);
      [lia|lia|].
    rewrite Es. cbn [bind]. apply IH; [assumption|].
    apply Forall_app. split; [assumption|]. constructor; [|constructor].
    unfold validHit. cbn [start end_ Rules.text snippet].
    repeat split; try lia; try assumption;
      try (rewrite H4; apply infix_slice).
    assert (Hi : nth_error text (Z.to_nat i) = Some c).
    { assert (E : nth_error (slice text i (i + len m)) (Z.to_nat (i - i)) = Some c)
        by (rewrite <- H4, Hc, Z.sub_diag; reflexivity).
      rewrite slice_nth in E by lia. exact E. }
    exact (Hne c Hi (HP c Hpc)).
Qed.

Lemma pushAll_valid P text hits ty r :
  (forall c, P c = true -> isWhiteSpace c = false) ->
  (0 < minLen r)%nat -> headed P r -> Forall (validHit text) hits ->
  exists hits', pushAll text hits ty r = Some hits' /\ Forall (validHit text) hits'.
Proof.
  intros HP Hr Hh Hv. destruct (execAll_sliceOf P r text Hr Hh) as (ms & E & Hms).
  unfold pushAll, findAll. rewrite E. cbn [bind].
  apply (pushEach_valid P); [assumption| |assumption].
  now apply Forall_map.
Qed.

Lemma collectHits_valid text :
  exists raw, collectHits text = Some raw /\ Forall (validHit text) raw.
Proof.
  unfold collectHits.
  destruct (pushAll_valid isLetter text [] auto_renewal RE_AUTO_RENEW)
    as (h1 & E1 & V1);
    [exact letter_not_space|apply Nat.ltb_lt; reflexivity
    |exact RE_AUTO_RENEW_headed|constructor|].
  rewrite E1. cbn [bind].
  destruct (pushAll_valid isLetter text h1 arbitration RE_ARBITRATION)
    as (h2 & E2 & V2);
    [exact letter_not_space|apply Nat.ltb_lt; reflexivity
    |exact RE_ARBITRATION_headed|assumption|].
  rewrite E2. cbn [bind].
  destruct (pushAll_valid isLetter text h2 class_action RE_CLASS_ACTION)
    as (h3 & E3 & V3);
    [exact letter_not_space|apply Nat.ltb_lt; reflexivity
    |exact RE_CLASS_ACTION_headed|assumption|].
  rewrite E3. cbn [bind].
  destruct (pushAll_valid isLetter text h3 cancellation RE_CANCELLATION)
    as (h4 & E4 & V4);
    [exact letter_not_space|apply Nat.ltb_lt; reflexivity
    |exact RE_CANCELLATION_headed|assumption|].
  rewrite E4. cbn [bind].
  apply (pushAll_valid isLetter);
    [exact letter_not_space|apply Nat.ltb_lt; reflexivity
    |exact RE_FEES_headed|assumption].
Qed.

End FinderFacts.

(** X1. For a pattern that cannot match the empty string, [findAll] returns
    the matches from left to right: each is the slice of the text at its
    index and at least as long as the shortest match of the pattern, each
    starts at or after the end of the one before, and [countMatches] counts
    the same matches; so the count times the shortest match is at most the
    length of the text. *)
Theorem findAll_matches_in_order (r : regex) (text : jsstring) :
  (0 < minLen r)%nat ->
  exists found,
    findAll r text = Some found
    /\ countMatches r text = Some (len found)
    /\ Forall (fun im => 0 <= fst im
                         /\ Z.of_nat (minLen r) <= len (snd im)
                         /\ fst im + len (snd im) <= len text
                         /\ snd im = slice text (fst im) (fst im + len (snd im)))
         found
    /\ StronglySorted (fun a b => fst a + len (snd a) <= fst b) found
    /\ len found * Z.of_nat (minLen r) <= len text.
Proof.
  intro Hr. destruct (execAll_ends r text Hr) as (ms & E & _).
  destruct (execLoop_ordered r text _ _ _ E) as [Hg Hs].
  pose proof (execLoop_packed r text _ _ _ E) as Hp.
  unfold findAll, countMatches. rewrite E. cbn [bind].
  eexists. split; [reflexivity|]. split; [unfold len; now rewrite length_map|].
  split; [|split].
  - apply Forall_map. eapply Forall_impl; [|exact Hg]. intros m Hm. cbn [fst snd].
    rewrite <- (matched_slice _ _ _ _ Hm), (matched_length _ _ _ _ Hm).
    destruct Hm as (H1 & H2 & H3). unfold len. repeat split; lia.
  - apply StronglySorted_map.
    assert (Hboth : StronglySorted
              (fun a b => goodMatch r text 0 a /\ (mend a <= index b)%nat) ms).
    { clear - Hg Hs. induction Hs as [|m ms Hs IH Hm]; [constructor|].
      inversion Hg; subst. constructor; [now apply IH|].
      eapply Forall_impl; [|exact Hm]. intros b Hb. now split. }
    clear - Hboth. induction Hboth as [|m ms Hs IH Hm]; constructor; [assumption|].
    eapply Forall_impl; [|exact Hm]. intros b [Hg Hb]. cbn [fst snd].
    rewrite (matched_length _ _ _ _ Hg). destruct Hg as (H1 & H2 & H3). lia.
  - unfold len. rewrite length_map. simpl in Hp. nia.
Qed.

Lemma findAll_matches_in_order_witness :
  (0 < minLen RE_FEES)%nat
  /\ exists found,
    findAll RE_FEES feeText = Some found
    /\ countMatches RE_FEES feeText = Some (len found)
    /\ Forall (fun im => 0 <= fst im
                         /\ Z.of_nat (minLen RE_FEES) <= len (snd im)
                         /\ fst im + len (snd im) <= len feeText
                         /\ snd im = slice feeText (fst im) (fst im + len (snd im)))
         found
    /\ StronglySorted (fun a b => fst a + len (snd a) <= fst b) found
    /\ len found * Z.of_nat (minLen RE_FEES) <= len feeText.
Proof.
  assert (H : (0 < minLen RE_FEES)%nat) by (apply Nat.ltb_lt; reflexivity).
  split; [exact H|]. exact (findAll_matches_in_order RE_FEES feeText H).
Defined.


(** X2. For every text, every span of the scan result lies inside the text
    and is not empty, its [text] is the slice of the scanned text at
    [start, end), of length [end - start], and its snippet is not empty and
    has at most 501 characters. Both texts that [applyHighlights] looks for
    in the page, the keyword and the snippet without its markers and
    trimmed, occur verbatim in the scanned text. *)
Theorem rulesScan_hits_valid (fullText : jsstring) :
  exists r,
    rulesScan fullText = Some r
    /\ Forall (fun h => 0 <= start h < end_ h
                        /\ end_ h <= len fullText
                        /\ text h = slice fullText (start h) (end_ h)
                        /\ len (text h) = end_ h - start h
                        /\ snippet h <> []
                        /\ len (snippet h) <= 501
                        /\ infix (text h) fullText
                        /\ infix (trim (Highlight.stripEllipsis (snippet h))) fullText)
         (hits r).
Proof.
  destruct (collectHits_valid fullText) as (raw & E & Hraw).
  destruct (buildHeatmap_ends fullText) as (c & ps & _ & Eh & _).
  unfold rulesScan. rewrite E, Eh. cbn [bind].
  eexists. split; [reflexivity|]. cbn [hits].
  apply Forall_forall. intros h Hh. apply dedupeAndCap_In in Hh.
  rewrite Forall_forall in Hraw. exact (Hraw h Hh).
Qed.

(* ===================================================================== *)
(** ** Further properties of the overlap resolver *)
(* ===================================================================== *)

Section ResolverMore.

Lemma sortBy_apart l :
  Forall wellFormed l -> StronglySorted apart l ->
  sortBy byStartThenLongest l = l.
Proof.
  intros Hwf Hs. induction Hs as [|x l Hl IH Hx]; [reflexivity|].
  inversion Hwf as [|? ? Hwx Hwl]; subst. simpl. rewrite IH by assumption.
  destruct l as [|y l]; [reflexivity|]. simpl.
  inversion Hx as [|? ? Hxy _]; subst.
  unfold byStartThenLongest, apart, wellFormed in *.
  destruct (Z.eqb_spec (start x - start y) 0); [lia|].
  destruct (Z.leb_spec (start x - start y) 0); [reflexivity|lia].
Qed.

Lemma fold_stackStep_apart l : forall o,
  StronglySorted apart l ->
  (forall top, hd_error o = Some top -> Forall (apart top) l) ->
  fold_left stackStep l o = rev l ++ o.
Proof.
  induction l as [|h l IH]; intros o Hs Htop; simpl; [reflexivity|].
  inversion Hs as [|? ? Hs' Hh]; subst.
  assert (E : stackStep o h = h :: o).
  { destruct o as [|top o]; [reflexivity|]. simpl.
    specialize (Htop top eq_refl). inversion Htop as [|? ? Hth _]; subst.
    unfold overlaps, apart in *.
    destruct (Z.leb_spec (start h) (end_ top)); [lia|reflexivity]. }
  rewrite E, IH; [now rewrite <- app_assoc|assumption|].
  intros top Et. injection Et as <-. assumption.
Qed.

Lemma dedupeOverlaps_fixed l :
  Forall wellFormed l -> StronglySorted apart l -> dedupeOverlaps l = l.
Proof.
  intros Hwf Hs. rewrite dedupeOverlaps_rev, sortBy_apart by assumption.
  rewrite fold_stackStep_apart; [|assumption|discriminate].
  rewrite app_nil_r. apply rev_involutive.
Qed.

Lemma stackStep_length o h :
  (1 <= List.length (stackStep o h) <= S (List.length o))%nat.
Proof.
  destruct o as [|top o]; simpl; [lia|].
  destruct (negb _); [simpl; lia|]. destruct (_ >? _); simpl; lia.
Qed.

Lemma fold_stackStep_length l : forall o,
  (List.length (fold_left stackStep l o) <= List.length l + List.length o)%nat
  /\ (l <> [] -> (1 <= List.length (fold_left stackStep l o))%nat).
Proof.
  induction l as [|h l IH]; intro o; simpl; [split; [lia|congruence]|].
  destruct (IH (stackStep o h)) as [I1 I2].
  pose proof (stackStep_length o h). split; [lia|]. intros _.
  destruct l as [|h' l]; [simpl; lia|]. apply I2. discriminate.
Qed.

Lemma overlaps_sym a b : overlaps a b = overlaps b a.
Proof.
  unfold overlaps.
  destruct (Z.leb_spec (start a) (end_ b)); destruct (Z.geb_spec (end_ a) (start b));
    destruct (Z.leb_spec (start b) (end_ a)); destruct (Z.geb_spec (end_ b) (start a));
    simpl; try reflexivity; lia.
Qed.

(** A span that overlaps no other span stays on the stack once it is
    there, and gets there when its turn comes. *)
Lemma stackStep_keeps h o x :
  (forall y, In y o -> y = h \/ overlaps h y = false) ->
  (x = h \/ overlaps h x = false) ->
  In h o \/ x = h -> In h (stackStep o x).
Proof.
  intros Ho Hx Hin. destruct o as [|top o]; simpl.
  - destruct Hin as [[] | ->]. now left.
  - destruct (overlaps x top) eqn:Eo; simpl.
    + destruct (_ >? _).
      * destruct Hin as [[-> | Hin] | ->]; [|now right|now left].
        destruct Hx as [-> | Hx]; [now left|].
        rewrite overlaps_sym in Hx. congruence.
      * destruct Hin as [Hin | ->]; [exact Hin|].
        destruct (Ho top (or_introl eq_refl)) as [-> | Ht]; [now left|congruence].
    + destruct Hin as [Hin | ->]; [now right|now left].
Qed.

Lemma fold_stackStep_keeps h l : forall o,
  (forall y, In y o -> y = h \/ overlaps h y = false) ->
  (forall y, In y l -> y = h \/ overlaps h y = false) ->
  In h o \/ In h l -> In h (fold_left stackStep l o).
Proof.
  induction l as [|x l IH]; intros o Ho Hl Hin; simpl.
  - destruct Hin as [Hin|[]]. exact Hin.
  - apply IH.
    + intros y Hy. apply stackStep_In in Hy. destruct Hy as [-> | Hy].
      * apply Hl. now left.
      * now apply Ho.
    + intros y Hy. apply Hl. now right.
    + destruct Hin as [Hin | [-> | Hin]].
      * left. apply stackStep_keeps; auto. apply Hl. now left.
      * left. apply stackStep_keeps; auto.
      * now right.
Qed.

End ResolverMore.

(** X3. The resolver is idempotent on well-formed spans: resolving its own
    output changes nothing, with or without the cap. *)
Theorem dedupeOverlaps_idempotent (hits : list Hit) :
  Forall (fun h => start h < end_ h) hits ->
  dedupeOverlaps (dedupeOverlaps hits) = dedupeOverlaps hits
  /\ dedupeAndCap (dedupeAndCap hits) = dedupeAndCap hits.
Proof.
  intro Hwf. destruct (dedupeOverlaps_apart hits Hwf) as [H1 H2].
  destruct (dedupeAndCap_apart hits Hwf) as [H3 H4].
  split; [now apply dedupeOverlaps_fixed|].
  unfold dedupeAndCap at 1. rewrite (dedupeOverlaps_fixed _ H3 H4).
  pose proof (dedupeAndCap_length hits).
  destruct (Z.gtb_spec (len (dedupeAndCap hits)) MAX_HIGHLIGHTS); [lia|reflexivity].
Qed.

Lemma dedupeOverlaps_idempotent_witness :
  Forall (fun h => start h < end_ h) sampleHits
  /\ dedupeOverlaps (dedupeOverlaps sampleHits) = dedupeOverlaps sampleHits
  /\ dedupeAndCap (dedupeAndCap sampleHits) = dedupeAndCap sampleHits.
Proof.
  assert (H : Forall (fun h => start h < end_ h) sampleHits) by (repeat constructor).
  split; [exact H|]. exact (dedupeOverlaps_idempotent sampleHits H).
Defined.

(** X4. The resolver returns no more spans than it is given, and returns
    none only when it is given none. *)
Theorem dedupeOverlaps_size (hits : list Hit) :
  len (dedupeOverlaps hits) <= len hits
  /\ (dedupeOverlaps hits = [] <-> hits = []).
Proof.
  rewrite dedupeOverlaps_rev.
  destruct (fold_stackStep_length (sortBy byStartThenLongest hits) []) as [H1 H2].
  rewrite sortBy_length in H1. split.
  - unfold len. rewrite length_rev. simpl in H1. lia.
  - split; intro H.
    + destruct hits as [|h hits]; [reflexivity|]. exfalso.
      assert (Hne : sortBy byStartThenLongest (h :: hits) <> []).
      { intro E. apply (f_equal (@List.length Hit)) in E.
        rewrite sortBy_length in E. discriminate. }
      specialize (H2 Hne). apply (f_equal (@List.length Hit)) in H.
      rewrite length_rev in H. change (List.length (@nil Hit)) with 0%nat in H. lia.
    + subst. reflexivity.
Qed.

(** X5. A span that overlaps no other span it is given with (by the
    resolver's own test) is always in the resolver's output. *)
Theorem dedupeOverlaps_keeps_isolated (hits : list Hit) (h : Hit) :
  In h hits ->
  (forall x, In x hits -> x = h \/ overlaps h x = false) ->
  In h (dedupeOverlaps hits).
Proof.
  intros Hin Hiso. rewrite dedupeOverlaps_rev. apply -> in_rev.
  apply fold_stackStep_keeps.
  - intros y [].
  - intros y Hy. apply sortBy_In in Hy. now apply Hiso.
  - right. now apply sortBy_In.
Qed.

Lemma dedupeOverlaps_keeps_isolated_witness :
  let h := mkHit arbitration 50 61 [] [] in
  In h sampleHits
  /\ (forall x, In x sampleHits -> x = h \/ overlaps h x = false)
  /\ In h (dedupeOverlaps sampleHits).
Proof.
  cbv zeta.
  assert (H1 : In (mkHit arbitration 50 61 [] []) sampleHits)
    by (simpl; tauto).
  assert (H2 : forall x, In x sampleHits ->
            x = mkHit arbitration 50 61 [] []
            \/ overlaps (mkHit arbitration 50 61 [] []) x = false).
  { intros x Hx. simpl in Hx.
    destruct Hx as [<-|[<-|[<-|[<-|[]]]]]; (now left) || (now right). }
  split; [exact H1|]. split; [exact H2|].
  exact (dedupeOverlaps_keeps_isolated sampleHits _ H1 H2).
Defined.

(* ===================================================================== *)
(** ** Further properties of the severity and of the hero line *)
(* ===================================================================== *)

Section HeroFacts.

Lemma RiskType_eqb_eq a b : RiskType_eqb a b = true <-> a = b.
Proof. destruct a, b; simpl; split; intro H; try reflexivity; discriminate. Qed.

Lemma find_has hits t :
  match find (fun h => RiskType_eqb (type h) t) hits with
  | Some h => has hits t = true /\ type h = t
  | None => has hits t = false
  end.
Proof.
  unfold has. induction hits as [|x hits IH]; simpl; [reflexivity|].
  destruct (RiskType_eqb (type x) t) eqn:E; simpl.
  - split; [reflexivity|]. now apply RiskType_eqb_eq.
  - exact IH.
Qed.

Lemma has_app l1 l2 t : has (l1 ++ l2) t = has l1 t || has l2 t.
Proof. unfold has. apply existsb_app. Qed.

Lemma find_app_first (f : Hit -> bool) l1 l2 h :
  find f l1 = Some h -> find f (l1 ++ l2) = Some h.
Proof.
  induction l1 as [|x l1 IH]; simpl; [discriminate|].
  destruct (f x); [auto|exact IH].
Qed.

Lemma join_nonempty sep p ps : p <> [] -> join sep (p :: ps) <> [].
Proof.
  intro Hp. simpl. destruct ps; [assumption|].
  destruct p; [contradiction|discriminate].
Qed.

Lemma optList_truthy a b :
  truthyOpt a || truthyOpt b = true ->
  exists p ps, optList a ++ optList b = p :: ps /\ p <> [].
Proof.
  destruct a as [[|x a]|]; destruct b as [[|y b]|]; simpl; intro H;
    try discriminate; eexists; eexists; (split; [reflexivity|discriminate]).
Qed.

End HeroFacts.

(** X6. The hero line follows a fixed priority: any fees span gives the
    fees line; otherwise any cancellation span gives the cancellation
    line; otherwise an auto-renewal span gives the generic auto-renewal
    line or the one that quotes a non-empty price or cadence; and there is
    no hero line exactly when the spans hold none of these three types. *)
Theorem selectHero_priority (hits : list Hit) (fullText : jsstring) :
  (has hits fees = true -> selectHero hits fullText = Some heroFees)
  /\ (has hits fees = false -> has hits cancellation = true ->
      selectHero hits fullText = Some heroCancellation)
  /\ (has hits fees = false -> has hits cancellation = false ->
      has hits auto_renewal = true ->
      selectHero hits fullText = Some heroAutoGeneric
      \/ exists part, part <> [] /\ selectHero hits fullText = Some (heroAutoPriced part))
  /\ (selectHero hits fullText = None <->
      has hits fees = false /\ has hits cancellation = false
      /\ has hits auto_renewal = false).
Proof.
  unfold selectHero. pose proof (find_has hits auto_renewal) as Hf.
  destruct (has hits fees).
  { repeat split; intros; try discriminate; try reflexivity.
    destruct H as (H & _); discriminate. }
  destruct (has hits cancellation).
  { repeat split; intros; try discriminate; try reflexivity.
    destruct H as (_ & H & _); discriminate. }
  destruct (find _ hits) as [auto|].
  - destruct Hf as [Hf _]. rewrite Hf.
    set (near := findPriceAndCadenceNearby fullText (start auto) (end_ auto) 160).
    split; [discriminate|]. split; [discriminate|]. split.
    + intros _ _ _. destruct (truthyOpt (price near) || truthyOpt (cadence near)) eqn:E;
        [|now left]. right.
      destruct (optList_truthy _ _ E) as (p & ps & Ep & Hp).
      rewrite Ep. eexists. split; [|reflexivity]. now apply join_nonempty.
    + split; intro H.
      * destruct (truthyOpt (price near) || truthyOpt (cadence near)); discriminate.
      * destruct H as (_ & _ & H); discriminate.
  - rewrite Hf. split; [discriminate|]. split; [discriminate|].
    split; [discriminate|]. split; auto.
Qed.

(** X7. The severity is Low exactly when the spans hold no auto-renewal,
    no arbitration and no class-action span and not both a cancellation
    and a fees span; an arbitration span together with a span of any other
    scored type gives High; and without an auto-renewal span the severity
    does not depend on the text. *)
Theorem computeSeverity_levels (hits : list Hit) (fullText : jsstring) :
  (computeSeverity hits fullText = Low <->
     has hits auto_renewal = false /\ has hits arbitration = false
     /\ has hits class_action = false
     /\ has hits cancellation && has hits fees = false)
  /\ (has hits arbitration = true ->
      has hits auto_renewal || has hits class_action
      || has hits cancellation || has hits fees = true ->
      computeSeverity hits fullText = High)
  /\ (has hits auto_renewal = false ->
      forall other, computeSeverity hits other = computeSeverity hits fullText).
Proof.
  unfold computeSeverity. pose proof (find_has hits auto_renewal) as Hf.
  destruct (find _ hits) as [auto|]; [destruct Hf as [Hf _]|]; rewrite Hf.
  - destruct (truthyOpt _ || truthyOpt _);
      destruct (has hits arbitration); destruct (has hits class_action);
      destruct (has hits cancellation); destruct (has hits fees);
      repeat split; intros; try discriminate; try reflexivity;
      try (destruct H as (? & ? & ? & ?); discriminate).
  - destruct (has hits arbitration); destruct (has hits class_action);
      destruct (has hits cancellation); destruct (has hits fees);
      repeat split; intros; try discriminate; try reflexivity;
      try (destruct H as (? & ? & ? & ?); discriminate).
Qed.

(** X8. Severity and hero line depend on which types occur, not on how
    often: putting in a span whose type already occurs earlier in the list
    changes neither. *)
Theorem repeated_type_changes_nothing
    (fullText : jsstring) (before after : list Hit) (h : Hit) :
  has before (type h) = true ->
  computeSeverity (before ++ h :: after) fullText
    = computeSeverity (before ++ after) fullText
  /\ selectHero (before ++ h :: after) fullText
     = selectHero (before ++ after) fullText.
Proof.
  intro Hb.
  assert (Hhas : forall t, has (before ++ h :: after) t = has (before ++ after) t).
  { intro t. rewrite has_insert, has_app.
    destruct (RiskType_eqb (type h) t) eqn:E; [|reflexivity].
    apply RiskType_eqb_eq in E. subst. now rewrite Hb. }
  assert (Hfind : find (fun x => RiskType_eqb (type x) auto_renewal) (before ++ h :: after)
                  = find (fun x => RiskType_eqb (type x) auto_renewal) (before ++ after)).
  { destruct (RiskType_eqb (type h) auto_renewal) eqn:E.
    - apply RiskType_eqb_eq in E. rewrite E in Hb.
      pose proof (find_has before auto_renewal) as Hf.
      destruct (find _ before) as [a|] eqn:Ea; [|congruence].
      now rewrite !(find_app_first _ _ _ _ Ea).
    - now apply find_insert. }
  unfold computeSeverity, selectHero. now rewrite Hfind, !Hhas.
Qed.

Lemma repeated_type_changes_nothing_witness :
  let fee := mkHit fees 0 3 (str "fee") [] in
  let again := mkHit fees 10 14 (str "fees") [] in
  has [fee] (type again) = true
  /\ computeSeverity ([fee] ++ again :: []) [] = computeSeverity ([fee] ++ []) []
  /\ selectHero ([fee] ++ again :: []) [] = selectHero ([fee] ++ []) [].
Proof.
  cbv zeta. split; [reflexivity|].
  apply repeated_type_changes_nothing. reflexivity.
Defined.

(* ===================================================================== *)
(** ** Further properties of the recipients of the heatmap *)
(* ===================================================================== *)

Section RecipientFacts.

Lemma mapGet_mapSet_same m k v : mapGet (mapSet m k v) k = Some v.
Proof.
  induction m as [|[k' v'] m IH]; simpl.
  - assert (E : JSString.eqb k k = true) by now apply eqb_eq. now rewrite E.
  - destruct (JSString.eqb k' k) eqn:E; simpl; rewrite E; [reflexivity|exact IH].
Qed.

Lemma mapGet_mapSet_other m k v k' :
  k' <> k -> mapGet (mapSet m k v) k' = mapGet m k'.
Proof.
  intro Hne. induction m as [|[k0 v0] m IH]; simpl.
  - assert (E : JSString.eqb k k' = false) by (apply eqb_neq; congruence).
    now rewrite E.
  - destruct (JSString.eqb k0 k) eqn:E; simpl.
    + apply eqb_eq in E. subst k0.
      assert (E' : JSString.eqb k k' = false) by (apply eqb_neq; congruence).
      now rewrite E'.
    + destruct (JSString.eqb k0 k'); [reflexivity|exact IH].
Qed.

Lemma mapGet_In m k v :
  NoDup (map fst m) -> In (k, v) m -> mapGet m k = Some v.
Proof.
  induction m as [|[k0 v0] m IH]; simpl; intros Hn Hin; [contradiction|].
  inversion Hn as [|? ? Hk Hn']; subst. destruct Hin as [E|Hin].
  - injection E as -> ->.
    assert (E : JSString.eqb k k = true) by now apply eqb_eq. now rewrite E.
  - destruct (JSString.eqb k0 k) eqn:E; [|now apply IH].
    apply eqb_eq in E. subst k0. exfalso. apply Hk.
    change k with (fst (k, v)). now apply in_map.
Qed.

(** The map holds, for every phrase met, the number of times it was met. *)
Lemma bumpKey_counts ps k :
  mapGet (fold_left bumpKey ps []) k
  = match count_occ jsstring_eq_dec ps k with
    | O => None
    | S n => Some (Z.of_nat (S n))
    end.
Proof.
  induction ps as [|p ps IH] using rev_ind; [reflexivity|].
  rewrite fold_left_app, count_occ_app. simpl fold_left. unfold bumpKey at 1.
  destruct (jsstring_eq_dec p k) as [->|Hne].
  - rewrite mapGet_mapSet_same, IH. simpl.
    destruct (jsstring_eq_dec k k) as [_|]; [|contradiction].
    destruct (count_occ jsstring_eq_dec ps k) as [|n]; simpl; [reflexivity|].
    f_equal. rewrite Nat.add_1_r. lia.
  - rewrite mapGet_mapSet_other by congruence. rewrite IH. simpl.
    destruct (jsstring_eq_dec p k); [contradiction|]. now rewrite Nat.add_0_r.
Qed.

Lemma firstBefore_NoDup ps l : StronglySorted (firstBefore ps) l -> NoDup l.
Proof.
  induction 1 as [|x l Hl IH Hx]; constructor; [|assumption].
  intro Hin. rewrite Forall_forall in Hx.
  destruct (Hx x Hin) as (_ & _ & _ & _ & _ & Hne). now apply Hne.
Qed.

Lemma StronglySorted_app_cross {A : Type} (R : A -> A -> Prop) l1 l2 :
  StronglySorted R (l1 ++ l2) -> forall a b, In a l1 -> In b l2 -> R a b.
Proof.
  induction l1 as [|x l1 IH]; simpl; intros Hs a b Ha Hb; [contradiction|].
  inversion Hs as [|? ? Hs' Hx]; subst. destruct Ha as [->|Ha].
  - rewrite Forall_forall in Hx. apply Hx. apply in_or_app. now right.
  - now apply (IH Hs').
Qed.

End RecipientFacts.

(** X9. For every text the phrases of [topRecipients] are distinct; the
    count of each is the number of times the phrase was met, at least 1;
    every phrase that was met and is not listed was met no more often than
    any listed one; and when fewer than 5 are listed, every phrase met is
    listed. *)
Theorem topRecipients_are_the_most_met (text : jsstring) :
  exists hm phrases,
    buildHeatmap text = Some hm
    /\ captured text = Some phrases
    /\ NoDup (map phrase (topRecipients hm))
    /\ (forall r, In r (topRecipients hm) ->
          1 <= count r
          /\ count r = Z.of_nat (count_occ jsstring_eq_dec (encountered phrases) (phrase r)))
    /\ (forall p, In p (encountered phrases) ->
          In p (map phrase (topRecipients hm))
          \/ (len (topRecipients hm) = 5
              /\ forall r, In r (topRecipients hm) ->
                   Z.of_nat (count_occ jsstring_eq_dec (encountered phrases) p) <= count r)).
Proof.
  destruct (buildHeatmap_ends text) as (c & phrases & Ec & Eh & _).
  eexists. exists phrases. split; [exact Eh|]. split; [exact Ec|].
  cbn [topRecipients]. rewrite fold_bump_bumpKey.
  set (ps := encountered phrases).
  set (tm := fold_left bumpKey ps []).
  set (sorted := sortBy (fun a b : jsstring * Z => snd b - snd a) tm).
  destruct (bumpKey_order ps) as [K1 K2]. fold tm in K1, K2.
  pose proof (firstBefore_NoDup _ _ K2) as Hnd.
  assert (Hsorted : StronglySorted (rankedBy (firstBefore ps)) sorted).
  { apply sortBy_stable. now apply StronglySorted_map. }
  assert (Hval : forall k v, In (k, v) tm ->
            v = Z.of_nat (count_occ jsstring_eq_dec ps k) /\ 1 <= v).
  { intros k v Hin. pose proof (mapGet_In tm k v Hnd Hin) as Hg.
    unfold tm in Hg. rewrite bumpKey_counts in Hg.
    destruct (count_occ jsstring_eq_dec ps k); [discriminate|].
    injection Hg as <-. split; [reflexivity|lia]. }
  assert (Hfirst : forall e, In e (firstn 5 sorted) -> In e tm).
  { intros e He. apply firstn_In in He. now apply sortBy_In in He. }
  rewrite map_map. cbn [phrase].
  split; [|split].
  - assert (Hs5 : StronglySorted (rankedBy (firstBefore ps)) (firstn 5 sorted))
      by now apply firstn_StronglySorted.
    clear - Hs5 Hfirst Hnd. induction Hs5 as [|e l Hl IH He]; simpl; constructor.
    + intro Hin. apply in_map_iff in Hin. destruct Hin as (e' & Ee & Hin).
      assert (e' = e).
      { destruct e as [k v], e' as [k' v']. simpl in Ee. subst k'.
        pose proof (mapGet_In tm k v Hnd (Hfirst _ (or_introl eq_refl))) as G1.
        pose proof (mapGet_In tm k v' Hnd (Hfirst _ (or_intror Hin))) as G2.
        congruence. }
      subst e'. rewrite Forall_forall in He. destruct (He e Hin) as [_ Hq].
      destruct (Hq eq_refl) as (_ & _ & _ & _ & _ & Hne). now apply Hne.
    + apply IH. intros e' He'. apply Hfirst. now right.
  - intros r Hr. apply in_map_iff in Hr. destruct Hr as ([k v] & <- & Hin).
    cbn [count phrase fst snd]. destruct (Hval k v (Hfirst _ Hin)). split; assumption.
  - intros p Hp. apply K1 in Hp. apply in_map_iff in Hp.
    destruct Hp as ([k v] & Ek & Hin). simpl in Ek. subst k.
    apply (sortBy_In (fun a b : jsstring * Z => snd b - snd a)) in Hin. fold sorted in Hin.
    rewrite <- (firstn_skipn 5 sorted) in Hin. apply in_app_or in Hin.
    destruct Hin as [Hin|Hin].
    + left. apply in_map_iff. exists (p, v). split; [reflexivity|assumption].
    + right. split.
      * unfold len. rewrite length_map, length_firstn.
        assert (5 < List.length sorted \/ List.length sorted <= 5)%nat as [L|L] by lia;
          [lia|].
        rewrite skipn_all2 in Hin by assumption. contradiction.
      * intros r Hr. apply in_map_iff in Hr. destruct Hr as ([k' v'] & <- & Hin').
        cbn [count].
        rewrite <- (firstn_skipn 5 sorted) in Hsorted.
        destruct (StronglySorted_app_cross _ _ _ Hsorted _ _ Hin' Hin) as [Hle _].
        cbn [snd] in Hle.
        assert (Hpv : In (p, v) tm).
        { apply (sortBy_In (fun a b : jsstring * Z => snd b - snd a)).
          fold sorted. rewrite <- (firstn_skipn 5 sorted). apply in_or_app. now right. }
        destruct (Hval p v Hpv) as [-> _]. exact Hle.
Qed.

(* ===================================================================== *)
(** ** The price and the cadence near a span *)
(* ===================================================================== *)

Section NearbyFacts.

Lemma firstMatch_head P r area s :
  (0 < minLen r)%nat -> headed P r -> firstMatch r area = Some s ->
  infix s area /\ exists c t, s = c :: t /\ P c = true.
Proof.
  intros Hr Hh. unfold firstMatch.
  destruct (exec r area 0) as [m|] eqn:E; [|discriminate].
  intro H. injection H as <-. split.
  - unfold matched. eapply infix_trans; [apply infix_firstn|apply infix_skipn].
  - destruct (headed_exec P r _ _ _ Hh E) as (ch & Hn & Hp).
    destruct (matched_head r area 0 m ch Hr (exec_bounds _ _ _ _ E) Hn) as [t Ht].
    eauto.
Qed.

End NearbyFacts.

(** X10. The price found near a span, when there is one, is a piece of the
    text that starts with [$], the pound sign or the euro sign; the cadence,
    when there is one, starts with a lower-case letter. Neither is ever the
    empty string. *)
Theorem findPriceAndCadenceNearby_shape (text : jsstring) (start end_ window : Z) :
  let near := findPriceAndCadenceNearby text start end_ window in
  (forall p, price near = Some p ->
     infix p text /\ exists c t, p = c :: t /\ isCurrency c = true)
  /\ (forall w, cadence near = Some w ->
        exists c t, w = c :: t /\ isLower c = true).
Proof.
  cbv zeta. unfold findPriceAndCadenceNearby. cbn [price cadence].
  set (area := slice text (Z.max 0 (start - window)) (Z.min (len text) (end_ + window))).
  split.
  - intros p Hp. destruct (firstMatch RE_PRICE area) as [s|] eqn:E; [|discriminate].
    destruct (firstMatch_head isCurrency RE_PRICE area s) as (Hi & c & t & -> & Hc);
      [apply Nat.ltb_lt; reflexivity|exact RE_PRICE_headed|exact E|].
    cbn [truthyOpt truthy option_map] in Hp. injection Hp as <-.
    destruct (trim_keeps_head c t (currency_not_space c Hc)) as [t' Et].
    split; [|rewrite Et; eauto].
    eapply infix_trans; [apply infix_trim|].
    eapply infix_trans; [exact Hi|apply infix_slice].
  - intros w Hw. destruct (firstMatch RE_CADENCE area) as [s|] eqn:E; [|discriminate].
    destruct (firstMatch_head isLetter RE_CADENCE area s) as (_ & c & t & -> & Hc);
      [apply Nat.ltb_lt; reflexivity|exact RE_CADENCE_headed|exact E|].
    cbn [truthyOpt truthy option_map] in Hw. injection Hw as <-.
    assert (Hl : isLower (lowerChar c) = true).
    { apply letter_range in Hc. unfold lowerChar, isUpper, isLower, between.
      destruct (N.leb_spec 65 c); destruct (N.leb_spec c 90); simpl;
        apply andb_true_iff; split; apply N.leb_le; lia. }
    assert (Hs : isWhiteSpace (lowerChar c) = false).
    { apply letter_not_space. unfold isLetter. rewrite Hl. apply orb_true_r. }
    destruct (trim_keeps_head (lowerChar c) (toLowerCase t) Hs) as [t' Et].
    change (toLowerCase (c :: t)) with (lowerChar c :: toLowerCase t).
    rewrite Et. eauto.
Qed.

(* ===================================================================== *)
(** ** Applying the highlights *)
(* ===================================================================== *)

Import Highlight.

Section HighlightFacts.

Variable lower : jsstring -> jsstring.

Lemma inPlace_Returned o k r' :
  inPlace o k = Some (Returned r') -> exists r, o = Some (Returned r) /\ r' = k r.
Proof.
  destruct o as [[r|]|]; simpl; intro H; try discriminate.
  injection H as <-. eauto.
Qed.

Lemma inPlace_None o k : inPlace o k = None <-> o = None.
Proof. destruct o as [[r|]|]; simpl; split; intro H; congruence. Qed.

Lemma firstWrap_None f cs :
  firstWrap f cs = None <-> Forall (fun x => f x = None) cs.
Proof.
  induction cs as [|c cs IH]; simpl; [split; [constructor|reflexivity]|].
  destruct (f c) as [o|] eqn:E.
  - split; intro H; [destruct o; discriminate|].
    inversion H; subst. congruence.
  - rewrite inPlace_None, IH. split; intro H; [now constructor|now inversion H].
Qed.

Lemma firstWrap_Returned f cs r' :
  firstWrap f cs = Some (Returned r') ->
  exists pre n post r,
    cs = pre ++ n :: post /\ f n = Some (Returned r) /\ r' = pre ++ r ++ post
    /\ Forall (fun x => f x = None) pre.
Proof.
  revert r'. induction cs as [|c cs IH]; simpl; intros r' H; [discriminate|].
  destruct (f c) as [o|] eqn:E.
  - destruct o as [r|]; [|discriminate]. injection H as <-.
    exists [], c, cs, r. repeat split; auto.
  - apply inPlace_Returned in H. destruct H as (r & Er & ->).
    destruct (IH _ Er) as (pre & n & post & r0 & -> & Hf & -> & Hpre).
    exists (c :: pre), n, post, r0. repeat split; auto.
Qed.

Lemma inPlace_Threw o k : inPlace o k = Some Threw <-> o = Some Threw.
Proof. destruct o as [[r|]|]; simpl; split; intro H; congruence. Qed.

Lemma firstWrap_Threw f cs :
  firstWrap f cs = Some Threw ->
  exists pre n post,
    cs = pre ++ n :: post /\ f n = Some Threw /\ Forall (fun x => f x = None) pre.
Proof.
  induction cs as [|c cs IH]; simpl; [discriminate|].
  destruct (f c) as [o|] eqn:E.
  - destruct o as [r|]; simpl; [discriminate|]. intros _.
    exists [], c, cs. repeat split; auto.
  - rewrite inPlace_Threw. intro H.
    destruct (IH H) as (pre & n & post & -> & Hf & Hpre).
    exists (c :: pre), n, post. repeat split; auto.
Qed.

Lemma wrapInBody_spec f d b :
  find isBody d = Some b ->
  exists pre post,
    d = pre ++ b :: post /\ isBody b = true
    /\ forallb (fun x => negb (isBody x)) pre = true
    /\ wrapInBody f d = inPlace (f b) (fun r => pre ++ r ++ post).
Proof.
  induction d as [|n d IH]; simpl; [discriminate|].
  destruct (isBody n) eqn:E.
  - intro H. injection H as <-. exists [], d. repeat split; auto.
  - intro H. destruct (IH H) as (pre & post & -> & Hb & Hpre & Hw).
    exists (n :: pre), post. simpl. rewrite E, Hw. repeat split; auto.
    destruct (f b) as [[r|]|]; reflexivity.
Qed.

Lemma find_body_app pre r post :
  forallb (fun x => negb (isBody x)) pre = true ->
  find isBody (pre ++ r ++ post) = find isBody (r ++ post).
Proof.
  induction pre as [|x pre IH]; simpl; [reflexivity|].
  intro H. apply andb_true_iff in H. destruct H as [Hx Hp].
  destruct (isBody x); [discriminate|]. now apply IH.
Qed.

Lemma find_body_none d : find isBody d = None <->
  forallb (fun x => negb (isBody x)) d = true.
Proof.
  induction d as [|x d IH]; simpl; [tauto|].
  destruct (isBody x); simpl; [split; discriminate|exact IH].
Qed.

Lemma isInsideOurMark_cons t a c :
  isInsideOurMark ((t, a) :: c) = isOurMark t a || isInsideOurMark c.
Proof. reflexivity. Qed.

Lemma acceptNode_same c s x : acceptNode c s = true -> acceptNode c x = nonBlank x.
Proof.
  unfold acceptNode, nonBlank. destruct c as [|[tag attrs] c]; [discriminate|].
  destruct (_ || _ || _)%bool; [discriminate|].
  destruct (isInsideOurMark _); [discriminate|]. intros _.
  destruct (truthy x); destruct (truthy (trim x)); reflexivity.
Qed.

Lemma acceptNode_outside c s : acceptNode c s = true -> isInsideOurMark c = false.
Proof.
  unfold acceptNode. destruct c as [|[tag attrs] c]; [discriminate|].
  destruct (_ || _ || _)%bool; [discriminate|].
  destruct (isInsideOurMark _); [discriminate|reflexivity].
Qed.

Lemma acceptNode_in_mark c s :
  acceptNode (("MARK"%string, [(MARK_ATTR, MARK_ATTR_VAL)]) :: c) s = false.
Proof. reflexivity. Qed.

Lemma perm_insert {A : Type} (p l1 rx x l2 : list A) (m : A) :
  Permutation rx (m :: x) ->
  Permutation (p ++ l1 ++ rx ++ l2) (m :: p ++ l1 ++ x ++ l2).
Proof.
  intro H. rewrite !(app_assoc p l1).
  etransitivity; [|apply Permutation_sym, Permutation_middle].
  apply Permutation_app_head. rewrite app_comm_cons. now apply Permutation_app_tail.
Qed.

Lemma wrapText_effect needle mark c s r :
  acceptNode c s = true ->
  wrapText lower needle mark s = Some (Returned r) ->
  wrapEffect lower needle mark c (TextNode s) r.
Proof.
  intros Ha. unfold wrapText.
  destruct (indexOf (lower s) (lower needle)) as [idx|] eqn:Ei; [|discriminate].
  destruct (Nat.ltb_spec (List.length s) (idx + List.length needle)) as [|Hle];
    [discriminate|].
  intro H. injection H as <-.
  set (before := firstn idx s).
  set (mid := firstn (List.length needle) (skipn idx s)).
  set (after := skipn (idx + List.length needle) s).
  assert (Es : s = before ++ mid ++ after).
  { unfold before, mid, after. rewrite Nat.add_comm, <- skipn_skipn.
    now rewrite !firstn_skipn. }
  unfold wrapEffect. cbn [flat_map textContent elementsOf marksOf app].
  rewrite !app_nil_r.
  change (isOurMark "MARK" [(MARK_ATTR, MARK_ATTR_VAL)]) with true. cbn [app].
  split; [symmetry; exact Es|]. split; [apply Permutation_refl|].
  split; [apply Permutation_refl|]. split.
  { intros _. cbn [forallb noNested]. rewrite (acceptNode_outside _ _ Ha).
    reflexivity. }
  split; [reflexivity|]. split; [discriminate|].
  exists [], s, [], before, mid, after. cbn [textNodesOf flat_map]. rewrite Ha.
  rewrite !(acceptNode_same _ _ _ Ha), acceptNode_in_mark.
  repeat split.
  - cbn [filter app]. destruct (nonBlank before); destruct (nonBlank after); reflexivity.
  - exact Es.
  - unfold mid. rewrite length_firstn, length_skipn. lia.
  - constructor.
  - rewrite Ei. f_equal. unfold before. rewrite length_firstn. lia.
Qed.

Lemma wrapNode_None needle mark n : forall c,
  wrapNode lower needle mark c n = None <-> Forall (absent lower needle) (textNodesOf c n).
Proof.
  induction n as [s|i t a cs IH] using node_induction; intro c; simpl.
  - destruct (acceptNode c s); [|split; [constructor|reflexivity]].
    unfold wrapText.
    destruct (indexOf (lower s) (lower needle)) as [idx|] eqn:Ei.
    + split; intro H; [destruct (_ <? _)%nat; discriminate|].
      inversion H as [|? ? Hs _]; subst. unfold absent in Hs. congruence.
    + split; [repeat constructor; exact Ei|reflexivity].
  - rewrite inPlace_None, firstWrap_None.
    induction IH as [|x cs Hx Hcs IHcs]; simpl; [split; constructor|].
    rewrite Forall_app. rewrite <- Hx, <- IHcs.
    split; intro H; [inversion H; now split|destruct H; now constructor].
Qed.

Lemma wrapNode_effect needle mark n : forall c r,
  wrapNode lower needle mark c n = Some (Returned r) ->
  wrapEffect lower needle mark c n r.
Proof.
  induction n as [s|i t a cs IH] using node_induction; intros c r H; simpl in H.
  - destruct (acceptNode c s) eqn:Ha; [|discriminate].
    now apply wrapText_effect.
  - apply inPlace_Returned in H. destruct H as (cs' & Hw & ->).
    apply firstWrap_Returned in Hw.
    destruct Hw as (pre & x & post & rx & -> & Hx & -> & Hpre).
    rewrite Forall_forall in IH.
    assert (Hin : In x (pre ++ x :: post)) by (apply in_or_app; right; now left).
    destruct (IH x Hin _ _ Hx)
      as (E1 & E2 & E3 & E4 & E5 & E6 & (tp & s & tq & before & mid & after
          & T1 & T2 & T3 & T4 & T5 & T6)).
    unfold wrapEffect. cbn [flat_map textContent elementsOf marksOf].
    rewrite !app_nil_r, !flat_map_app. cbn [flat_map]. rewrite ?flat_map_app.
    split; [now rewrite E1|].
    split; [exact (perm_insert [i] _ _ _ _ _ E2)|].
    split; [exact (perm_insert _ _ _ _ _ _ E3)|].
    split.
    { cbn [forallb noNested]. rewrite andb_true_r. intro Hn.
      apply andb_true_iff in Hn. destruct Hn as [Hn1 Hn2]. rewrite Hn1. simpl.
      rewrite !forallb_app in *. cbn [forallb] in Hn2.
      apply andb_true_iff in Hn2. destruct Hn2 as [P1 P2].
      apply andb_true_iff in P2. destruct P2 as [P2 P3].
      rewrite P1, P3. rewrite isInsideOurMark_cons in E4. rewrite (E4 P2).
      reflexivity. }
    split; [simpl; now rewrite eqb_reflx|].
    split; [intros ? ? ? ? E; injection E as <- <- <- <-; eauto|].
    exists (flat_map (textNodesOf ((t, a) :: c)) pre ++ tp), s,
           (tq ++ flat_map (textNodesOf ((t, a) :: c)) post), before, mid, after.
    cbn [textNodesOf]. rewrite !flat_map_app. cbn [flat_map]. rewrite T1, T2.
    repeat split; auto.
    + now rewrite <- !app_assoc.
    + now rewrite <- !app_assoc.
    + apply Forall_app. split; [|assumption].
      apply Forall_flat_map. rewrite Forall_forall in *. intros y Hy.
      apply wrapNode_None with (mark := mark). now apply Hpre.
Qed.

Lemma wrapNode_Threw needle mark n : forall c,
  wrapNode lower needle mark c n = Some Threw ->
  exists pre s post,
    textNodesOf c n = pre ++ s :: post
    /\ Forall (absent lower needle) pre
    /\ overruns lower needle s.
Proof.
  induction n as [s|i t a cs IH] using node_induction; intros c H; simpl in H.
  - destruct (acceptNode c s) eqn:Ha; [|discriminate].
    exists [], s, []. cbn [textNodesOf]. rewrite Ha.
    split; [reflexivity|]. split; [constructor|].
    unfold wrapText in H.
    destruct (indexOf (lower s) (lower needle)) as [idx|] eqn:Ei; [|discriminate].
    destruct (Nat.ltb_spec (List.length s) (idx + List.length needle)) as [Hlt|];
      [|discriminate].
    exists idx. split; [exact Ei|assumption].
  - apply inPlace_Threw in H. apply firstWrap_Threw in H.
    destruct H as (pre & x & post & -> & Hx & Hpre).
    rewrite Forall_forall in IH.
    assert (Hin : In x (pre ++ x :: post)) by (apply in_or_app; right; now left).
    destruct (IH x Hin _ Hx) as (tp & s & tq & T1 & T2 & T3).
    exists (flat_map (textNodesOf ((t, a) :: c)) pre ++ tp), s,
           (tq ++ flat_map (textNodesOf ((t, a) :: c)) post).
    cbn [textNodesOf]. rewrite !flat_map_app. cbn [flat_map]. rewrite T1.
    split; [now rewrite <- !app_assoc|]. split; [|assumption].
    apply Forall_app. split; [|assumption].
    apply Forall_flat_map. rewrite Forall_forall in *. intros y Hy.
    apply wrapNode_None with (mark := mark). now apply Hpre.
Qed.

Lemma textNodes_none needle mark d :
  Forall (fun x => wrapNode lower needle mark htmlChain x = None) d
  <-> Forall (absent lower needle) (flat_map (textNodesOf htmlChain) d).
Proof.
  induction d as [|x d IH]; simpl; [split; constructor|].
  rewrite Forall_app, <- IH, <- (wrapNode_None needle mark).
  split; intro H; [inversion H; now split|destruct H; now constructor].
Qed.

Lemma body_is_element b : isBody b = true -> exists i t a cs, b = Element i t a cs.
Proof. destruct b as [s|i t a cs]; [discriminate|eauto]. Qed.

Lemma freshId_new d : ~ In (freshId d) (elements d).
Proof.
  intro H. unfold freshId in H.
  assert (Hmax : Forall (fun k => (k <= list_max (elements d))%nat) (elements d))
    by now apply list_max_le.
  rewrite Forall_forall in Hmax. apply Hmax in H. lia.
Qed.

Lemma findAndWrapOnce_outcome needle d :
  wrapOutcome lower needle d (findAndWrapOnce lower needle d).
Proof.
  unfold findAndWrapOnce.
  destruct needle as [|n0 needle']; [simpl; split; [reflexivity|now left]|].
  set (needle := n0 :: needle'). cbn [truthy negb]. cbv zeta.
  set (mark := freshId d). set (f := wrapNode lower needle mark htmlChain).
  assert (Hne : needle <> []) by discriminate.
  destruct (find isBody d) as [b|] eqn:Eb.
  - destruct (wrapInBody_spec f d b Eb) as (pre & post & Ed & Hb & Hpre & ->).
    assert (Etn : textNodes d = textNodesOf htmlChain b) by (unfold textNodes; now rewrite Eb).
    destruct (f b) as [[r|]|] eqn:Ef; simpl.
    + destruct (wrapNode_effect needle mark b _ _ Ef)
        as (E1 & E2 & E3 & E4 & E5 & E6 & (tp & s & tq & before & mid & after
            & T1 & T2 & T3 & T4 & T5 & T6)).
      destruct (body_is_element b Hb) as (i & t & a & cs & Hbe).
      destruct (E6 _ _ _ _ Hbe) as (cs' & ->).
      split; [assumption|]. subst d.
      unfold pageText, elements, querySelectorAllMarks, noNestedMarks.
      rewrite !flat_map_app. split; [now rewrite E1|].
      split; [exact (perm_insert [] _ _ _ _ _ E2)|].
      split; [exact (perm_insert [] _ _ _ _ _ E3)|]. split.
      { rewrite !forallb_app. intro Hn.
        apply andb_true_iff in Hn. destruct Hn as [P1 P2].
        cbn [forallb] in P2.
        apply andb_true_iff in P2. destruct P2 as [P2 P3].
        change (isInsideOurMark htmlChain) with false in E4.
        rewrite P1, P3, (E4 P2). reflexivity. }
      exists tp, s, tq, before, mid, after. rewrite Etn.
      repeat split; auto.
      unfold textNodes. rewrite find_body_app by assumption.
      assert (Hb' : isBody (Element i t a cs') = true) by (rewrite Hbe in Hb; exact Hb).
      cbn [app find]. rewrite Hb'. etransitivity; [|exact T2].
      cbn [flat_map]. now rewrite app_nil_r.
    + split; [assumption|]. rewrite Etn.
      exact (wrapNode_Threw needle mark b _ Ef).
    + split; [reflexivity|]. right. rewrite Etn.
      now apply (wrapNode_None needle mark).
  - assert (Etn : textNodes d = flat_map (textNodesOf htmlChain) d)
      by (unfold textNodes; now rewrite Eb).
    destruct (firstWrap f d) as [[d'|]|] eqn:Ef.
    + apply firstWrap_Returned in Ef.
      destruct Ef as (pre & x & post & rx & Ed & Hx & -> & Hpre).
      destruct (wrapNode_effect needle mark x _ _ Hx)
        as (E1 & E2 & E3 & E4 & E5 & E6 & (tp & s & tq & before & mid & after
            & T1 & T2 & T3 & T4 & T5 & T6)).
      split; [assumption|].
      assert (Enb : find isBody (pre ++ rx ++ post) = None).
      { apply find_body_none. apply find_body_none in Eb. rewrite Ed in Eb.
        rewrite !forallb_app in *. cbn [forallb] in Eb.
        apply andb_true_iff in Eb. destruct Eb as [P1 P2].
        apply andb_true_iff in P2. destruct P2 as [P2 P3].
        rewrite P1, P3, andb_true_r. simpl.
        apply forallb_forall. intros y Hy.
        rewrite forallb_forall in E5. specialize (E5 y Hy).
        apply eqb_prop in E5. now rewrite E5. }
      rewrite Etn. unfold textNodes. rewrite Enb. subst d.
      unfold pageText, elements, querySelectorAllMarks, noNestedMarks.
      rewrite !flat_map_app. cbn [flat_map]. rewrite ?flat_map_app.
      split; [now rewrite E1|].
      split; [exact (perm_insert [] _ _ _ _ _ E2)|].
      split; [exact (perm_insert [] _ _ _ _ _ E3)|]. split.
      { rewrite !forallb_app. intro Hn.
        apply andb_true_iff in Hn. destruct Hn as [P1 P2].
        cbn [forallb] in P2.
        apply andb_true_iff in P2. destruct P2 as [P2 P3].
        change (isInsideOurMark htmlChain) with false in E4.
        rewrite P1, P3, (E4 P2). reflexivity. }
      exists (flat_map (textNodesOf htmlChain) pre ++ tp), s,
             (tq ++ flat_map (textNodesOf htmlChain) post), before, mid, after.
      rewrite T1, T2. repeat split; auto.
      * now rewrite <- !app_assoc.
      * now rewrite <- !app_assoc.
      * apply Forall_app. split; [|assumption].
        now apply (textNodes_none needle mark).
    + split; [assumption|]. rewrite Etn.
      apply firstWrap_Threw in Ef. destruct Ef as (pre & x & post & -> & Hx & Hpre).
      destruct (wrapNode_Threw needle mark x _ Hx) as (tp & s & tq & T1 & T2 & T3).
      exists (flat_map (textNodesOf htmlChain) pre ++ tp), s,
             (tq ++ flat_map (textNodesOf htmlChain) post).
      rewrite !flat_map_app. cbn [flat_map]. rewrite T1.
      split; [now rewrite <- !app_assoc|]. split; [|assumption].
      apply Forall_app. split; [|assumption].
      now apply (textNodes_none needle mark).
    + split; [reflexivity|]. right. rewrite Etn.
      apply (textNodes_none needle mark). now apply firstWrap_None.
Qed.

(** What the loop of [applyHighlights] keeps, however it ends. *)
Lemma findAndWrapOnce_keeps needle d ok d' :
  findAndWrapOnce lower needle d = Returned (ok, d') ->
  pageText d' = pageText d
  /\ (NoDup (elements d) -> NoDup (elements d'))
  /\ (noNestedMarks d = true -> noNestedMarks d' = true)
  /\ List.length (querySelectorAllMarks d')
     = (List.length (querySelectorAllMarks d) + (if ok then 1 else 0))%nat.
Proof.
  intro H. pose proof (findAndWrapOnce_outcome needle d) as Ho. rewrite H in Ho.
  destruct ok; simpl in Ho.
  - destruct Ho as (_ & E1 & E2 & E3 & E4 & _). repeat split; auto.
    + intro Hn. apply (Permutation_NoDup (Permutation_sym E2)).
      constructor; [apply freshId_new|assumption].
    + rewrite (Permutation_length E3). simpl. lia.
  - destruct Ho as [-> _]. repeat split; auto; lia.
Qed.

Lemma applyLoop_keeps hits : forall applied d r d',
  applyLoop lower hits applied d = (r, d') ->
  pageText d' = pageText d
  /\ (NoDup (elements d) -> NoDup (elements d'))
  /\ (noNestedMarks d = true -> noNestedMarks d' = true)
  /\ exists k,
       List.length (querySelectorAllMarks d')
       = (List.length (querySelectorAllMarks d) + k)%nat
       /\ forall a, r = Returned a ->
            a = applied + Z.of_nat k
            /\ (k <= List.length hits)%nat
            /\ a <= Z.max applied Highlight.MAX_HIGHLIGHTS.
Proof.
  induction hits as [|h hits IH]; intros applied d r d' H; simpl in H.
  - injection H as <- <-. repeat split; auto. exists 0%nat.
    split; [lia|]. intros a Ha. injection Ha as <-. simpl. lia.
  - destruct (Z.geb_spec applied Highlight.MAX_HIGHLIGHTS) as [Hcap|Hcap].
    { injection H as <- <-. repeat split; auto. exists 0%nat.
      split; [lia|]. intros a Ha. injection Ha as <-. simpl. lia. }
    destruct (findAndWrapOnce lower (trim (stripEllipsis (snippet h))) d)
      as [[ok d1]|] eqn:E1.
    2: { injection H as <- <-. repeat split; auto. exists 0%nat.
         split; [lia|]. intros a Ha. discriminate. }
    destruct (findAndWrapOnce_keeps _ _ _ _ E1) as (A1 & A2 & A3 & A4).
    assert (Hsecond : exists ok2 d2 o,
              (if negb ok && truthy (text h)
               then findAndWrapOnce lower (text h) d1 else Returned (ok, d1)) = o
              /\ (o = Threw \/ o = Returned (ok2, d2))
              /\ pageText d2 = pageText d
              /\ (NoDup (elements d) -> NoDup (elements d2))
              /\ (noNestedMarks d = true -> noNestedMarks d2 = true)
              /\ List.length (querySelectorAllMarks d2)
                 = (List.length (querySelectorAllMarks d) + (if ok2 then 1 else 0))%nat
              /\ (o = Threw -> d2 = d1 /\ ok2 = ok)).
    { destruct (negb ok && truthy (text h)) eqn:Eb.
      - destruct (findAndWrapOnce lower (text h) d1) as [[ok2 d2]|] eqn:E2.
        + destruct (findAndWrapOnce_keeps _ _ _ _ E2) as (B1 & B2 & B3 & B4).
          exists ok2, d2, (Returned (ok2, d2)).
          assert (ok = false) by (destruct ok; [discriminate|reflexivity]). subst ok.
          repeat split; auto; try congruence; try lia; try discriminate.
        + exists ok, d1, Threw.
          repeat split; auto; try congruence; try lia; try discriminate.
      - exists ok, d1, (Returned (ok, d1)).
        repeat split; auto; try congruence; try lia; try discriminate. }
    destruct Hsecond as (ok2 & d2 & o & Eo & Ho & S1 & S2 & S3 & S4 & S5).
    rewrite Eo in H. destruct Ho as [-> | ->].
    + injection H as <- <-. destruct (S5 eq_refl) as [-> ->].
      repeat split; auto. exists (if ok then 1 else 0)%nat.
      split; [assumption|]. intros a Ha. discriminate.
    + destruct (IH _ _ _ _ H) as (C1 & C2 & C3 & (k & C4 & C5)).
      split; [congruence|]. split; [auto|]. split; [auto|].
      exists ((if ok2 then 1 else 0) + k)%nat. split; [lia|].
      intros a Ha. destruct (C5 a Ha) as (D1 & D2 & D3).
      unfold Highlight.MAX_HIGHLIGHTS in *. destruct ok2; simpl; lia.
Qed.

Lemma first_holder_unique {A : Type} (P : A -> Prop) (pre : list A) :
  forall pre' s s' post post',
  pre ++ s :: post = pre' ++ s' :: post' ->
  Forall P pre -> ~ P s -> Forall P pre' -> ~ P s' ->
  pre = pre' /\ s = s' /\ post = post'.
Proof.
  induction pre as [|x pre IH]; intros [|x' pre'] s s' post post' E Hp Hs Hp' Hs';
    simpl in E.
  - injection E as -> ->. auto.
  - injection E as -> _. inversion Hp'; subst. contradiction.
  - injection E as -> _. inversion Hp; subst. contradiction.
  - injection E as -> E. inversion Hp; inversion Hp'; subst.
    destruct (IH _ _ _ _ _ E) as (-> & -> & ->); auto.
Qed.





Lemma overruns_not_absent needle s : overruns lower needle s -> ~ absent lower needle s.
Proof. intros (idx & Hi & _). unfold absent. congruence. Qed.






Lemma find_body_style d st :
  isBody st = false -> find isBody (d ++ [st]) = find isBody d.
Proof.
  intro H. induction d as [|x d IH]; simpl; [now rewrite H|].
  destruct (isBody x); [reflexivity|exact IH].
Qed.

(** What [installStylesOnce] does to the page when the style is not yet
    there. *)
Lemma installStylesOnce_new p :
  stylesInstalled p = false ->
  let p' := installStylesOnce p in
  stylesInstalled p' = true
  /\ pageText (dom p') = pageText (dom p) ++ styleText
  /\ elements (dom p') = elements (dom p) ++ [freshId (dom p)]
  /\ querySelectorAllMarks (dom p') = querySelectorAllMarks (dom p)
  /\ noNestedMarks (dom p') = noNestedMarks (dom p)
  /\ textNodes (dom p') = textNodes (dom p).
Proof.
  intro H. unfold installStylesOnce. rewrite H. cbn [dom stylesInstalled].
  unfold pageText, elements, querySelectorAllMarks, noNestedMarks, textNodes.
  rewrite !flat_map_app, forallb_app, find_body_style by reflexivity.
  cbn [flat_map textContent elementsOf marksOf forallb noNested].
  change (isOurMark "STYLE" [("id", "tc-decoder-highlight-style")]%string) with false.
  cbn [app andb orb negb]. rewrite !app_nil_r, andb_true_r.
  repeat split; try reflexivity;
    destruct (find isBody (dom p)); reflexivity.
Qed.

Lemma installStylesOnce_old p : stylesInstalled p = true -> installStylesOnce p = p.
Proof. intro H. unfold installStylesOnce. now rewrite H. Qed.

(** What a call of [applyHighlights] keeps and what it counts, however it
    ends. *)
Lemma applyHighlights_keeps hits p r p' :
  applyHighlights lower hits p = (r, p') ->
  pageText (dom p')
  = pageText (dom p)
    ++ (if negb (len hits =? 0) && negb (stylesInstalled p) then styleText else [])
  /\ stylesInstalled p' = (stylesInstalled p || negb (len hits =? 0))%bool
  /\ (NoDup (elements (dom p)) -> NoDup (elements (dom p')))
  /\ (noNestedMarks (dom p) = true -> noNestedMarks (dom p') = true)
  /\ exists k,
       List.length (querySelectorAllMarks (dom p'))
       = (List.length (querySelectorAllMarks (dom p)) + k)%nat
       /\ forall a, r = Returned a ->
            a = Z.of_nat k /\ (k <= List.length hits)%nat
            /\ a <= Highlight.MAX_HIGHLIGHTS.
Proof.
  unfold applyHighlights. destruct (len hits =? 0).
  - intro H. injection H as <- <-. cbn [negb andb].
    rewrite app_nil_r, orb_false_r. repeat split; auto.
    exists 0%nat. split; [lia|]. intros a Ha. injection Ha as <-.
    unfold Highlight.MAX_HIGHLIGHTS. simpl. lia.
  - destruct (applyLoop lower hits 0 (dom (installStylesOnce p))) as [r0 d'] eqn:E.
    intro H. injection H as <- <-. cbn [dom stylesInstalled negb andb].
    destruct (applyLoop_keeps hits 0 _ _ _ E) as (K1 & K2 & K3 & k & K4 & K5).
    assert (Hk : forall a, r0 = Returned a ->
              a = Z.of_nat k /\ (k <= List.length hits)%nat
              /\ a <= Highlight.MAX_HIGHLIGHTS).
    { intros a Ha. destruct (K5 a Ha) as (A1 & A2 & A3).
      unfold Highlight.MAX_HIGHLIGHTS in *. lia. }
    destruct (stylesInstalled p) eqn:Es.
    + rewrite installStylesOnce_old in * by assumption.
      rewrite Es. cbn [negb orb]. rewrite app_nil_r.
      repeat split; auto. exists k. auto.
    + destruct (installStylesOnce_new p Es) as (I1 & I2 & I3 & I4 & I5 & _).
      rewrite I1. cbn [negb orb]. rewrite K1, I2.
      split; [reflexivity|]. split; [reflexivity|]. split; [|split].
      * intro Hn. apply K2. rewrite I3.
        apply (Permutation_NoDup (Permutation_cons_append _ _)).
        constructor; [apply freshId_new|assumption].
      * intro Hn. apply K3. now rewrite I5.
      * exists k. rewrite <- I4. auto.
Qed.

Lemma infix_flat_map {A : Type} (f : A -> jsstring) (x : A) (l : list A) :
  In x l -> infix (f x) (flat_map f l).
Proof.
  intro H. apply in_split in H. destruct H as (l1 & l2 & ->).
  rewrite flat_map_app. cbn [flat_map]. now exists (flat_map f l1), (flat_map f l2).
Qed.

Lemma textNodesOf_visible n : forall c,
  Forall (fun s => nonBlank s = true /\ infix s (textContent n)) (textNodesOf c n).
Proof.
  induction n as [s|i t a cs IH] using node_induction; intro c; cbn [textNodesOf].
  - destruct (acceptNode c s) eqn:Ha; [|constructor].
    constructor; [|constructor]. split; [|apply infix_refl].
    now rewrite <- (acceptNode_same c s s Ha).
  - apply Forall_flat_map. rewrite Forall_forall in *. intros x Hx.
    specialize (IH x Hx ((t, a) :: c)). rewrite Forall_forall in *.
    intros s Hs. destruct (IH s Hs) as [H1 H2]. split; [assumption|].
    eapply infix_trans; [exact H2|]. cbn [textContent].
    now apply infix_flat_map.
Qed.

Lemma textNodesOf_in_mark n : forall c,
  isInsideOurMark c = true -> textNodesOf c n = [].
Proof.
  induction n as [s|i t a cs IH] using node_induction; intros c Hc; cbn [textNodesOf].
  - unfold acceptNode. destruct c as [|[tag attrs] c]; [reflexivity|].
    rewrite Hc. destruct (_ || _ || _)%bool; reflexivity.
  - induction IH as [|x cs Hx Hcs IHcs]; [reflexivity|]. cbn [flat_map].
    rewrite IHcs, app_nil_r. apply Hx. rewrite isInsideOurMark_cons, Hc.
    apply orb_true_r.
Qed.

End HighlightFacts.

(** X11. [findAndWrapOnce] returns false exactly when the needle is empty or
    no text node that the walker yields holds the needle (compared in
    lower case); the page is then left as it is. *)
Theorem findAndWrapOnce_false_iff
    (lower : jsstring -> jsstring) (needle : jsstring) (d : document) :
  (findAndWrapOnce lower needle d = Returned (false, d)
   <-> needle = [] \/ Forall (absent lower needle) (textNodes d))
  /\ forall d', findAndWrapOnce lower needle d = Returned (false, d') -> d' = d.
Proof.
  pose proof (findAndWrapOnce_outcome lower needle d) as Ho.
  destruct (findAndWrapOnce lower needle d) as [[[|] d0]|] eqn:E;
    unfold wrapOutcome in Ho.
  - destruct Ho as (Hne & _ & _ & _ & _ & pre & s & post & b & m & a
                    & T1 & _ & _ & _ & _ & T6).
    split; [|intros d' H; discriminate]. split; [discriminate|].
    intros [Hn|Hall]; [contradiction|]. rewrite T1 in Hall.
    apply Forall_app in Hall. destruct Hall as [_ Hall].
    apply Forall_inv in Hall. unfold absent in Hall. congruence.
  - destruct Ho as [-> Ho]. split; [tauto|].
    intros d' H. injection H as <-. reflexivity.
  - destruct Ho as (Hne & pre & s & post & T1 & _ & Hover).
    split; [|intros d' H; discriminate]. split; [discriminate|].
    intros [Hn|Hall]; [contradiction|]. rewrite T1 in Hall.
    apply Forall_app in Hall. destruct Hall as [_ Hall].
    apply Forall_inv in Hall. now apply overruns_not_absent in Hover.
Qed.

(** X12. When [findAndWrapOnce] returns true, the page text is the same;
    the page has one more element, the new mark, which is one more of our
    marks; distinct elements stay distinct and marks stay outside each
    other; the walker yields the same text nodes in the same order, except
    that the first one that holds the needle is replaced by what is left
    of it before and after the mark (when not blank). The mark holds as
    many characters as the needle has, from the index at which the needle
    is first found in the lower-cased text. *)
Theorem findAndWrapOnce_wraps_first_occurrence
    (lower : jsstring -> jsstring) (needle : jsstring) (d d' : document) :
  findAndWrapOnce lower needle d = Returned (true, d') ->
  needle <> []
  /\ pageText d' = pageText d
  /\ Permutation (elements d') (freshId d :: elements d)
  /\ Permutation (querySelectorAllMarks d') (freshId d :: querySelectorAllMarks d)
  /\ ~ In (freshId d) (elements d)
  /\ (NoDup (elements d) -> NoDup (elements d'))
  /\ (noNestedMarks d = true -> noNestedMarks d' = true)
  /\ exists pre s post before mid after,
       textNodes d = pre ++ s :: post
       /\ textNodes d' = pre ++ filter nonBlank [before; after] ++ post
       /\ s = before ++ mid ++ after
       /\ List.length mid = List.length needle
       /\ Forall (absent lower needle) pre
       /\ indexOf (lower s) (lower needle) = Some (List.length before).
Proof.
  intro H. pose proof (findAndWrapOnce_outcome lower needle d) as Ho.
  rewrite H in Ho. unfold wrapOutcome in Ho.
  destruct Ho as (Hne & E1 & E2 & E3 & E4 & Hex).
  split; [assumption|]. split; [assumption|]. split; [assumption|].
  split; [assumption|]. split; [apply freshId_new|]. split; [|split; assumption].
  intro Hn. apply (Permutation_NoDup (Permutation_sym E2)).
  constructor; [apply freshId_new|assumption].
Qed.

Lemma findAndWrapOnce_wraps_first_occurrence_witness :
  findAndWrapOnce JSString.toLowerCase (str "fees") samplePage
  = Returned (true, wrappedPage)
  /\ pageText wrappedPage = pageText samplePage
  /\ Permutation (querySelectorAllMarks wrappedPage)
       (freshId samplePage :: querySelectorAllMarks samplePage)
  /\ exists pre s post before mid after,
       textNodes samplePage = pre ++ s :: post
       /\ textNodes wrappedPage = pre ++ filter nonBlank [before; after] ++ post
       /\ s = before ++ mid ++ after
       /\ List.length mid = List.length (str "fees")
       /\ Forall (absent JSString.toLowerCase (str "fees")) pre
       /\ indexOf (JSString.toLowerCase s) (JSString.toLowerCase (str "fees"))
          = Some (List.length before).
Proof.
  assert (H : findAndWrapOnce JSString.toLowerCase (str "fees") samplePage
              = Returned (true, wrappedPage)) by (vm_compute; reflexivity).
  split; [exact H|].
  destruct (findAndWrapOnce_wraps_first_occurrence
              JSString.toLowerCase (str "fees") samplePage wrappedPage H)
    as (_ & E1 & _ & E3 & _ & _ & _ & Hex).
  split; [exact E1|]. split; [exact E3|exact Hex].
Defined.

(** X13. [findAndWrapOnce] throws (the range cannot be set) exactly when
    the needle is not empty and, in the first text node that holds it, the
    index found in the lower-cased text plus the length of the needle is
    past the end of the text itself. *)
Theorem findAndWrapOnce_throws_iff
    (lower : jsstring -> jsstring) (needle : jsstring) (d : document) :
  findAndWrapOnce lower needle d = Threw
  <-> needle <> []
      /\ exists pre s post,
           textNodes d = pre ++ s :: post
           /\ Forall (absent lower needle) pre
           /\ overruns lower needle s.
Proof.
  pose proof (findAndWrapOnce_outcome lower needle d) as Ho.
  destruct (findAndWrapOnce lower needle d) as [[[|] d0]|] eqn:E;
    unfold wrapOutcome in Ho.
  - split; [discriminate|]. intro H. exfalso.
    destruct H as (_ & pre & s & post & T1 & T2 & (idx & Hi & Hlt)).
    destruct Ho as (_ & _ & _ & _ & _ & pre' & s' & post' & before & mid & after
                    & U1 & _ & U3 & U4 & U5 & U6).
    rewrite T1 in U1.
    destruct (first_holder_unique (absent lower needle) _ _ _ _ _ _ U1)
      as (_ & -> & _); auto.
    + unfold absent. congruence.
    + unfold absent. congruence.
    + rewrite Hi in U6. injection U6 as ->. rewrite U3 in Hlt.
      rewrite !length_app in Hlt. lia.
  - split; [discriminate|]. intro H. exfalso.
    destruct H as (Hne & pre & s & post & T1 & _ & Hover).
    destruct Ho as [_ [Hn|Hall]]; [contradiction|]. rewrite T1 in Hall.
    apply Forall_app in Hall. destruct Hall as [_ Hall].
    apply Forall_inv in Hall. now apply (overruns_not_absent lower) in Hover.
  - split; [intros _; exact Ho|reflexivity].
Qed.

Lemma findAndWrapOnce_throws_iff_witness :
  findAndWrapOnce lowerDotted (str "fee") dottedPage = Threw.
Proof.
  apply (proj2 (findAndWrapOnce_throws_iff lowerDotted (str "fee") dottedPage)).
  split; [discriminate|].
  exists [], (304%N :: str " fee"), []. split; [reflexivity|].
  split; [constructor|]. exists 3%nat. split; [reflexivity|simpl; lia].
Defined.



(** X15. The number that [applyHighlights] returns is between 0 and 50, is
    at most the number of spans it is given, and is the number of marks
    that the page has gained. *)
Theorem applyHighlights_count
    (lower : jsstring -> jsstring) (hits : list Hit) (p p' : page) (a : Z) :
  applyHighlights lower hits p = (Returned a, p') ->
  0 <= a <= Highlight.MAX_HIGHLIGHTS
  /\ a <= len hits
  /\ List.length (querySelectorAllMarks (dom p'))
     = (List.length (querySelectorAllMarks (dom p)) + Z.to_nat a)%nat.
Proof.
  intro H.
  destruct (applyHighlights_keeps lower hits p _ _ H) as (_ & _ & _ & _ & k & Hk & Ha).
  destruct (Ha a eq_refl) as (-> & Hk1 & Hk2).
  unfold len. rewrite Hk, Nat2Z.id. repeat split; try lia.
Qed.

Lemma applyHighlights_count_witness :
  fst (applyHighlights JSString.toLowerCase pageHits (mkPage samplePage false))
  = Returned 2
  /\ 2 <= len pageHits
  /\ List.length (querySelectorAllMarks
       (dom (snd (applyHighlights JSString.toLowerCase pageHits
                    (mkPage samplePage false)))))
     = 2%nat.
Proof.
  assert (H : applyHighlights JSString.toLowerCase pageHits (mkPage samplePage false)
              = (Returned 2,
                 snd (applyHighlights JSString.toLowerCase pageHits
                        (mkPage samplePage false))))
    by (vm_compute; reflexivity).
  destruct (applyHighlights_count _ _ _ _ _ H) as (_ & H2 & H3).
  split; [vm_compute; reflexivity|]. split; [exact H2|exact H3].
Defined.

(** X16. However [applyHighlights] ends, the text of the page is what it
    was, followed by the text of the style sheet when the style element
    is added (there are spans and the styles were not installed yet); the
    styles are installed afterwards whenever there are spans; distinct
    elements stay distinct and marks stay outside each other. *)
Theorem applyHighlights_keeps_page
    (lower : jsstring -> jsstring) (hits : list Hit) (p : page) :
  pageText (dom (snd (applyHighlights lower hits p)))
  = pageText (dom p)
    ++ (if negb (len hits =? 0) && negb (stylesInstalled p) then styleText else [])
  /\ stylesInstalled (snd (applyHighlights lower hits p))
     = (stylesInstalled p || negb (len hits =? 0))%bool
  /\ (NoDup (elements (dom p)) ->
      NoDup (elements (dom (snd (applyHighlights lower hits p)))))
  /\ (noNestedMarks (dom p) = true ->
      noNestedMarks (dom (snd (applyHighlights lower hits p))) = true).
Proof.
  destruct (applyHighlights lower hits p) as [r p'] eqn:E. cbn [snd].
  destruct (applyHighlights_keeps lower hits p _ _ E) as (K1 & K2 & K3 & K4 & _).
  auto.
Qed.

(** X17. Applying and then clearing: on a page whose elements are distinct
    objects, [clearHighlights] after an [applyHighlights] that returned
    [a] returns [a] plus the number of marks that were there before, and
    leaves no mark and the same page text. *)
Theorem clearHighlights_after_applyHighlights
    (lower : jsstring -> jsstring) (hits : list Hit) (p p' : page) (a : Z) :
  NoDup (elements (dom p)) ->
  applyHighlights lower hits p = (Returned a, p') ->
  exists d'',
    clearHighlights (dom p') = (d'', len (querySelectorAllMarks (dom p)) + a)
    /\ querySelectorAllMarks d'' = []
    /\ pageText d'' = pageText (dom p').
Proof.
  intros Hn H.
  destruct (applyHighlights_keeps lower hits p _ _ H) as (_ & _ & K3 & _ & k & Hk & Ha).
  destruct (Ha a eq_refl) as (-> & _ & _).
  pose proof (K3 Hn) as Hn'.
  destruct (clear_loop (querySelectorAllMarks (dom p')) (dom p') 0 Hn'
              (marks_NoDup _ Hn') (marks_elements _)) as (d'' & E1 & E2 & E3).
  exists d''. rewrite withoutAll_self in E2. unfold clearHighlights.
  rewrite E1. repeat split; auto. f_equal. unfold len. rewrite Hk. lia.
Qed.

Lemma clearHighlights_after_applyHighlights_witness :
  NoDup (elements samplePage)
  /\ exists d'',
       clearHighlights
         (dom (snd (applyHighlights JSString.toLowerCase pageHits
                      (mkPage samplePage false))))
       = (d'', len (querySelectorAllMarks samplePage) + 2)
       /\ querySelectorAllMarks d'' = []
       /\ pageText d''
          = pageText (dom (snd (applyHighlights JSString.toLowerCase pageHits
                                  (mkPage samplePage false)))).
Proof.
  assert (Hn : NoDup (elements samplePage)).
  { repeat constructor; simpl; intuition discriminate. }
  assert (H : applyHighlights JSString.toLowerCase pageHits (mkPage samplePage false)
              = (Returned 2,
                 snd (applyHighlights JSString.toLowerCase pageHits
                        (mkPage samplePage false))))
    by (vm_compute; reflexivity).
  split; [exact Hn|].
  exact (clearHighlights_after_applyHighlights _ _ (mkPage samplePage false) _ _ Hn H).
Defined.



(** X19. The walker yields only text that is not blank and that is part of
    the page text, and never text below one of our marks or directly in a
    [script], [style] or [noscript] element. *)
Theorem textNodes_visible (d : document) :
  Forall (fun s => nonBlank s = true /\ infix s (pageText d)) (textNodes d)
  /\ (forall c i t a cs,
        isOurMark t a = true -> textNodesOf c (Element i t a cs) = [])
  /\ (forall c i t a s,
        t = "SCRIPT"%string \/ t = "STYLE"%string \/ t = "NOSCRIPT"%string ->
        textNodesOf c (Element i t a [TextNode s]) = []).
Proof.
  split; [|split].
  - unfold textNodes. destruct (find isBody d) as [b|] eqn:Eb.
    + apply find_some in Eb. destruct Eb as [Hb _].
      pose proof (textNodesOf_visible b htmlChain) as H.
      rewrite Forall_forall in *. intros s Hs. destruct (H s Hs) as [H1 H2].
      split; [assumption|]. eapply infix_trans; [exact H2|].
      unfold pageText. now apply infix_flat_map.
    + apply Forall_flat_map. apply Forall_forall. intros x Hx.
      pose proof (textNodesOf_visible x htmlChain) as H.
      rewrite Forall_forall in *. intros s Hs. destruct (H s Hs) as [H1 H2].
      split; [assumption|]. eapply infix_trans; [exact H2|].
      unfold pageText. now apply infix_flat_map.
  - intros c i t a cs Hm. cbn [textNodesOf].
    induction cs as [|x cs IH]; [reflexivity|]. cbn [flat_map].
    rewrite IH, app_nil_r. apply textNodesOf_in_mark.
    rewrite isInsideOurMark_cons, Hm. reflexivity.
  - intros c i t a s [-> | [-> | ->]]; reflexivity.
Qed.
